(** * Relish: a shallow embedding of the TLV codec and its schema layer

    The development follows the Go sources of the repository:
    - [internal/lengths.go]  : the tagged-varint length codec;
    - [internal/tlv.go]      : type bytes, fixed-size table, primitive and
                               composite TLV framers;
    - [internal/fixed.go]    : the Bool TLV;
    - [internal/binary.go]   : [ReadFull];
    - [internal/reflectx.go] : [ParseRelishTag];
    - [encoder.go], [decoder.go], [marshal.go] : the reflective schema layer.

    Bytes are integers in [0, 256); a Go [int] is an unbounded [Z] except
    where the source converts to a fixed width, in which case the wrap-around
    is written out.  A reader over a byte slice is the list of bytes that
    remain to be read; a writer is the list of bytes appended to the sink. *)

From Stdlib Require Import String.
From Stdlib Require Import ZArith List Bool Lia Sorting.Permutation.
Import ListNotations.
Open Scope Z_scope.
Set Warnings "-register-all".

(** ** Bytes and errors *)

Definition byte := Z.

Definition is_byte (b : Z) : Prop := 0 <= b < 256.

(** [byte(x)] conversion of Go: keep the low eight bits. *)
Definition to_byte (x : Z) : byte := x mod 256.

(** [uint32(x)] conversion of Go. *)
Definition to_uint32 (x : Z) : Z := x mod 2 ^ 32.

(** errors.go: [ErrorKind]. *)
Inductive ErrorKind :=
| ErrInvalidTypeID
| ErrInvalidFieldID
| ErrFieldOrder
| ErrDuplicateMapKey
| ErrInvalidUTF8
| ErrLengthOverflow
| ErrUnexpectedEOF
| ErrTypeMismatch
| ErrEnumLengthMismatch
| ErrNotImplementedKind.

(** The error values that the code can return: the structured [*Error] of
    errors.go (offset is never set by the code, so it is left out), the
    sentinel [errInvalidTypeID] of tlv.go, the anonymous [errors.New]
    values, and the two errors of package [io]. *)
Inductive error :=
| RelishError (k : ErrorKind) (detail : string)
| errInvalidTypeID
| PlainError (msg : string)
| io_EOF
| io_ErrUnexpectedEOF.

Definition ErrNotImplemented : error :=
  RelishError ErrNotImplementedKind "not implemented".

Inductive result (A : Type) :=
| Ok (a : A)
| Err (e : error).
Arguments Ok {A} a.
Arguments Err {A} e.

Definition bind {A B} (r : result A) (k : A -> result B) : result B :=
  match r with
  | Ok a => k a
  | Err e => Err e
  end.

Notation "x <- c ;; k" := (bind c (fun x => k))
  (at level 61, c at next level, right associativity).
Notation "' p <- c ;; k" := (bind c (fun x => let p := x in k))
  (at level 61, p pattern, c at next level, right associativity).

Definition is_ok {A} (r : result A) : bool :=
  match r with Ok _ => true | Err _ => false end.

(** ** internal/lengths.go *)

Definition MaxLen : Z := 2 ^ 31 - 1.

Definition SizeOfLen (n : Z) : Z :=
  if (n <? 0) || (MaxLen <? n) then -1
  else if n <=? 127 then 1
  else 4.

(** [EncodeLen] writes into [dst] and returns the number of bytes written;
    here it returns the bytes it writes, whose count is that number. *)
Definition EncodeLen (n : Z) : list byte :=
  if n <=? 127 then
    [to_byte (Z.land (Z.shiftl n 1) 254)]
  else
    let u := to_uint32 n in
    [ to_byte (Z.lor (to_uint32 (Z.shiftl (Z.land u 127) 1)) 1);
      to_byte (Z.land (Z.shiftr u 7) 255);
      to_byte (Z.land (Z.shiftr u 15) 255);
      to_byte (Z.land (Z.shiftr u 23) 255) ].

(** [DecodeLen] returns the value and the number of bytes consumed,
    [(-1, 0)] on malformed input. *)
Definition DecodeLen (src : list byte) : Z * Z :=
  match src with
  | [] => (-1, 0)
  | b0 :: rest =>
      if Z.land b0 1 =? 0 then (Z.shiftr b0 1, 1)
      else
        match rest with
        | b1 :: b2 :: b3 :: _ =>
            let n :=
              Z.lor (Z.lor (Z.lor (to_uint32 (Z.shiftr b0 1))
                                  (to_uint32 (Z.shiftl b1 7)))
                           (to_uint32 (Z.shiftl b2 15)))
                    (to_uint32 (Z.shiftl b3 23)) in
            if (n <? 0) || (MaxLen <? n) then (-1, 0) else (n, 4)
        | _ => (-1, 0)
        end
  end.

(** ** Readers and writers

    A reader is the list of bytes not yet consumed.  A write to a
    [bytes.Buffer] cannot fail, so a writer function returns the bytes it
    appends, or the error that made it stop (the bytes written before an
    error are never observed: every caller drops the buffer). *)

Definition Reader := list byte.

Definition len {A} (l : list A) : Z := Z.of_nat (length l).

(** [io.ReadFull(r, buf)] with [len(buf) = n]: [io.EOF] when nothing could be
    read, [io.ErrUnexpectedEOF] when the input ends early. *)
Definition io_ReadFull (n : Z) (r : Reader) : result (list byte * Reader) :=
  if (Z.to_nat n <=? length r)%nat then
    Ok (firstn (Z.to_nat n) r, skipn (Z.to_nat n) r)
  else
    match r with
    | [] => Err io_EOF
    | _ :: _ => Err io_ErrUnexpectedEOF
    end.

(** internal/binary.go: [ReadFull].  Over a byte-slice reader the loop reads
    everything that is left in one [Read]; a second [Read] then reports
    [io.EOF], which the loop returns unless the buffer is already full. *)
Definition ReadFull (n : Z) (r : Reader) : result (list byte * Reader) :=
  if (Z.to_nat n <=? length r)%nat then
    Ok (firstn (Z.to_nat n) r, skipn (Z.to_nat n) r)
  else Err io_EOF.

(** ** internal/tlv.go *)


Definition FixedSize (t : byte) : Z * bool :=
  match t with
  | 0x00 => (0, true)
  | 0x01 => (1, true)
  | 0x02 => (1, true)
  | 0x03 => (2, true)
  | 0x04 => (4, true)
  | 0x05 => (8, true)
  | 0x06 => (16, true)
  | 0x07 => (1, true)
  | 0x08 => (2, true)
  | 0x09 => (4, true)
  | 0x0A => (8, true)
  | 0x0B => (16, true)
  | 0x0C => (4, true)
  | 0x0D => (8, true)
  | 0x13 => (8, true)
  | _ => (0, false)
  end.

Definition WriteType (t : byte) : result (list byte) :=
  if negb (Z.land t 0x80 =? 0) then Err errInvalidTypeID
  else Ok [t].

Definition ReadType (r : Reader) : result (byte * Reader) :=
  '(b, r') <- io_ReadFull 1 r ;;
  let b0 := nth 0 b 0 in
  if negb (Z.land b0 0x80 =? 0) then Err errInvalidTypeID
  else Ok (b0, r').

Definition WriteLen (n : Z) : result (list byte) :=
  let sz := SizeOfLen n in
  if sz <? 0 then Err (PlainError "length out of range")
  else Ok (EncodeLen n).

(** [ReadLen] returns the length, the number of bytes the prefix took, and
    the rest of the input. *)
Definition ReadLen (r : Reader) : result (Z * Z * Reader) :=
  '(b, r1) <- io_ReadFull 1 r ;;
  let b0 := nth 0 b 0 in
  if Z.land b0 0x01 =? 0 then
    let '(n, _) := DecodeLen [b0] in
    Ok (n, 1, r1)
  else
    '(b', r2) <- io_ReadFull 3 r1 ;;
    let '(n, _) := DecodeLen (b0 :: b') in
    if n <? 0 then Err (PlainError "invalid length")
    else Ok (n, 4, r2).

(** [binary.LittleEndian.PutUint32] and [Uint32]. *)
Definition PutUint32 (v : Z) : list byte :=
  [ to_byte v; to_byte (Z.shiftr v 8);
    to_byte (Z.shiftr v 16); to_byte (Z.shiftr v 24) ].

Definition Uint32 (b : list byte) : Z :=
  Z.lor (Z.lor (Z.lor (to_uint32 (nth 0 b 0))
                      (to_uint32 (Z.shiftl (nth 1 b 0) 8)))
               (to_uint32 (Z.shiftl (nth 2 b 0) 16)))
        (to_uint32 (Z.shiftl (nth 3 b 0) 24)).

Definition WriteU32TLV (v : Z) : result (list byte) :=
  t <- WriteType 0x04 ;;
  Ok (t ++ PutUint32 v).

Definition ReadU32TLV (r : Reader) : result (Z * Reader) :=
  '(t, r1) <- ReadType r ;;
  if negb (t =? 0x04) then Err (PlainError "unexpected type id for u32")
  else
    '(buf, r2) <- io_ReadFull 4 r1 ;;
    Ok (Uint32 buf, r2).

(** [unicode/utf8.Valid] and [utf8.ValidString] of the Go library: a lead
    byte below 0x80 stands alone; 0xC2..0xDF starts a two-byte form,
    0xE0..0xEF a three-byte form, 0xF0..0xF4 a four-byte form; the first
    continuation byte is restricted for 0xE0, 0xED, 0xF0 and 0xF4 (no
    overlong forms, no surrogates, nothing above U+10FFFF); all other
    continuation bytes lie in 0x80..0xBF. *)
Definition in_range (lo hi b : byte) : bool := (lo <=? b) && (b <=? hi).

Definition acceptRange (b0 : byte) : byte * byte :=
  if b0 =? 0xE0 then (0xA0, 0xBF)
  else if b0 =? 0xED then (0x80, 0x9F)
  else if b0 =? 0xF0 then (0x90, 0xBF)
  else if b0 =? 0xF4 then (0x80, 0x8F)
  else (0x80, 0xBF).

Fixpoint utf8_Valid (p : list byte) : bool :=
  match p with
  | [] => true
  | b0 :: p1 =>
      if b0 <? 0x80 then utf8_Valid p1
      else
        let '(lo, hi) := acceptRange b0 in
        if in_range 0xC2 0xDF b0 then
          match p1 with
          | c1 :: p2 => in_range lo hi c1 && utf8_Valid p2
          | _ => false
          end
        else if in_range 0xE0 0xEF b0 then
          match p1 with
          | c1 :: c2 :: p3 =>
              in_range lo hi c1 && in_range 0x80 0xBF c2 && utf8_Valid p3
          | _ => false
          end
        else if in_range 0xF0 0xF4 b0 then
          match p1 with
          | c1 :: c2 :: c3 :: p4 =>
              in_range lo hi c1 && in_range 0x80 0xBF c2 &&
              in_range 0x80 0xBF c3 && utf8_Valid p4
          | _ => false
          end
        else false
  end.

(** A Go string is its sequence of bytes. *)
Definition gostring := list byte.

Definition WriteStringTLV (s : gostring) : result (list byte) :=
  if negb (utf8_Valid s) then Err (PlainError "invalid utf-8")
  else
    t <- WriteType 0x0E ;;
    l <- WriteLen (len s) ;;
    if len s =? 0 then Ok (t ++ l)
    else Ok (t ++ l ++ s).

Definition ReadStringTLV (r : Reader) : result (gostring * Reader) :=
  '(t, r1) <- ReadType r ;;
  if negb (t =? 0x0E) then Err (PlainError "unexpected type id for string")
  else
    '(n, _, r2) <- ReadLen r1 ;;
    if n =? 0 then Ok ([], r2)
    else
      '(buf, r3) <- ReadFull n r2 ;;
      if negb (utf8_Valid buf) then Err (PlainError "invalid utf-8")
      else Ok (buf, r3).

(** internal/fixed.go: the Bool TLV. *)
Definition WriteBoolTLV (v : bool) : result (list byte) :=
  t <- WriteType 0x01 ;;
  let b := if v then 0xFF else 0x00 in
  Ok (t ++ [b]).

Definition ReadBoolTLV (r : Reader) : result (bool * Reader) :=
  '(t, r1) <- ReadType r ;;
  if negb (t =? 0x01) then Err (PlainError "unexpected type id for bool")
  else
    '(b, r2) <- io_ReadFull 1 r1 ;;
    match nth 0 b 0 with
    | 0x00 => Ok (false, r2)
    | 0xFF => Ok (true, r2)
    | _ => Err (PlainError "invalid bool value")
    end.

(** Composite framers.  The closure argument of a writer ([writeElems],
    [writeFields], [writeVariant], [writePairs]) is given by what it does to
    the scratch buffer: the bytes it appends, or its error. *)

Definition WriteArrayTLV (elemType : byte) (writeElems : result (list byte))
  : result (list byte) :=
  if negb (Z.land elemType 0x80 =? 0) then Err errInvalidTypeID
  else
    et <- WriteType elemType ;;
    elems <- writeElems ;;
    let buf := et ++ elems in
    t <- WriteType 0x0F ;;
    l <- WriteLen (len buf) ;;
    Ok (t ++ l ++ buf).

Definition ReadArrayTLV (r : Reader) : result (byte * list byte * Reader) :=
  '(t, r1) <- ReadType r ;;
  if negb (t =? 0x0F) then Err (PlainError "unexpected type id for array")
  else
    '(n, _, r2) <- ReadLen r1 ;;
    if n <? 1 then Err (PlainError "array content too short")
    else
      '(buf, r3) <- ReadFull n r2 ;;
      let elemType := nth 0 buf 0 in
      if negb (Z.land elemType 0x80 =? 0) then Err errInvalidTypeID
      else Ok (elemType, skipn 1 buf, r3).

Definition WriteStructTLV (writeFields : result (list byte))
  : result (list byte) :=
  buf <- writeFields ;;
  t <- WriteType 0x11 ;;
  l <- WriteLen (len buf) ;;
  Ok (t ++ l ++ buf).

Definition ReadStructTLV (r : Reader) : result (list byte * Reader) :=
  '(t, r1) <- ReadType r ;;
  if negb (t =? 0x11) then Err (PlainError "unexpected type id for struct")
  else
    '(n, _, r2) <- ReadLen r1 ;;
    if n =? 0 then Ok ([], r2)
    else ReadFull n r2.

Definition WriteEnumTLV (variantID : byte) (writeVariant : result (list byte))
  : result (list byte) :=
  if negb (Z.land variantID 0x80 =? 0) then Err errInvalidTypeID
  else
    body <- writeVariant ;;
    let buf := variantID :: body in
    t <- WriteType 0x12 ;;
    l <- WriteLen (len buf) ;;
    Ok (t ++ l ++ buf).

Definition ReadEnumTLV (r : Reader) : result (byte * list byte * Reader) :=
  '(t, r1) <- ReadType r ;;
  if negb (t =? 0x12) then Err (PlainError "unexpected type id for enum")
  else
    '(n, _, r2) <- ReadLen r1 ;;
    if n <? 1 then Err (PlainError "enum content too short")
    else
      '(buf, r3) <- ReadFull n r2 ;;
      let variantID := nth 0 buf 0 in
      if negb (Z.land variantID 0x80 =? 0) then Err errInvalidTypeID
      else Ok (variantID, skipn 1 buf, r3).

Definition WriteMapTLV (keyType valueType : byte)
                       (writePairs : result (list byte))
  : result (list byte) :=
  if negb (Z.land keyType 0x80 =? 0) || negb (Z.land valueType 0x80 =? 0)
  then Err errInvalidTypeID
  else
    kt <- WriteType keyType ;;
    vt <- WriteType valueType ;;
    pairs <- writePairs ;;
    let buf := kt ++ vt ++ pairs in
    t <- WriteType 0x10 ;;
    l <- WriteLen (len buf) ;;
    Ok (t ++ l ++ buf).

Definition ReadMapTLV (r : Reader)
  : result (byte * byte * list byte * Reader) :=
  '(t, r1) <- ReadType r ;;
  if negb (t =? 0x10) then Err (PlainError "unexpected type id for map")
  else
    '(n, _, r2) <- ReadLen r1 ;;
    if n <? 2 then Err (PlainError "map content too short")
    else
      '(buf, r3) <- ReadFull n r2 ;;
      let kt := nth 0 buf 0 in
      let vt := nth 1 buf 0 in
      if negb (Z.land kt 0x80 =? 0) || negb (Z.land vt 0x80 =? 0)
      then Err errInvalidTypeID
      else Ok (kt, vt, skipn 2 buf, r3).

(** ** internal/reflectx.go: struct tags

    A field's [relish] tag, after [strings.Split] and [strconv.ParseInt]:
    the tag is missing or empty, it is ["-"], or it has a first part, which
    parses to an integer or not ([None]), followed by the two modifiers. *)
Inductive StructTag :=
| TagEmpty
| TagDash
| TagParts (id64 : option Z) (optional omitempty : bool).

(** Returns (id, optional, omitempty, ok). *)
Definition ParseRelishTag (tag : StructTag) : Z * bool * bool * bool :=
  match tag with
  | TagEmpty | TagDash => (0, false, false, false)
  | TagParts None _ _ => (0, false, false, false)
  | TagParts (Some id64) optional omitempty =>
      if (id64 <? 0) || (0x80 <=? id64) then (0, false, false, false)
      else (id64, optional, omitempty, true)
  end.

(** ** Go types and values seen through [reflect]

    The kinds that both the encoder and the decoder handle (bool, uint32,
    string, struct) and pointers to them.  A struct type is the list of its
    fields, each with its tag and type; a struct value is the list of its
    field values in declaration order. *)
Inductive GoType :=
| TBool
| TUint32
| TString
| TPtr (elem : GoType)
| TStruct (fields : list (StructTag * GoType)).

Inductive Value :=
| VBool (b : bool)
| VUint32 (n : Z)
| VString (s : gostring)
| VPtr (p : option Value)
| VStruct (fs : list Value).

(** [reflect.Zero]. *)
Fixpoint Zero (t : GoType) : Value :=
  match t with
  | TBool => VBool false
  | TUint32 => VUint32 0
  | TString => VString []
  | TPtr _ => VPtr None
  | TStruct fields => VStruct (map (fun f => Zero (snd f)) fields)
  end.

(** [reflect.DeepEqual] on these values. *)
Fixpoint DeepEqual (v w : Value) : bool :=
  match v, w with
  | VBool a, VBool b => Bool.eqb a b
  | VUint32 a, VUint32 b => a =? b
  | VString a, VString b =>
      if list_eq_dec Z.eq_dec a b then true else false
  | VPtr None, VPtr None => true
  | VPtr (Some a), VPtr (Some b) => DeepEqual a b
  | VStruct fs, VStruct gs =>
      (fix all2 (fs gs : list Value) : bool :=
         match fs, gs with
         | [], [] => true
         | f :: fs', g :: gs' => DeepEqual f g && all2 fs' gs'
         | _, _ => false
         end) fs gs
  | _, _ => false
  end.

(** The value is one of the type. *)
Fixpoint hasType (t : GoType) (v : Value) : bool :=
  match t, v with
  | TBool, VBool _ => true
  | TUint32, VUint32 n => (0 <=? n) && (n <? 2 ^ 32)
  | TString, VString s => forallb (fun b => (0 <=? b) && (b <? 256)) s
  | TPtr e, VPtr None => true
  | TPtr e, VPtr (Some x) => hasType e x
  | TStruct fields, VStruct fs =>
      (fix all2 (fields : list (StructTag * GoType)) (fs : list Value) : bool :=
         match fields, fs with
         | [], [] => true
         | f :: fields', x :: fs' => hasType (snd f) x && all2 fields' fs'
         | _, _ => false
         end) fields fs
  | _, _ => false
  end.

Definition isPointer (v : Value) : bool :=
  match v with VPtr _ => true | _ => false end.

Definition IsNil (v : Value) : bool :=
  match v with VPtr None => true | _ => false end.

(** ** encoder.go *)

(** [isZeroValue]: a pointer is zero when nil, anything else when deeply
    equal to the zero value of its type. *)
Definition isZeroValue (t : GoType) (v : Value) : bool :=
  match v with
  | VPtr _ => IsNil v
  | _ => DeepEqual v (Zero t)
  end.

(** The [fieldInfo] of [encodeStruct].  [encoded] is what
    [encodeValue(value)] writes: the recursive call is made when the record
    is built, so that the recursion follows the structure of the type; the
    result is only used where the source makes the call. *)
Record fieldInfo := mkFieldInfo {
  id : Z;
  optional : bool;
  omitempty : bool;
  ftype : GoType;
  value : Value;
  encoded : result (list byte)
}.

(** [sort.Slice(fields, func(i, j) { fields[i].id < fields[j].id })].  On a
    slice of at most twelve elements [sort.Slice] is an insertion sort, which
    keeps fields of equal id in source order; this is that order.  (On a
    longer slice [sort.Slice] promises no order among equal ids.)  A field
    is put before the first field whose id is not smaller, and the fields
    are inserted from the last one to the first. *)
Fixpoint insertField (fi : fieldInfo) (l : list fieldInfo) : list fieldInfo :=
  match l with
  | [] => [fi]
  | x :: l' =>
      if id x <? id fi then x :: insertField fi l'
      else fi :: x :: l'
  end.

Fixpoint sortFields (l : list fieldInfo) : list fieldInfo :=
  match l with
  | [] => []
  | x :: l' => insertField x (sortFields l')
  end.

(** The closure passed to [WriteStructTLV]: the loop over the sorted
    fields. *)
Fixpoint writeFields (fields : list fieldInfo) : result (list byte) :=
  match fields with
  | [] => Ok []
  | fi :: rest =>
      if optional fi && isPointer (value fi) && IsNil (value fi) then
        writeFields rest
      else if omitempty fi && isZeroValue (ftype fi) (value fi) then
        writeFields rest
      else
        t <- WriteType (to_byte (id fi)) ;;
        e <- encoded fi ;;
        r <- writeFields rest ;;
        Ok (t ++ e ++ r)
  end.

Definition isPresent (v : Value) : bool := isPointer v && negb (IsNil v).

(** The body of [encodeStruct] once the [fields] slice is collected. *)
Definition encodeFields (fields : list fieldInfo) : result (list byte) :=
  let optCount := len (filter optional fields) in
  let presentOpt :=
    len (filter (fun fi => optional fi && isPresent (value fi)) fields) in
  let structPath :=
    WriteStructTLV (writeFields (sortFields fields)) in
  if (0 <? len fields) && (optCount =? len fields) && (presentOpt =? 1) then
    match find (fun fi => isPresent (value fi)) fields with
    | Some fi => WriteEnumTLV (to_byte (id fi)) (encoded fi)
    | None => structPath
    end
  else structPath.

(** [encodeValue], by recursion on the type of the value.  The pointer loop
    stops at a nil pointer with the zero value of the pointee, which is then
    dispatched on its kind (a pointer kind is not handled). *)
Fixpoint encodeValue (t : GoType) (v : Value) {struct t} : result (list byte) :=
  match t with
  | TPtr e =>
      match v with
      | VPtr None =>
          match e with
          | TPtr _ => Err ErrNotImplemented
          | _ => encodeValue e (Zero e)
          end
      | VPtr (Some x) => encodeValue e x
      | _ => Err ErrNotImplemented
      end
  | TBool =>
      match v with
      | VBool b => WriteBoolTLV b
      | _ => Err ErrNotImplemented
      end
  | TUint32 =>
      match v with
      | VUint32 n => WriteU32TLV (to_uint32 n)
      | _ => Err ErrNotImplemented
      end
  | TString =>
      match v with
      | VString s => WriteStringTLV s
      | _ => Err ErrNotImplemented
      end
  | TStruct fields =>
      match v with
      | VStruct fs =>
          encodeFields
            ((fix collect (fields : list (StructTag * GoType))
                          (fs : list Value) : list fieldInfo :=
                match fields, fs with
                | (tag, ft) :: fields', fv :: fs' =>
                    let '(id, optional, omitempty, ok) := ParseRelishTag tag in
                    if ok then
                      mkFieldInfo id optional omitempty ft fv
                                  (encodeValue ft fv)
                      :: collect fields' fs'
                    else collect fields' fs'
                | _, _ => []
                end) fields fs)
      | _ => Err ErrNotImplemented
      end
  end.

(** marshal.go *)
Definition Marshal (t : GoType) (v : Value) : result (list byte) :=
  encodeValue t v.

(** ** decoder.go *)

(** [readTLVBytes]: one complete TLV, returned as bytes together with the
    rest of the input.  For a variable-size type the header is rebuilt by
    encoding the length again into a zeroed four-byte array and keeping as
    many bytes as the prefix took on the wire. *)
Definition readTLVBytes (r : Reader) : result (list byte * Reader) :=
  '(t, r1) <- ReadType r ;;
  let '(n, ok) := FixedSize t in
  if ok then
    if n =? 0 then Ok ([t], r1)
    else
      '(content, r2) <- ReadFull n r1 ;;
      Ok (t :: content, r2)
  else
    '(n, used, r2) <- ReadLen r1 ;;
    let tmp := EncodeLen n ++ repeat 0 (4 - length (EncodeLen n)) in
    let hdr := t :: firstn (Z.to_nat used) tmp in
    if 0 <? n then
      '(content, r3) <- ReadFull n r2 ;;
      Ok (hdr ++ content, r3)
    else Ok (hdr, r2).

(** The [idToIndex] map of [decodeStructInto], as an association list with
    the latest binding first: a later field with the same id replaces an
    earlier one, as the map assignment does. *)
Fixpoint buildIndex (fields : list (StructTag * GoType)) (i : nat)
                    (m : list (Z * nat)) : list (Z * nat) :=
  match fields with
  | [] => m
  | (tag, _) :: fields' =>
      let '(id, _, _, ok) := ParseRelishTag tag in
      buildIndex fields' (S i) (if ok then (id, i) :: m else m)
  end.

Definition lookupIndex (m : list (Z * nat)) (id : Z) : option nat :=
  match find (fun p => fst p =? id) m with
  | Some p => Some (snd p)
  | None => None
  end.

(** [dst.Field(idx)] assignment. *)
Fixpoint setField (idx : nat) (x : Value) (fs : list Value) : list Value :=
  match fs, idx with
  | [], _ => []
  | _ :: fs', O => x :: fs'
  | f :: fs', S idx' => f :: setField idx' x fs'
  end.

(** What decoding into one field does, given the decoder of its type (or of
    its pointee, for a pointer field, which is allocated when nil): the
    bytes that the sub-decoder leaves unread are dropped. *)
Definition fieldDecoder := Value -> Reader -> result Value.

(** The type a field is decoded as: the pointee for a pointer field. *)
Definition targetType (ft : GoType) : GoType :=
  match ft with
  | TPtr e => e
  | _ => ft
  end.

Definition decodeField (ft : GoType)
    (dec : Value -> Reader -> result (Value * Reader))
  : fieldDecoder :=
  fun f tlv =>
    match ft with
    | TPtr e =>
        let target := match f with
                      | VPtr (Some x) => x
                      | _ => Zero e
                      end in
        '(x, _) <- dec target tlv ;;
        Ok (VPtr (Some x))
    | _ =>
        '(x, _) <- dec f tlv ;;
        Ok x
    end.

(** The field loop of [decodeStructInto].  Each round consumes at least the
    id byte, so the rounds are counted down from the length of the
    payload. *)
Fixpoint structLoop (rounds : nat) (decs : list fieldDecoder)
                    (idToIndex : list (Z * nat)) (prev : Z)
                    (br : Reader) (dst : list Value) : result (list Value) :=
  match br with
  | [] => Ok dst
  | b :: br1 =>
      match rounds with
      | O => Err io_EOF
      | S rounds' =>
          if negb (Z.land b 0x80 =? 0) then
            Err (RelishError ErrInvalidFieldID "top bit set")
          else
            let id := b in
            if id <=? prev then
              Err (RelishError ErrFieldOrder
                               "field ids not strictly increasing")
            else
              '(tlv, br2) <- readTLVBytes br1 ;;
              match lookupIndex idToIndex id with
              | None => structLoop rounds' decs idToIndex id br2 dst
              | Some idx =>
                  let f := nth idx dst (VPtr None) in
                  let dec := nth idx decs (fun _ _ => Err ErrNotImplemented) in
                  x <- dec f tlv ;;
                  structLoop rounds' decs idToIndex id br2 (setField idx x dst)
              end
      end
  end.

(** [decodeStructInto]: the type byte is already consumed. *)
Definition decodeStructInto (fields : list (StructTag * GoType))
                            (decs : list fieldDecoder)
                            (dst : list Value) (r : Reader)
  : result (list Value * Reader) :=
  '(n, _, r1) <- ReadLen r ;;
  if n =? 0 then Ok (dst, r1)
  else
    '(buf, r2) <- ReadFull n r1 ;;
    let idToIndex := buildIndex fields 0 [] in
    dst' <- structLoop (length buf) decs idToIndex (-1) buf dst ;;
    Ok (dst', r2).

(** The search for the variant in [decodeEnumInto]: the first field whose
    tag parses and whose id is the variant byte. *)
Fixpoint findVariant (fields : list (StructTag * GoType)) (i : nat)
                     (vid : byte) : option nat :=
  match fields with
  | [] => None
  | (tag, _) :: fields' =>
      let '(id, _, _, ok) := ParseRelishTag tag in
      if ok && (to_byte id =? vid) then Some i
      else findVariant fields' (S i) vid
  end.

(** The decoder of a variant: the pointee decoder, which also reports what
    it leaves unread. *)
Definition variantDecoder := Value -> Reader -> result (Value * Reader).

Definition decodeVariant (ft : GoType)
    (dec : Value -> Reader -> result (Value * Reader))
  : variantDecoder :=
  fun f payload =>
    match ft with
    | TPtr e =>
        let target := match f with
                      | VPtr (Some x) => x
                      | _ => Zero e
                      end in
        '(x, rest) <- dec target payload ;;
        Ok (VPtr (Some x), rest)
    | _ =>
        Err (RelishError ErrTypeMismatch "enum field must be pointer")
    end.

(** [decodeEnumInto]: the type byte is already consumed. *)
Definition decodeEnumInto (fields : list (StructTag * GoType))
                          (decs : list variantDecoder)
                          (dst : list Value) (r : Reader)
  : result (list Value * Reader) :=
  '(n, _, r1) <- ReadLen r ;;
  if n <? 1 then
    Err (RelishError ErrTypeMismatch "enum content too short")
  else
    '(buf, r2) <- ReadFull n r1 ;;
    let vid := nth 0 buf 0 in
    let payload := skipn 1 buf in
    match findVariant fields 0 vid with
    | None => Err (RelishError ErrTypeMismatch "unknown enum variant")
    | Some idx =>
        let f := nth idx dst (VPtr None) in
        let dec := nth idx decs (fun _ _ => Err ErrNotImplemented) in
        '(x, br) <- dec f payload ;;
        if negb (len br =? 0) then
          Err (RelishError ErrEnumLengthMismatch
                           "variant did not consume full length")
        else Ok (setField idx x dst, r2)
    end.

(** The kind switch of [Decoder.Decode], on the type of the value that the
    target pointer points to; [cur] is the value found there and the result
    is the value left there, with the unread input. *)
Fixpoint decodeElem (t : GoType) (cur : Value) (r : Reader) {struct t}
  : result (Value * Reader) :=
  match t with
  | TStruct fields =>
      let dst := match cur with VStruct fs => fs | _ => [] end in
      '(ty, r1) <- ReadType r ;;
      match ty with
      | 0x11 =>
          '(dst', r2) <-
            decodeStructInto fields
              (map (fun f => decodeField (snd f)
                               (decodeElem (targetType (snd f)))) fields)
              dst r1 ;;
          Ok (VStruct dst', r2)
      | 0x12 =>
          '(dst', r2) <-
            decodeEnumInto fields
              (map (fun f => decodeVariant (snd f)
                               (decodeElem (targetType (snd f)))) fields)
              dst r1 ;;
          Ok (VStruct dst', r2)
      | _ => Err (RelishError ErrTypeMismatch "expected struct/enum TLV")
      end
  | TString =>
      '(s, r1) <- ReadStringTLV r ;;
      Ok (VString s, r1)
  | TBool =>
      '(b, r1) <- ReadBoolTLV r ;;
      Ok (VBool b, r1)
  | TUint32 =>
      '(u, r1) <- ReadU32TLV r ;;
      Ok (VUint32 u, r1)
  | TPtr _ => Err ErrNotImplemented
  end.

(** [Decoder.Decode(v)]: [v] must be a non-nil pointer. *)
Definition Decode (t : GoType) (v : Value) (r : Reader)
  : result (Value * Reader) :=
  match t, v with
  | TPtr e, VPtr (Some x) => decodeElem e x r
  | _, _ =>
      Err (RelishError ErrTypeMismatch "Decode target must be non-nil pointer")
  end.

(** marshal.go: [Unmarshal(data, v)]; the result is the value that [v]
    points to afterwards. *)
Definition Unmarshal (data : list byte) (t : GoType) (v : Value)
  : result Value :=
  '(x, _) <- Decode t v data ;;
  Ok x.

(** [Decoder.SkipValue].  The decoder is its reader (the input not yet
    read) and its offset; the method returns its error, if any, and the
    decoder as the call leaves it. *)
Record Decoder := mkDecoder { r : Reader; offset : Z }.

Definition SkipValue (d : Decoder) : option error * Decoder :=
  (Some ErrNotImplemented, d).

(** The decoders that [decodeElem] hands to [decodeStructInto] and to
    [decodeEnumInto] for the fields of a struct type. *)
Definition fieldDecoders (fields : list (StructTag * GoType))
  : list fieldDecoder :=
  map (fun f => decodeField (snd f) (decodeElem (targetType (snd f)))) fields.

Definition variantDecoders (fields : list (StructTag * GoType))
  : list variantDecoder :=
  map (fun f => decodeVariant (snd f) (decodeElem (targetType (snd f)))) fields.

Definition noVariantDecoder : variantDecoder :=
  fun _ _ => Err ErrNotImplemented.

Definition noFieldDecoder : fieldDecoder :=
  fun _ _ => Err ErrNotImplemented.

(** The kinds that the specification's round trip is about. *)
Definition isBase (t : GoType) : bool :=
  match t with
  | TBool | TUint32 | TString => true
  | _ => false
  end.

(** [encodeStruct]'s collection loop, with the encoder of field values as a
    parameter; [encodeValue] runs it with itself. *)
Fixpoint collectFields (enc : GoType -> Value -> result (list byte))
                       (fields : list (StructTag * GoType))
                       (fs : list Value) : list fieldInfo :=
  match fields, fs with
  | (tag, ft) :: fields', fv :: fs' =>
      let '(id, optional, omitempty, ok) := ParseRelishTag tag in
      if ok then
        mkFieldInfo id optional omitempty ft fv (enc ft fv)
        :: collectFields enc fields' fs'
      else collectFields enc fields' fs'
  | _, _ => []
  end.

(** ** Struct payloads as sequences of fields

    A field on the wire: its id byte, the bytes of its value TLV, and the
    bytes that [readTLVBytes] returns for them (the same bytes when the
    length prefix is in its shortest form). *)
Record wireField := mkWireField {
  wid : byte;
  wbytes : list byte;
  wtlv : list byte
}.

Definition payloadOf (es : list wireField) : list byte :=
  flat_map (fun e => wid e :: wbytes e) es.

Definition wfWireField (e : wireField) : Prop :=
  Z.land (wid e) 0x80 = 0 /\
  forall rest, readTLVBytes (wbytes e ++ rest) = Ok (wtlv e, rest).

(** Each id is greater than the one before it, the first one greater than
    [prev]. *)
Fixpoint increasingFrom (prev : Z) (ids : list Z) : bool :=
  match ids with
  | [] => true
  | i :: ids' => (prev <? i) && increasingFrom i ids'
  end.

(** What the field loop of [decodeStructInto] does, field by field. *)
Fixpoint applyFields (decs : list fieldDecoder) (idToIndex : list (Z * nat))
                     (prev : Z) (es : list wireField) (dst : list Value)
  : result (list Value) :=
  match es with
  | [] => Ok dst
  | e :: es' =>
      if wid e <=? prev then
        Err (RelishError ErrFieldOrder "field ids not strictly increasing")
      else
        match lookupIndex idToIndex (wid e) with
        | None => applyFields decs idToIndex (wid e) es' dst
        | Some idx =>
            x <- nth idx decs noFieldDecoder (nth idx dst (VPtr None)) (wtlv e) ;;
            applyFields decs idToIndex (wid e) es' (setField idx x dst)
        end
  end.

(** Every field bound in the target decodes, whatever the slot holds. *)
Definition decodable (decs : list fieldDecoder) (idToIndex : list (Z * nat))
                     (es : list wireField) : Prop :=
  forall e idx f, In e es -> lookupIndex idToIndex (wid e) = Some idx ->
                  exists x, nth idx decs noFieldDecoder f (wtlv e) = Ok x.

(** The fields that [writeFields] writes: those it does not skip, each with
    its id and the bytes of its encoded value. *)
Fixpoint wireFieldsOf (fields : list fieldInfo) : list wireField :=
  match fields with
  | [] => []
  | fi :: rest =>
      if optional fi && isPointer (value fi) && IsNil (value fi) then
        wireFieldsOf rest
      else if omitempty fi && isZeroValue (ftype fi) (value fi) then
        wireFieldsOf rest
      else
        match encoded fi with
        | Ok tlv => mkWireField (id fi) tlv tlv :: wireFieldsOf rest
        | Err _ => wireFieldsOf rest
        end
  end.

(** The ids of the fields whose tag parses, in declaration order. *)
Fixpoint taggedIDs (fields : list (StructTag * GoType)) : list Z :=
  match fields with
  | [] => []
  | (tag, _) :: fields' =>
      let '(id, _, _, ok) := ParseRelishTag tag in
      if ok then id :: taggedIDs fields' else taggedIDs fields'
  end.

(** ** internal/fixed.go: the other fixed-size TLVs

    Conversions between the integer types of Go, with the wrap-around
    written out: [uintN(x)] keeps the low N bits, [intN(x)] reads them in
    two's complement. *)
Definition to_uint16 (x : Z) : Z := x mod 2 ^ 16.
Definition to_uint64 (x : Z) : Z := x mod 2 ^ 64.
Definition to_int8 (x : Z) : Z := (x + 2 ^ 7) mod 2 ^ 8 - 2 ^ 7.
Definition to_int16 (x : Z) : Z := (x + 2 ^ 15) mod 2 ^ 16 - 2 ^ 15.
Definition to_int32 (x : Z) : Z := (x + 2 ^ 31) mod 2 ^ 32 - 2 ^ 31.
Definition to_int64 (x : Z) : Z := (x + 2 ^ 63) mod 2 ^ 64 - 2 ^ 63.

(** [binary.LittleEndian]: [PutUint16], [Uint16], [PutUint64], [Uint64]. *)
Definition PutUint16 (v : Z) : list byte :=
  [ to_byte v; to_byte (Z.shiftr v 8) ].

Definition Uint16 (b : list byte) : Z :=
  Z.lor (to_uint16 (nth 0 b 0)) (to_uint16 (Z.shiftl (nth 1 b 0) 8)).

Definition PutUint64 (v : Z) : list byte :=
  [ to_byte v; to_byte (Z.shiftr v 8);
    to_byte (Z.shiftr v 16); to_byte (Z.shiftr v 24);
    to_byte (Z.shiftr v 32); to_byte (Z.shiftr v 40);
    to_byte (Z.shiftr v 48); to_byte (Z.shiftr v 56) ].

Definition Uint64 (b : list byte) : Z :=
  Z.lor (Z.lor (Z.lor (Z.lor (Z.lor (Z.lor (Z.lor
    (to_uint64 (nth 0 b 0))
    (to_uint64 (Z.shiftl (nth 1 b 0) 8)))
    (to_uint64 (Z.shiftl (nth 2 b 0) 16)))
    (to_uint64 (Z.shiftl (nth 3 b 0) 24)))
    (to_uint64 (Z.shiftl (nth 4 b 0) 32)))
    (to_uint64 (Z.shiftl (nth 5 b 0) 40)))
    (to_uint64 (Z.shiftl (nth 6 b 0) 48)))
    (to_uint64 (Z.shiftl (nth 7 b 0) 56)).

Definition WriteNullTLV : result (list byte) := WriteType 0x00.

Definition ReadNullTLV (r : Reader) : result Reader :=
  '(t, r1) <- ReadType r ;;
  if negb (t =? 0x00) then Err (PlainError "unexpected type id for null")
  else Ok r1.

Definition WriteU8TLV (v : Z) : result (list byte) :=
  t <- WriteType 0x02 ;;
  Ok (t ++ [to_byte v]).

Definition ReadU8TLV (r : Reader) : result (Z * Reader) :=
  '(t, r1) <- ReadType r ;;
  if negb (t =? 0x02) then Err (PlainError "unexpected type id for u8")
  else
    '(b, r2) <- io_ReadFull 1 r1 ;;
    Ok (nth 0 b 0, r2).

Definition WriteU16TLV (v : Z) : result (list byte) :=
  t <- WriteType 0x03 ;;
  Ok (t ++ PutUint16 v).

Definition ReadU16TLV (r : Reader) : result (Z * Reader) :=
  '(t, r1) <- ReadType r ;;
  if negb (t =? 0x03) then Err (PlainError "unexpected type id for u16")
  else
    '(b, r2) <- io_ReadFull 2 r1 ;;
    Ok (Uint16 b, r2).

Definition WriteU64TLV (v : Z) : result (list byte) :=
  t <- WriteType 0x05 ;;
  Ok (t ++ PutUint64 v).

Definition ReadU64TLV (r : Reader) : result (Z * Reader) :=
  '(t, r1) <- ReadType r ;;
  if negb (t =? 0x05) then Err (PlainError "unexpected type id for u64")
  else
    '(b, r2) <- io_ReadFull 8 r1 ;;
    Ok (Uint64 b, r2).

(** A [[16]byte] is a list of sixteen bytes. *)
Definition WriteU128TLV (v : list byte) : result (list byte) :=
  t <- WriteType 0x06 ;;
  Ok (t ++ v).

Definition ReadU128TLV (r : Reader) : result (list byte * Reader) :=
  '(t, r1) <- ReadType r ;;
  if negb (t =? 0x06) then Err (PlainError "unexpected type id for u128")
  else
    '(b, r2) <- io_ReadFull 16 r1 ;;
    Ok (b, r2).

Definition WriteI8TLV (v : Z) : result (list byte) :=
  t <- WriteType 0x07 ;;
  Ok (t ++ [to_byte v]).

Definition ReadI8TLV (r : Reader) : result (Z * Reader) :=
  '(t, r1) <- ReadType r ;;
  if negb (t =? 0x07) then Err (PlainError "unexpected type id for i8")
  else
    '(b, r2) <- io_ReadFull 1 r1 ;;
    Ok (to_int8 (nth 0 b 0), r2).

Definition WriteI16TLV (v : Z) : result (list byte) :=
  t <- WriteType 0x08 ;;
  Ok (t ++ PutUint16 (to_uint16 v)).

Definition ReadI16TLV (r : Reader) : result (Z * Reader) :=
  '(t, r1) <- ReadType r ;;
  if negb (t =? 0x08) then Err (PlainError "unexpected type id for i16")
  else
    '(b, r2) <- io_ReadFull 2 r1 ;;
    Ok (to_int16 (Uint16 b), r2).

Definition WriteI32TLV (v : Z) : result (list byte) :=
  t <- WriteType 0x09 ;;
  Ok (t ++ PutUint32 (to_uint32 v)).

Definition ReadI32TLV (r : Reader) : result (Z * Reader) :=
  '(t, r1) <- ReadType r ;;
  if negb (t =? 0x09) then Err (PlainError "unexpected type id for i32")
  else
    '(b, r2) <- io_ReadFull 4 r1 ;;
    Ok (to_int32 (Uint32 b), r2).

Definition WriteI64TLV (v : Z) : result (list byte) :=
  t <- WriteType 0x0A ;;
  Ok (t ++ PutUint64 (to_uint64 v)).

Definition ReadI64TLV (r : Reader) : result (Z * Reader) :=
  '(t, r1) <- ReadType r ;;
  if negb (t =? 0x0A) then Err (PlainError "unexpected type id for i64")
  else
    '(b, r2) <- io_ReadFull 8 r1 ;;
    Ok (to_int64 (Uint64 b), r2).

Definition WriteI128TLV (v : list byte) : result (list byte) :=
  t <- WriteType 0x0B ;;
  Ok (t ++ v).

Definition ReadI128TLV (r : Reader) : result (list byte * Reader) :=
  '(t, r1) <- ReadType r ;;
  if negb (t =? 0x0B) then Err (PlainError "unexpected type id for i128")
  else
    '(b, r2) <- io_ReadFull 16 r1 ;;
    Ok (b, r2).

Definition WriteTimestampTLV (v : Z) : result (list byte) :=
  t <- WriteType 0x13 ;;
  Ok (t ++ PutUint64 v).

Definition ReadTimestampTLV (r : Reader) : result (Z * Reader) :=
  '(t, r1) <- ReadType r ;;
  if negb (t =? 0x13) then Err (PlainError "unexpected type id for timestamp")
  else
    '(b, r2) <- io_ReadFull 8 r1 ;;
    Ok (Uint64 b, r2).

(** ** internal/binary.go: the [ReadFull] loop over any reader

    An [io.Reader] is a state and a [Read] that, asked for [k] bytes,
    returns the bytes it stored, its error if any, and the next state.
    The loop runs while [off < len(buf)]; [need] is [len(buf) - off] and
    [acc] the bytes stored so far.  A round that does not return stores at
    least one byte, so [need] rounds are enough. *)
Section ReadFullLoop.
Variable S : Type.
Variable Read : S -> nat -> list byte * option error * S.

Fixpoint readFullLoop (rounds : nat) (s : S) (need : nat) (acc : list byte)
  : result (list byte * S) :=
  match need with
  | O => Ok (acc, s)
  | _ =>
      match rounds with
      | O => Err io_ErrUnexpectedEOF
      | Datatypes.S rounds' =>
          let '(chunk, err, s') := Read s need in
          let n := length chunk in
          let acc' := acc ++ chunk in
          match err with
          | Some e =>
              if (n =? need)%nat then Ok (acc', s') else Err e
          | None =>
              if (n =? 0)%nat then Err io_ErrUnexpectedEOF
              else readFullLoop rounds' s' (need - n) acc'
          end
      end
  end.

Definition ReadFullOver (s : S) (n : nat) : result (list byte * S) :=
  readFullLoop n s n [].
End ReadFullLoop.

(** [bytes.Reader.Read]: at the end of the slice it returns [(0, io.EOF)],
    otherwise it copies what fits and returns no error. *)
Definition bytesReaderRead (s : list byte) (k : nat)
  : list byte * option error * list byte :=
  match s with
  | [] => ([], Some io_EOF, [])
  | _ :: _ => (firstn k s, None, skipn k s)
  end.

(** ** encoder.go: the enum-like test

    The test that [encodeStruct] makes before it writes an enum: there are
    fields, all of them are optional, and exactly one is a non-nil
    pointer. *)
Definition enumLike (fields : list fieldInfo) : bool :=
  (0 <? len fields)
  && (len (filter optional fields) =? len fields)
  && (len (filter (fun fi => optional fi && isPresent (value fi)) fields) =? 1).

(** Struct types of the repository's reference tests. *)
Definition MultiField : list (StructTag * GoType) :=
  [(TagParts (Some 0) false false, TUint32);
   (TagParts (Some 1) false false, TString);
   (TagParts (Some 5) false false, TBool)].

Definition WithOption : list (StructTag * GoType) :=
  [(TagParts (Some 0) false false, TUint32);
   (TagParts (Some 1) true false, TPtr TUint32)].


(** ** internal/fixed.go: the float TLVs

    A float is given by its IEEE 754 bit pattern, which is what
    [math.Float32bits] and [math.Float64bits] return. *)
Definition WriteF32TLV (bits : Z) : result (list byte) :=
  t <- WriteType 0x0C ;;
  Ok (t ++ PutUint32 bits).

Definition WriteF64TLV (bits : Z) : result (list byte) :=
  t <- WriteType 0x0D ;;
  Ok (t ++ PutUint64 bits).

(** ** textrep/encode.go: the encoder of parsed documents

    The values that the parser builds and what [encodeValueTLV] and the
    encoding half of [EncodeBytes] write for them.  The lexer and the
    parser are not part of the model.  The text of an error made with
    [fmt.Errorf] is kept without its formatted arguments. *)
Module textrep.

Inductive rTypeKind :=
| tNull | tBool | tU8 | tU16 | tU32 | tU64 | tU128
| tI8 | tI16 | tI32 | tI64 | tI128 | tF32 | tF64
| tString | tTimestamp | tStruct | tEnum | tArray | tMap.

(** [rType]: the kind, the key type of a map, the element type of an array
    or the value type of a map. *)
Inductive rType :=
| mkRType (k : rTypeKind) (key elem : option rType).

(** The method [typeID] of [rType]; its [default] case is for kinds outside the
    enumeration. *)
Definition typeID (t : rType) : byte * bool :=
  let '(mkRType k _ _) := t in
  match k with
  | tNull => (0x00, true)
  | tBool => (0x01, true)
  | tU8 => (0x02, true)
  | tU16 => (0x03, true)
  | tU32 => (0x04, true)
  | tU64 => (0x05, true)
  | tU128 => (0x06, true)
  | tI8 => (0x07, true)
  | tI16 => (0x08, true)
  | tI32 => (0x09, true)
  | tI64 => (0x0A, true)
  | tI128 => (0x0B, true)
  | tF32 => (0x0C, true)
  | tF64 => (0x0D, true)
  | tString => (0x0E, true)
  | tArray => (0x0F, true)
  | tMap => (0x10, true)
  | tStruct => (0x11, true)
  | tEnum => (0x12, true)
  | tTimestamp => (0x13, true)
  end.

(** [field]: the id, the value, and whether the field is explicitly
    omitted (the value is then the nil interface). *)
Record field_of (V : Type) := mkField {
  id : Z;
  val : V;
  omit : bool
}.
Arguments mkField {V} id val omit.
Arguments id {V} f.
Arguments val {V} f.
Arguments omit {V} f.

(** The [value] interface and its implementations.  [valNil] is the nil
    interface, for which [encodeValueTLV] has no case.  The two halves of a
    [uint128] and of an [int128] are [uint64]s; a float is its bit
    pattern. *)
Inductive value :=
| valNil
| valNull
| valBool (v : bool)
| valStr (s : gostring)
| valTS (sec : Z)
| valInt (u_hi u_lo i_hi i_lo : Z) (signed : bool) (bits : Z)
| valFlt (v : Z) (f32 : bool)
| valEnum (variant : Z) (inner : value)
| valArr (elem : rType) (values : list value)
| valMap (key val : rType) (pairs : list (value * value))
| valStruct (fields : list (field_of value)).

Definition field := field_of value.

(** [putU64Le]. *)
Definition putU64Le (v : Z) : list byte :=
  [ to_byte v; to_byte (Z.shiftr v 8);
    to_byte (Z.shiftr v 16); to_byte (Z.shiftr v 24);
    to_byte (Z.shiftr v 32); to_byte (Z.shiftr v 40);
    to_byte (Z.shiftr v 48); to_byte (Z.shiftr v 56) ].

(** A field together with what [encodeValueTLV] returns for its value: the
    call is made when the record is built, so that the recursion follows
    the structure of the value; the result is only used where the source
    makes the call. *)
Record encField := mkEncField {
  eid : Z;
  eomit : bool;
  etlv : result (list byte)
}.

(** [sort.Slice(fields, func(i, j) { fields[i].id < fields[j].id })].  On a
    slice of at most twelve elements [sort.Slice] is an insertion sort, which
    keeps fields of equal id in source order; this is that order.  (On a
    longer slice [sort.Slice] promises no order among equal ids.)  A field
    is put before the first field whose id is not smaller, and the fields
    are inserted from the last one to the first. *)
Fixpoint insertByID (f : encField) (l : list encField) : list encField :=
  match l with
  | [] => [f]
  | x :: l' =>
      if eid x <? eid f then x :: insertByID f l'
      else f :: x :: l'
  end.

Fixpoint sortByID (l : list encField) : list encField :=
  match l with
  | [] => []
  | x :: l' => insertByID x (sortByID l')
  end.

(** The loop over the sorted fields of a nested struct. *)
Fixpoint writeNested (prev : Z) (fs : list encField) : result (list byte) :=
  match fs with
  | [] => Ok []
  | f :: fs' =>
      if eomit f then writeNested prev fs'
      else if eid f <=? prev then
        Err (PlainError
               "struct field ids not strictly increasing in nested struct")
      else
        t <- WriteType (to_byte (eid f)) ;;
        tlv <- etlv f ;;
        rest <- writeNested (eid f) fs' ;;
        Ok (t ++ tlv ++ rest)
  end.

(** The loop over the sorted fields of the top-level struct; [seen] is the
    set of the ids written so far. *)
Fixpoint writeTop (seen : list Z) (fs : list encField) : result (list byte) :=
  match fs with
  | [] => Ok []
  | f :: fs' =>
      if eomit f then writeTop seen fs'
      else if existsb (Z.eqb (eid f)) seen then
        Err (PlainError "duplicate field id")
      else if (eid f <? 0) || (0x80 <=? eid f) then
        Err (PlainError "field id out of range")
      else
        t <- WriteType (to_byte (eid f)) ;;
        tlv <- etlv f ;;
        rest <- writeTop (eid f :: seen) fs' ;;
        Ok (t ++ tlv ++ rest)
  end.

Definition bytes_eqb (a b : list byte) : bool :=
  if list_eq_dec Z.eq_dec a b then true else false.

(** The loop over the pairs of a map, given what [encodeValueTLV] returns
    for each key and value; [seen] is the set of the key payloads written
    so far. *)
Fixpoint writePairs (seen : list (list byte))
                    (ps : list (result (list byte) * result (list byte)))
  : result (list byte) :=
  match ps with
  | [] => Ok []
  | (ek, ev) :: ps' =>
      ktlv <- ek ;;
      vtlv <- ev ;;
      if len ktlv <? 1 then Err (PlainError "invalid key tlv")
      else
        let keyPayload := skipn 1 ktlv in
        if existsb (bytes_eqb keyPayload) seen then
          Err (PlainError "duplicate map key")
        else if len vtlv <? 1 then Err (PlainError "invalid value tlv")
        else
          rest <- writePairs (keyPayload :: seen) ps' ;;
          Ok (keyPayload ++ skipn 1 vtlv ++ rest)
  end.

(** The loop over the elements of an array: each element is written
    without its type byte. *)
Fixpoint writeElems (es : list (result (list byte))) : result (list byte) :=
  match es with
  | [] => Ok []
  | e :: es' =>
      tlv <- e ;;
      if len tlv <? 1 then Err (PlainError "invalid element tlv")
      else
        rest <- writeElems es' ;;
        Ok (skipn 1 tlv ++ rest)
  end.

Section Encode.
(** [float32(v)] on bit patterns: the bits of the [float32] nearest to the
    [float64] with the given bits. *)
Variable toFloat32 : Z -> Z.

Fixpoint encodeValueTLV (v : value) : result (list byte) :=
  match v with
  | valNil => Err (PlainError "unsupported value kind")
  | valNull => WriteNullTLV
  | valBool b => WriteBoolTLV b
  | valStr s => WriteStringTLV s
  | valTS sec => WriteTimestampTLV sec
  | valFlt x f32 =>
      if f32 then WriteF32TLV (toFloat32 x) else WriteF64TLV x
  | valInt u_hi u_lo i_hi i_lo signed bits =>
      if signed then
        match bits with
        | 8 => WriteI8TLV (to_int8 (to_int64 i_lo))
        | 16 => WriteI16TLV (to_int16 (to_int64 i_lo))
        | 32 => WriteI32TLV (to_int32 (to_int64 i_lo))
        | 64 => WriteI64TLV (to_int64 i_lo)
        | 128 => WriteI128TLV (putU64Le i_lo ++ putU64Le i_hi)
        | _ => Err (PlainError "invalid signed int bits")
        end
      else
        match bits with
        | 8 => WriteU8TLV (to_byte u_lo)
        | 16 => WriteU16TLV (to_uint16 u_lo)
        | 32 => WriteU32TLV (to_uint32 u_lo)
        | 64 => WriteU64TLV u_lo
        | 128 => WriteU128TLV (putU64Le u_lo ++ putU64Le u_hi)
        | _ => Err (PlainError "invalid unsigned int bits")
        end
  | valEnum variant inner =>
      WriteEnumTLV (to_byte variant) (encodeValueTLV inner)
  | valArr elem values =>
      let '(etid, ok) := typeID elem in
      if negb ok then Err (PlainError "unknown array element type")
      else
        WriteArrayTLV etid
          (writeElems
             ((fix enc (vs : list value) : list (result (list byte)) :=
                 match vs with
                 | [] => []
                 | ev :: vs' => encodeValueTLV ev :: enc vs'
                 end) values))
  | valMap key val pairs =>
      let '(ktid, ok) := typeID key in
      if negb ok then Err (PlainError "unknown map key type")
      else
        let '(vtid, ok) := typeID val in
        if negb ok then Err (PlainError "unknown map value type")
        else
          WriteMapTLV ktid vtid
            (writePairs []
               ((fix enc (ps : list (value * value))
                  : list (result (list byte) * result (list byte)) :=
                   match ps with
                   | [] => []
                   | (pk, pv) :: ps' =>
                       (encodeValueTLV pk, encodeValueTLV pv) :: enc ps'
                   end) pairs))
  | valStruct fields =>
      WriteStructTLV
        (writeNested (-1)
           (sortByID
              ((fix enc (fs : list (field_of value)) : list encField :=
                  match fs with
                  | [] => []
                  | f :: fs' =>
                      mkEncField (id f) (omit f) (encodeValueTLV (val f))
                      :: enc fs'
                  end) fields)))
  end.

(** The fields of a struct with their encoded values. *)
Definition encFields (fs : list field) : list encField :=
  map (fun f => mkEncField (id f) (omit f) (encodeValueTLV (val f))) fs.

(** [EncodeBytes], from the struct literal that the parser returned. *)
Definition EncodeBytes (st : list field) : result (list byte) :=
  WriteStructTLV (writeTop [] (sortByID (encFields st))).
End Encode.

(** The fields that the struct loops write, each with its id and the bytes
    of its encoded value. *)
Fixpoint writtenFields (fs : list encField) : list wireField :=
  match fs with
  | [] => []
  | f :: fs' =>
      if eomit f then writtenFields fs'
      else
        match etlv f with
        | Ok tlv => mkWireField (eid f) tlv tlv :: writtenFields fs'
        | Err _ => writtenFields fs'
        end
  end.

(** No field has a larger id than a field after it. *)
Fixpoint sortedByID (l : list encField) : Prop :=
  match l with
  | [] => True
  | x :: l' => Forall (fun y => eid x <= eid y) l' /\ sortedByID l'
  end.

End textrep.

(** A struct type of the repository's tests: field 1 is tagged ["-"]. *)
Definition WithSkip : list (StructTag * GoType) :=
  [(TagParts (Some 0) false false, TUint32); (TagDash, TString)].

(** ** Outcomes of the encoder

    Used to state which errors [Marshal] can return. *)

(** What an encoder call may return: bytes, the error of a string that is
    not valid UTF-8 (then [P] holds), or the error of a length above
    2^31 - 1. *)
Definition encodeOutcome (P : Prop) (r : result (list byte)) : Prop :=
  (exists b, r = Ok b)
  \/ (r = Err (PlainError "invalid utf-8") /\ P)
  \/ r = Err (PlainError "length out of range").

(** * Properties *)

(** ** Bit-level helpers *)

Lemma testbit_above (n k i : Z) :
  0 <= n < 2 ^ k -> 0 <= k <= i -> Z.testbit n i = false.
Proof.
  intros Hn Hk.
  destruct (Z.eq_dec n 0) as [->|Hz]; [apply Z.bits_0|].
  apply Z.bits_above_log2; [lia|].
  assert (Z.log2 n < k) by (apply Z.log2_lt_pow2; lia). lia.
Qed.

Lemma testbit_255 i : Z.testbit 255 i = (0 <=? i) && (i <? 8).
Proof. change 255 with (Z.ones 8). apply Z.testbit_ones; lia. Qed.

Lemma testbit_127 i : Z.testbit 127 i = (0 <=? i) && (i <? 7).
Proof. change 127 with (Z.ones 7). apply Z.testbit_ones; lia. Qed.

Lemma testbit_254 i : Z.testbit 254 i = (1 <=? i) && (i <? 8).
Proof.
  change 254 with (Z.shiftl (Z.ones 7) 1).
  destruct (Z.ltb_spec i 0).
  - rewrite Z.testbit_neg_r by lia.
    destruct (Z.leb_spec 1 i); [lia|reflexivity].
  - rewrite Z.shiftl_spec, Z.testbit_ones by lia.
    destruct (Z.leb_spec 0 (i - 1)), (Z.leb_spec 1 i),
             (Z.ltb_spec (i - 1) 7), (Z.ltb_spec i 8); simpl; try lia; reflexivity.
Qed.

Lemma testbit_1 i : Z.testbit 1 i = (i =? 0).
Proof.
  change 1 with (Z.ones 1).
  destruct (Z.ltb_spec i 0).
  - rewrite Z.testbit_neg_r by lia. destruct (Z.eqb_spec i 0); [lia|reflexivity].
  - rewrite Z.testbit_ones by lia.
    destruct (Z.leb_spec 0 i), (Z.ltb_spec i 1), (Z.eqb_spec i 0); simpl; try lia; reflexivity.
Qed.

Ltac bits_norm :=
  unfold to_byte, to_uint32;
  change 256 with (2 ^ 8);
  repeat first
    [ rewrite Z.lor_spec
    | rewrite Z.land_spec
    | rewrite testbit_255
    | rewrite testbit_254
    | rewrite testbit_127
    | rewrite testbit_1
    | match goal with
      | |- context [Z.testbit (?a mod 2 ^ ?k) ?m] =>
          rewrite (Z.testbit_mod_pow2 a k m) by lia
      | |- context [Z.testbit (Z.shiftl ?a ?k) ?m] =>
          rewrite (Z.shiftl_spec a k m) by lia
      | |- context [Z.testbit (Z.shiftr ?a ?k) ?m] =>
          rewrite (Z.shiftr_spec a k m) by lia
      | |- context [Z.testbit ?a ?m] =>
          rewrite (Z.testbit_neg_r a m) by lia
      end ].

Ltac bits_cases :=
  repeat match goal with
  | |- context [ (?a <? ?b) ] =>
      first [ rewrite (proj2 (Z.ltb_lt a b)) by lia
            | rewrite (proj2 (Z.ltb_ge a b)) by lia
            | destruct (Z.ltb_spec a b) ]
  | |- context [ (?a <=? ?b) ] =>
      first [ rewrite (proj2 (Z.leb_le a b)) by lia
            | rewrite (proj2 (Z.leb_gt a b)) by lia
            | destruct (Z.leb_spec a b) ]
  | |- context [ (?a =? ?b) ] =>
      first [ rewrite (proj2 (Z.eqb_eq a b)) by lia
            | rewrite (proj2 (Z.eqb_neq a b)) by lia
            | destruct (Z.eqb_spec a b) ]
  end.

Ltac bits_close n k :=
  cbn [andb orb];
  repeat rewrite Bool.andb_true_r; repeat rewrite Bool.andb_false_r;
  repeat rewrite Bool.orb_false_r; repeat rewrite Bool.orb_false_l;
  cbn [andb orb];
  try lia;
  try reflexivity;
  try (f_equal; lia);
  try (rewrite (testbit_above n k) by lia; reflexivity);
  try (symmetry; apply (testbit_above n k); lia);
  try (rewrite Z.testbit_neg_r by lia; reflexivity).

Ltac bits_solve n k :=
  apply Z.bits_inj'; intros ?i ?Hi;
  repeat (progress (bits_norm; bits_cases));
  bits_close n k.

Lemma EncodeLen_short_byte n :
  0 <= n <= 127 -> to_byte (Z.land (Z.shiftl n 1) 254) = 2 * n.
Proof.
  intros Hn.
  replace (2 * n) with (Z.shiftl n 1) by (rewrite Z.shiftl_mul_pow2; lia).
  bits_solve n 7.
Qed.

Lemma DecodeLen_long_value n :
  128 <= n <= MaxLen ->
  let u := to_uint32 n in
  let b0 := to_byte (Z.lor (to_uint32 (Z.shiftl (Z.land u 127) 1)) 1) in
  let b1 := to_byte (Z.land (Z.shiftr u 7) 255) in
  let b2 := to_byte (Z.land (Z.shiftr u 15) 255) in
  let b3 := to_byte (Z.land (Z.shiftr u 23) 255) in
  Z.lor (Z.lor (Z.lor (to_uint32 (Z.shiftr b0 1)) (to_uint32 (Z.shiftl b1 7)))
               (to_uint32 (Z.shiftl b2 15)))
        (to_uint32 (Z.shiftl b3 23)) = n.
Proof.
  unfold MaxLen. intros Hn. cbv zeta.
  bits_solve n 31.
Qed.

(** ** The length codec *)

Lemma SizeOfLen_short n : 0 <= n <= 127 -> SizeOfLen n = 1.
Proof.
  intros H. unfold SizeOfLen, MaxLen.
  destruct (Z.ltb_spec n 0); [lia|].
  destruct (Z.ltb_spec (2 ^ 31 - 1) n); [lia|]. cbn [orb].
  destruct (Z.leb_spec n 127); [reflexivity|lia].
Qed.

Lemma SizeOfLen_long n : 128 <= n <= MaxLen -> SizeOfLen n = 4.
Proof.
  unfold SizeOfLen, MaxLen. intros H.
  destruct (Z.ltb_spec n 0); [lia|].
  destruct (Z.ltb_spec (2 ^ 31 - 1) n); [lia|]. cbn [orb].
  destruct (Z.leb_spec n 127); [lia|reflexivity].
Qed.

Lemma DecodeLen_EncodeLen_short n :
  0 <= n <= 127 -> DecodeLen (EncodeLen n) = (n, 1).
Proof.
  intros H. unfold EncodeLen.
  destruct (Z.leb_spec n 127); [|lia].
  rewrite EncodeLen_short_byte by lia. unfold DecodeLen.
  replace (Z.land (2 * n) 1) with 0.
  - cbn [Z.eqb]. f_equal.
    rewrite Z.shiftr_div_pow2 by lia. change (2 ^ 1) with 2.
    rewrite Z.mul_comm. apply Z.div_mul. lia.
  - change 1 with (Z.ones 1) at 1. rewrite Z.land_ones by lia.
    change (2 ^ 1) with 2. rewrite Z.mul_comm. symmetry. apply Z.mod_mul. lia.
Qed.

Lemma EncodeLen_long_tag n :
  Z.land (to_byte (Z.lor (to_uint32 (Z.shiftl (Z.land (to_uint32 n) 127) 1)) 1)) 1 = 1.
Proof.
  apply Z.bits_inj'. intros i Hi.
  bits_norm. bits_cases; cbn [andb orb];
    rewrite ?Bool.andb_false_r, ?Bool.orb_true_r; reflexivity.
Qed.

Lemma DecodeLen_EncodeLen_long n :
  128 <= n <= MaxLen -> DecodeLen (EncodeLen n) = (n, 4).
Proof.
  intros H. unfold EncodeLen.
  destruct (Z.leb_spec n 127); [lia|].
  unfold DecodeLen. rewrite EncodeLen_long_tag. cbn [Z.eqb].
  rewrite (DecodeLen_long_value n H).
  unfold MaxLen in *.
  destruct (Z.ltb_spec n 0); [lia|].
  destruct (Z.ltb_spec (2 ^ 31 - 1) n); [lia|]. reflexivity.
Qed.

Lemma EncodeLen_length n :
  len (EncodeLen n) = if n <=? 127 then 1 else 4.
Proof. unfold EncodeLen. destruct (n <=? 127); reflexivity. Qed.

Lemma DecodeLen_one_byte_long b :
  Z.land b 1 = 1 -> DecodeLen [b] = (-1, 0).
Proof. intros H. unfold DecodeLen. rewrite H. reflexivity. Qed.

(** C5. For every n in [0, 2^31 - 1], decoding the bytes that [EncodeLen]
    produces gives back (n, SizeOfLen n); [EncodeLen] uses exactly one byte
    iff n <= 127 and exactly four bytes otherwise; and [DecodeLen] of a
    one-byte input whose low bit is 1 fails with (-1, 0). *)
Theorem length_codec_laws (n : Z) (Hn : 0 <= n <= MaxLen) :
  DecodeLen (EncodeLen n) = (n, SizeOfLen n)
  /\ (len (EncodeLen n) = 1 <-> n <= 127)
  /\ (127 < n -> len (EncodeLen n) = 4)
  /\ (forall b, is_byte b -> Z.land b 1 = 1 -> DecodeLen [b] = (-1, 0)).
Proof.
  repeat split.
  - destruct (Z.le_gt_cases n 127).
    + rewrite SizeOfLen_short by lia. apply DecodeLen_EncodeLen_short. lia.
    + rewrite SizeOfLen_long by lia. apply DecodeLen_EncodeLen_long. lia.
  - rewrite EncodeLen_length. destruct (Z.leb_spec n 127); lia.
  - rewrite EncodeLen_length. destruct (Z.leb_spec n 127); lia.
  - rewrite EncodeLen_length. destruct (Z.leb_spec n 127); lia.
  - intros b _ Hb. apply DecodeLen_one_byte_long, Hb.
Qed.

Lemma length_codec_laws_witness :
  0 <= 300 <= MaxLen /\
  DecodeLen (EncodeLen 300) = (300, SizeOfLen 300).
Proof.
  assert (H : 0 <= 300 <= MaxLen) by (unfold MaxLen; lia).
  split; [exact H|]. exact (proj1 (length_codec_laws 300 H)).
Defined.

(** ** Readers, type bytes and length prefixes *)

Lemma len_app {A} (a b : list A) : len (a ++ b) = len a + len b.
Proof. unfold len. rewrite length_app. lia. Qed.

Lemma len_cons {A} (x : A) (l : list A) : len (x :: l) = 1 + len l.
Proof. unfold len. cbn [length]. lia. Qed.

Lemma len_nonneg {A} (l : list A) : 0 <= len l.
Proof. unfold len. lia. Qed.

Lemma io_ReadFull_app n a rest :
  len a = n -> io_ReadFull n (a ++ rest) = Ok (a, rest).
Proof.
  unfold len, io_ReadFull. intros <-. rewrite Nat2Z.id.
  destruct (Nat.leb_spec (length a) (length (a ++ rest))) as [_|H].
  - rewrite firstn_app, Nat.sub_diag, firstn_all, firstn_O, app_nil_r.
    rewrite skipn_app, Nat.sub_diag, skipn_all. reflexivity.
  - rewrite length_app in H. lia.
Qed.

Lemma ReadFull_app n a rest :
  len a = n -> ReadFull n (a ++ rest) = Ok (a, rest).
Proof.
  unfold len, ReadFull. intros <-. rewrite Nat2Z.id.
  destruct (Nat.leb_spec (length a) (length (a ++ rest))) as [_|H].
  - rewrite firstn_app, Nat.sub_diag, firstn_all, firstn_O, app_nil_r.
    rewrite skipn_app, Nat.sub_diag, skipn_all. reflexivity.
  - rewrite length_app in H. lia.
Qed.

Lemma ReadFull_inv n r buf r' :
  ReadFull n r = Ok (buf, r') ->
  r = buf ++ r' /\ length buf = Z.to_nat n.
Proof.
  unfold ReadFull.
  destruct (Nat.leb_spec (Z.to_nat n) (length r)) as [H|H]; [|discriminate].
  intros E. injection E as <- <-. split.
  - symmetry. apply firstn_skipn.
  - apply firstn_length_le, H.
Qed.

Lemma ReadType_cons t r :
  Z.land t 0x80 = 0 -> ReadType (t :: r) = Ok (t, r).
Proof.
  intros H. unfold ReadType.
  change (t :: r) with ([t] ++ r). rewrite io_ReadFull_app by reflexivity.
  cbn [bind nth]. rewrite H. reflexivity.
Qed.

Lemma ReadType_reserved t r :
  Z.land t 0x80 <> 0 -> ReadType (t :: r) = Err errInvalidTypeID.
Proof.
  intros H. unfold ReadType.
  change (t :: r) with ([t] ++ r). rewrite io_ReadFull_app by reflexivity.
  cbn [bind nth]. destruct (Z.eqb_spec (Z.land t 128) 0); [contradiction|reflexivity].
Qed.

Lemma ReadType_inv r t r' :
  ReadType r = Ok (t, r') -> r = t :: r' /\ Z.land t 0x80 = 0.
Proof.
  destruct r as [|b r0].
  - discriminate.
  - destruct (Z.eq_dec (Z.land b 0x80) 0) as [H|H].
    + rewrite ReadType_cons by exact H. intros E. injection E as <- <-. auto.
    + rewrite ReadType_reserved by exact H. discriminate.
Qed.

Lemma WriteType_ok t : Z.land t 0x80 = 0 -> WriteType t = Ok [t].
Proof. intros H. unfold WriteType. rewrite H. reflexivity. Qed.

Lemma WriteType_inv t b : WriteType t = Ok b -> b = [t] /\ Z.land t 0x80 = 0.
Proof.
  unfold WriteType. destruct (Z.eqb_spec (Z.land t 128) 0) as [H|H]; cbn [negb].
  - intros E. injection E as <-. auto.
  - discriminate.
Qed.

Lemma WriteLen_ok n : 0 <= n <= MaxLen -> WriteLen n = Ok (EncodeLen n).
Proof.
  intros H. unfold WriteLen.
  destruct (Z.le_gt_cases n 127).
  - rewrite SizeOfLen_short by lia. reflexivity.
  - rewrite SizeOfLen_long by lia. reflexivity.
Qed.

Lemma WriteLen_inv n b :
  WriteLen n = Ok b -> b = EncodeLen n /\ 0 <= n <= MaxLen.
Proof.
  unfold WriteLen, SizeOfLen.
  destruct (Z.ltb_spec n 0); cbn [orb]; [discriminate|].
  destruct (Z.ltb_spec MaxLen n); [discriminate|].
  destruct (n <=? 127); cbn; intros E; injection E as <-; split; auto; lia.
Qed.

Lemma ReadLen_EncodeLen n rest :
  0 <= n <= MaxLen ->
  ReadLen (EncodeLen n ++ rest) = Ok (n, SizeOfLen n, rest).
Proof.
  intros H. destruct (Z.le_gt_cases n 127) as [Hs|Hl].
  - pose proof (DecodeLen_EncodeLen_short n (conj (proj1 H) Hs)) as D.
    rewrite SizeOfLen_short by lia.
    unfold EncodeLen in *. destruct (Z.leb_spec n 127); [|lia].
    unfold ReadLen. cbn [app].
    match goal with |- context [io_ReadFull 1 (?b :: rest)] =>
      change (b :: rest) with ([b] ++ rest) end.
    rewrite io_ReadFull_app by reflexivity. cbn [bind nth].
    rewrite EncodeLen_short_byte in * by lia.
    replace (Z.land (2 * n) 1) with 0.
    + cbn [Z.eqb]. rewrite D. reflexivity.
    + change 1 with (Z.ones 1) at 1. rewrite Z.land_ones by lia.
      change (2 ^ 1) with 2. rewrite Z.mul_comm. symmetry. apply Z.mod_mul. lia.
  - assert (Hn : 128 <= n <= MaxLen) by lia.
    pose proof (DecodeLen_EncodeLen_long n Hn) as D.
    rewrite SizeOfLen_long by lia.
    unfold EncodeLen in *. destruct (Z.leb_spec n 127); [lia|].
    unfold ReadLen. cbn [app].
    match goal with |- context [io_ReadFull 1 (?b :: ?r)] =>
      change (b :: r) with ([b] ++ r) end.
    rewrite io_ReadFull_app by reflexivity. cbn [bind nth].
    rewrite EncodeLen_long_tag. cbn [Z.eqb].
    match goal with |- context [io_ReadFull 3 (?b1 :: ?b2 :: ?b3 :: rest)] =>
      change (b1 :: b2 :: b3 :: rest) with ([b1; b2; b3] ++ rest) end.
    rewrite io_ReadFull_app by reflexivity. cbn [bind].
    rewrite D. unfold MaxLen in Hn.
    destruct (Z.ltb_spec n 0); [lia|reflexivity].
Qed.

(** ** Decoder.SkipValue *)

(** A complete TLV, as the decoder's own TLV reader delimits it. *)
Definition completeTLV (t : list byte) : Prop :=
  forall rest, readTLVBytes (t ++ rest) = Ok (t, rest).

Lemma completeTLV_null : completeTLV [0x00].
Proof. intros rest. reflexivity. Qed.

Lemma completeTLV_nonempty t : completeTLV t -> t <> [].
Proof. intros H ->. specialize (H []). discriminate H. Qed.

Lemma app_not_rest {A} (t rest : list A) : t <> [] -> t ++ rest <> rest.
Proof.
  intros Ht E. apply Ht. apply (f_equal (@length A)) in E.
  rewrite length_app in E. destruct t; [reflexivity|cbn in E; lia].
Qed.

(** C8, as stated, fails: with the one-byte Null TLV at the cursor,
    [SkipValue] does not return success, let alone consume the TLV and
    advance the offset by its length. *)
Lemma SkipValue_does_not_skip :
  ~ (forall d t rest,
        completeTLV t -> r d = t ++ rest ->
        exists d',
          SkipValue d = (None, d')
          /\ r d' = rest /\ offset d' = offset d + len t).
Proof.
  intros H.
  destruct (H (mkDecoder [0x00] 0) [0x00] [] completeTLV_null eq_refl)
    as [d' [E _]].
  discriminate E.
Qed.

(** C8 (amended). [Decoder.SkipValue] is a stub: whatever the decoder holds,
    it returns the not-implemented error and consumes nothing, the reader
    and the offset being left as they were.  So with a complete TLV at the
    cursor, the TLV is still there after the call: the cursor is never
    moved past it. *)
Theorem SkipValue_not_implemented (d : Decoder) :
  fst (SkipValue d)
  = Some (RelishError ErrNotImplementedKind "not implemented")
  /\ r (snd (SkipValue d)) = r d
  /\ offset (snd (SkipValue d)) = offset d
  /\ (forall t rest,
        completeTLV t -> r d = t ++ rest ->
        readTLVBytes (r (snd (SkipValue d))) = Ok (t, rest)
        /\ r (snd (SkipValue d)) <> rest).
Proof.
  split; [reflexivity|]. split; [reflexivity|]. split; [reflexivity|].
  intros t rest Hc Hr. cbn [SkipValue snd]. rewrite Hr. split.
  - apply Hc.
  - apply app_not_rest, completeTLV_nonempty, Hc.
Qed.

(** ** Map framing *)

Lemma ReadMapTLV_WriteMapTLV kt vt pairs b rest :
  WriteMapTLV kt vt (Ok pairs) = Ok b ->
  ReadMapTLV (b ++ rest) = Ok (kt, vt, pairs, rest).
Proof.
  unfold WriteMapTLV.
  destruct (Z.eqb_spec (Z.land kt 128) 0) as [Hk|]; [|discriminate].
  destruct (Z.eqb_spec (Z.land vt 128) 0) as [Hv|]; [|discriminate].
  cbn [negb orb]. rewrite !WriteType_ok by assumption.
  rewrite (WriteType_ok 16) by reflexivity. cbn [bind].
  match goal with |- context [WriteLen ?n] =>
    destruct (WriteLen n) as [l|] eqn:El; [|discriminate] end.
  apply WriteLen_inv in El. destruct El as [-> Hl].
  cbn [bind]. intros E. injection E as <-.
  cbn [app] in *. unfold ReadMapTLV.
  rewrite ReadType_cons by reflexivity. cbn [bind Z.eqb negb Pos.eqb].
  rewrite <- app_assoc. rewrite ReadLen_EncodeLen by exact Hl. cbn [bind].
  rewrite !len_cons in *. pose proof (len_nonneg pairs).
  destruct (Z.ltb_spec (1 + (1 + len pairs)) 2); [lia|].
  rewrite ReadFull_app by (rewrite !len_cons; reflexivity).
  cbn [bind nth skipn]. rewrite Hk, Hv. reflexivity.
Qed.

Lemma WriteMapTLV_ok kt vt pairs :
  Z.land kt 0x80 = 0 -> Z.land vt 0x80 = 0 -> 2 + len pairs <= MaxLen ->
  WriteMapTLV kt vt (Ok pairs)
  = Ok (0x10 :: EncodeLen (2 + len pairs) ++ kt :: vt :: pairs).
Proof.
  intros Hk Hv Hl. unfold WriteMapTLV. rewrite Hk, Hv. cbn [Z.eqb negb orb].
  rewrite !WriteType_ok by assumption.
  rewrite (WriteType_ok 16) by reflexivity. cbn [bind app].
  rewrite !len_cons. replace (1 + (1 + len pairs)) with (2 + len pairs) by lia.
  pose proof (len_nonneg pairs).
  rewrite WriteLen_ok by lia. reflexivity.
Qed.

Definition isRelishError (e : error) : bool :=
  match e with RelishError _ _ => true | _ => false end.

Lemma io_ReadFull_err n rd e :
  io_ReadFull n rd = Err e -> isRelishError e = false.
Proof.
  unfold io_ReadFull. destruct (Z.to_nat n <=? length rd)%nat; [discriminate|].
  destruct rd; intros E; injection E as <-; reflexivity.
Qed.

Lemma ReadFull_err n rd e :
  ReadFull n rd = Err e -> isRelishError e = false.
Proof.
  unfold ReadFull. destruct (Z.to_nat n <=? length rd)%nat; [discriminate|].
  intros E; injection E as <-; reflexivity.
Qed.

Lemma ReadType_err rd e :
  ReadType rd = Err e -> isRelishError e = false.
Proof.
  unfold ReadType. destruct (io_ReadFull 1 rd) as [[b r1]|e'] eqn:E1; cbn [bind].
  - destruct (negb (Z.land (nth 0 b 0) 128 =? 0)); [|discriminate].
    intros E; injection E as <-; reflexivity.
  - intros E; injection E as <-. eapply io_ReadFull_err, E1.
Qed.

Lemma ReadLen_err rd e :
  ReadLen rd = Err e -> isRelishError e = false.
Proof.
  unfold ReadLen. destruct (io_ReadFull 1 rd) as [[b r1]|e'] eqn:E1; cbn [bind].
  2:{ intros E; injection E as <-. eapply io_ReadFull_err, E1. }
  destruct (Z.land (nth 0 b 0) 1 =? 0).
  - destruct (DecodeLen [nth 0 b 0]); discriminate.
  - destruct (io_ReadFull 3 r1) as [[b' r2]|e'] eqn:E2; cbn [bind].
    + destruct (DecodeLen (nth 0 b 0 :: b')) as [m ?].
      destruct (m <? 0); [|discriminate].
      intros E; injection E as <-; reflexivity.
    + intros E; injection E as <-. eapply io_ReadFull_err, E2.
Qed.

Lemma ReadMapTLV_no_relish_error rd k d :
  ReadMapTLV rd <> Err (RelishError k d).
Proof.
  assert (H : forall e, ReadMapTLV rd = Err e -> isRelishError e = false).
  { intros e. unfold ReadMapTLV.
    destruct (ReadType rd) as [[t r1]|e'] eqn:Et; cbn [bind].
    2:{ intros E; injection E as <-. eapply ReadType_err, Et. }
    destruct (negb (t =? 16)).
    { intros E; injection E as <-; reflexivity. }
    destruct (ReadLen r1) as [[[n u] r2]|e'] eqn:El; cbn [bind].
    2:{ intros E; injection E as <-. eapply ReadLen_err, El. }
    destruct (n <? 2).
    { intros E; injection E as <-; reflexivity. }
    destruct (ReadFull n r2) as [[buf r3]|e'] eqn:Ef; cbn [bind].
    2:{ intros E; injection E as <-. eapply ReadFull_err, Ef. }
    match goal with |- context [if ?c then _ else _] => destruct c end.
    - intros E; injection E as <-; reflexivity.
    - discriminate. }
  intros E. apply H in E. discriminate E.
Qed.

(** A u32-to-u32 map payload in which the key 1 occurs twice. *)
Definition dupPairs : list byte :=
  [1; 0; 0; 0;  2; 0; 0; 0;  1; 0; 0; 0;  4; 0; 0; 0].

(** C6, as stated, fails: a map whose two keys have byte-equal payloads is
    encoded without error, and its wire bytes are decoded without error. *)
Lemma map_duplicate_keys_accepted :
  WriteMapTLV 0x04 0x04 (Ok dupPairs) = Ok (0x10 :: 0x24 :: 0x04 :: 0x04 :: dupPairs)
  /\ ReadMapTLV (0x10 :: 0x24 :: 0x04 :: 0x04 :: dupPairs)
     = Ok (0x04, 0x04, dupPairs, []).
Proof. split; reflexivity. Qed.

(** C6 (amended). [WriteMapTLV] and [ReadMapTLV] frame a map without
    looking at its pairs: for key and value type bytes with the top bit
    clear and any staged pair payload that fits the length range, duplicate
    keys or not, the write succeeds and the read gives back the two type
    bytes and the same payload; and [ReadMapTLV] never returns a structured
    error, so never [DuplicateMapKey]. *)
Theorem map_framing_ignores_duplicates kt vt pairs rest
  (Hk : Z.land kt 0x80 = 0) (Hv : Z.land vt 0x80 = 0)
  (Hl : 2 + len pairs <= MaxLen) :
  (exists b, WriteMapTLV kt vt (Ok pairs) = Ok b
             /\ ReadMapTLV (b ++ rest) = Ok (kt, vt, pairs, rest))
  /\ (forall rd k d, ReadMapTLV rd <> Err (RelishError k d)).
Proof.
  split.
  - eexists. split.
    + apply WriteMapTLV_ok; assumption.
    + eapply ReadMapTLV_WriteMapTLV. apply WriteMapTLV_ok; assumption.
  - intros. apply ReadMapTLV_no_relish_error.
Qed.

Lemma map_framing_ignores_duplicates_witness :
  exists b, WriteMapTLV 0x04 0x04 (Ok dupPairs) = Ok b
            /\ ReadMapTLV (b ++ []) = Ok (0x04, 0x04, dupPairs, []).
Proof.
  refine (proj1 (map_framing_ignores_duplicates 0x04 0x04 dupPairs [] _ _ _)).
  - reflexivity.
  - reflexivity.
  - unfold MaxLen. vm_compute. discriminate.
Defined.

(** ** The TLV reader used to skip struct fields *)

Lemma readTLVBytes_reserved b rest :
  Z.land b 0x80 <> 0 -> readTLVBytes (b :: rest) = Err errInvalidTypeID.
Proof.
  intros H. unfold readTLVBytes. rewrite ReadType_reserved by exact H.
  reflexivity.
Qed.

Lemma readTLVBytes_fixed t n content rest :
  Z.land t 0x80 = 0 -> FixedSize t = (n, true) -> len content = n ->
  readTLVBytes (t :: content ++ rest) = Ok (t :: content, rest).
Proof.
  intros Ht Hf Hc. unfold readTLVBytes.
  rewrite ReadType_cons by exact Ht. cbn [bind]. rewrite Hf.
  destruct (Z.eqb_spec n 0) as [->|Hn].
  - destruct content; [reflexivity|]. rewrite len_cons in Hc.
    pose proof (len_nonneg content). lia.
  - rewrite ReadFull_app by exact Hc. reflexivity.
Qed.

Lemma hdr_canonical n :
  0 <= n <= MaxLen ->
  firstn (Z.to_nat (SizeOfLen n))
         (EncodeLen n ++ repeat 0 (4 - length (EncodeLen n)))
  = EncodeLen n.
Proof.
  intros H. destruct (Z.le_gt_cases n 127).
  - rewrite SizeOfLen_short by lia. unfold EncodeLen.
    destruct (Z.leb_spec n 127); [reflexivity|lia].
  - rewrite SizeOfLen_long by lia. unfold EncodeLen.
    destruct (Z.leb_spec n 127); [lia|reflexivity].
Qed.

Lemma readTLVBytes_varsize t n content rest :
  Z.land t 0x80 = 0 -> snd (FixedSize t) = false ->
  0 <= n <= MaxLen -> len content = n ->
  readTLVBytes (t :: EncodeLen n ++ content ++ rest)
  = Ok (t :: EncodeLen n ++ content, rest).
Proof.
  intros Ht Hf Hn Hc. unfold readTLVBytes.
  rewrite ReadType_cons by exact Ht. cbn [bind].
  destruct (FixedSize t) as [m ok]. cbn [snd] in Hf. subst ok.
  rewrite ReadLen_EncodeLen by exact Hn. cbn [bind].
  rewrite hdr_canonical by exact Hn.
  destruct (Z.ltb_spec 0 n).
  - rewrite ReadFull_app by exact Hc. reflexivity.
  - destruct content; [rewrite app_nil_r; reflexivity|].
    rewrite len_cons in Hc. pose proof (len_nonneg content). lia.
Qed.

(** Whatever form the length prefix has on the wire, the reader consumes
    the type byte, the prefix and exactly the declared number of bytes. *)
Lemma readTLVBytes_consumes t r1 n used content rest :
  Z.land t 0x80 = 0 -> snd (FixedSize t) = false ->
  ReadLen r1 = Ok (n, used, content ++ rest) -> len content = n ->
  exists hdr, readTLVBytes (t :: r1) = Ok (hdr ++ content, rest).
Proof.
  intros Ht Hf Hl Hc. unfold readTLVBytes.
  rewrite ReadType_cons by exact Ht. cbn [bind].
  destruct (FixedSize t) as [m ok]. cbn [snd] in Hf. subst ok.
  rewrite Hl. cbn [bind].
  destruct (Z.ltb_spec 0 n).
  - rewrite ReadFull_app by exact Hc. eexists. reflexivity.
  - pose proof (len_nonneg content).
    destruct content; [|rewrite len_cons in Hc; pose proof (len_nonneg content); lia].
    eexists. rewrite app_nil_r. reflexivity.
Qed.



(** ** Enum decoding *)

Lemma decodeElem_struct fields cur data :
  decodeElem (TStruct fields) cur (0x11 :: data)
  = '(dst', r2) <- decodeStructInto fields (fieldDecoders fields)
                     (match cur with VStruct fs => fs | _ => [] end) data ;;
    Ok (VStruct dst', r2).
Proof.
  cbn [decodeElem]. rewrite ReadType_cons by reflexivity. reflexivity.
Qed.

Lemma decodeElem_enum fields cur data :
  decodeElem (TStruct fields) cur (0x12 :: data)
  = '(dst', r2) <- decodeEnumInto fields (variantDecoders fields)
                     (match cur with VStruct fs => fs | _ => [] end) data ;;
    Ok (VStruct dst', r2).
Proof.
  cbn [decodeElem]. rewrite ReadType_cons by reflexivity. reflexivity.
Qed.

(** C4. Once the variant's inner TLV is decoded, the enum decodes only if no
    byte of the declared length is left: with bytes left the result is the
    EnumLengthMismatch error, and a successful decode implies that the inner
    decoder left nothing. *)
Theorem enum_exact_length fields dst data :
  (forall n used r1 buf r2 idx x left,
      ReadLen data = Ok (n, used, r1) -> 1 <= n ->
      ReadFull n r1 = Ok (buf, r2) ->
      findVariant fields 0 (nth 0 buf 0) = Some idx ->
      nth idx (variantDecoders fields) noVariantDecoder
          (nth idx dst (VPtr None)) (skipn 1 buf) = Ok (x, left) ->
      decodeElem (TStruct fields) (VStruct dst) (0x12 :: data)
      = match left with
        | [] => Ok (VStruct (setField idx x dst), r2)
        | _ :: _ => Err (RelishError ErrEnumLengthMismatch
                                     "variant did not consume full length")
        end)
  /\ (forall v rest,
        decodeElem (TStruct fields) (VStruct dst) (0x12 :: data) = Ok (v, rest) ->
        exists n used r1 buf idx x,
          ReadLen data = Ok (n, used, r1) /\ 1 <= n /\
          ReadFull n r1 = Ok (buf, rest) /\
          findVariant fields 0 (nth 0 buf 0) = Some idx /\
          nth idx (variantDecoders fields) noVariantDecoder
              (nth idx dst (VPtr None)) (skipn 1 buf) = Ok (x, []) /\
          v = VStruct (setField idx x dst)).
Proof.
  split.
  - intros n used r1 buf r2 idx x left Hl Hn Hf Hv Hd.
    rewrite decodeElem_enum. unfold decodeEnumInto.
    rewrite Hl. cbn [bind].
    destruct (Z.ltb_spec n 1); [lia|].
    rewrite Hf. cbn [bind]. rewrite Hv.
    fold noVariantDecoder. rewrite Hd. cbn [bind].
    destruct left; reflexivity.
  - intros v rest. rewrite decodeElem_enum. unfold decodeEnumInto.
    destruct (ReadLen data) as [[[n used] r1]|] eqn:Hl; [|discriminate].
    cbn [bind]. destruct (Z.ltb_spec n 1); [discriminate|].
    destruct (ReadFull n r1) as [[buf r2]|] eqn:Hf; [|discriminate].
    cbn [bind].
    destruct (findVariant fields 0 (nth 0 buf 0)) as [idx|] eqn:Hv;
      [|discriminate].
    fold noVariantDecoder.
    destruct (nth idx (variantDecoders fields) noVariantDecoder
                  (nth idx dst (VPtr None)) (skipn 1 buf))
      as [[x left]|] eqn:Hd; [|discriminate].
    cbn [bind]. destruct left as [|b left]; [|discriminate].
    cbn. intros E. injection E as <- <-.
    exists n, used, r1, buf, idx, x. repeat split; auto.
Qed.

Definition OneVariant : list (StructTag * GoType) :=
  [(TagParts (Some 0) true false, TPtr TUint32)].

(** The scenario of the specification: [12 0E | 00 04 2A 00 00 00 FF]. *)
Lemma enum_exact_length_witness :
  decodeElem (TStruct OneVariant) (VStruct [VPtr None])
             (0x12 :: [0x0E; 0x00; 0x04; 0x2A; 0; 0; 0; 0xFF])
  = Err (RelishError ErrEnumLengthMismatch
                     "variant did not consume full length").
Proof.
  refine (proj1 (enum_exact_length OneVariant [VPtr None]
                   [0x0E; 0x00; 0x04; 0x2A; 0; 0; 0; 0xFF])
            7 1 [0x00; 0x04; 0x2A; 0; 0; 0; 0xFF]
            [0x00; 0x04; 0x2A; 0; 0; 0; 0xFF] [] 0%nat
            (VPtr (Some (VUint32 42))) [0xFF] _ _ _ _ _).
  - reflexivity.
  - lia.
  - reflexivity.
  - reflexivity.
  - reflexivity.
Defined.

(** ** The struct encoder *)

Lemma encodeValue_struct fields fs :
  encodeValue (TStruct fields) (VStruct fs)
  = encodeFields (collectFields encodeValue fields fs).
Proof.
  cbn [encodeValue]. f_equal.
  revert fs. induction fields as [|[tag ft] fields IH]; intros fs.
  - reflexivity.
  - destruct fs as [|fv fs]; [reflexivity|].
    cbn [collectFields]. destruct (ParseRelishTag tag) as [[[i o] e] ok].
    destruct ok; rewrite IH; reflexivity.
Qed.

Lemma writeFields_app l1 l2 :
  writeFields (l1 ++ l2)
  = a <- writeFields l1 ;; b <- writeFields l2 ;; Ok (a ++ b).
Proof.
  induction l1 as [|fi l1 IH].
  - cbn. destruct (writeFields l2); reflexivity.
  - cbn [app writeFields].
    destruct (optional fi && isPointer (value fi) && IsNil (value fi)); [exact IH|].
    destruct (omitempty fi && isZeroValue (ftype fi) (value fi)); [exact IH|].
    destruct (WriteType (to_byte (id fi))) as [t|]; [|reflexivity]. cbn [bind].
    destruct (encoded fi) as [e|]; [|reflexivity]. cbn [bind].
    rewrite IH. destruct (writeFields l1) as [a|]; [|reflexivity]. cbn [bind].
    destruct (writeFields l2) as [b|]; [|reflexivity]. cbn [bind].
    rewrite <- !app_assoc. reflexivity.
Qed.

Lemma to_byte_small x : 0 <= x < 256 -> to_byte x = x.
Proof. intros H. unfold to_byte. apply Z.mod_small. lia. Qed.

Lemma land_128_small x : 0 <= x < 128 -> Z.land x 0x80 = 0.
Proof.
  intros H. apply Z.bits_inj'. intros i Hi. rewrite Z.land_spec, Z.bits_0.
  destruct (Z.ltb_spec i 7).
  - change 128 with (2 ^ 7). rewrite Z.pow2_bits_false by lia.
    apply Bool.andb_false_r.
  - rewrite (testbit_above x 7) by lia. reflexivity.
Qed.

Lemma encodeValue_nil_pointer e :
  (forall e', e <> TPtr e') ->
  encodeValue (TPtr e) (VPtr None) = encodeValue e (Zero e).
Proof. intros H. destruct e; try reflexivity. exfalso. eapply H. reflexivity. Qed.

Lemma encodeValue_zero_base e :
  isBase e = true ->
  encodeValue e (Zero e)
  = Ok (match e with
        | TBool => [0x01; 0x00]
        | TUint32 => [0x04; 0x00; 0x00; 0x00; 0x00]
        | _ => [0x0E; 0x00]
        end).
Proof. destruct e; try discriminate; intros _; reflexivity. Qed.

(** C10, as stated, fails: a nil pointer field that is not optional but is
    marked omitempty is left out of the struct, which is then empty; and a
    nil pointer to a pointer, in a field that is neither optional nor
    omitempty, makes the encoder fail, since the zero value of the pointee
    is again a pointer, a kind that [encodeValue] does not handle. *)
Lemma nil_pointer_omitempty_is_omitted :
  Marshal (TStruct [(TagParts (Some 0) false true, TPtr TUint32)])
          (VStruct [VPtr None])
  = Ok [0x11; 0x00]
  /\ Marshal (TStruct [(TagParts (Some 0) false false, TPtr (TPtr TUint32))])
             (VStruct [VPtr None])
     = Err (RelishError ErrNotImplementedKind "not implemented").
Proof. split; reflexivity. Qed.

(** C10 (amended). A struct field that holds a nil pointer, whose binding
    is neither optional nor omitempty and whose pointee is not itself a
    pointer, is not left out: wherever it stands among the sorted fields,
    the encoder writes its id byte followed by the TLV of the zero value of
    the pointee type, whenever that zero value encodes; for a pointee of
    kind bool, uint32 or string it does, as 01 00, 04 00 00 00 00 and
    0E 00, not as Null. *)
Theorem nil_pointer_field_encodes_zero (fi : fieldInfo) (e : GoType)
  (before after : list fieldInfo) (tlv : list byte)
  (Hid : 0 <= id fi < 128)
  (Hopt : optional fi = false) (Homit : omitempty fi = false)
  (Hty : ftype fi = TPtr e) (Hnil : value fi = VPtr None)
  (Henc : encoded fi = encodeValue (ftype fi) (value fi))
  (Hnp : forall e', e <> TPtr e')
  (Hz : encodeValue e (Zero e) = Ok tlv) :
  writeFields (before ++ fi :: after)
  = (b <- writeFields before ;; a <- writeFields after ;;
     Ok (b ++ id fi :: tlv ++ a))
  /\ (isBase e = true ->
      tlv = match e with
            | TBool => [0x01; 0x00]
            | TUint32 => [0x04; 0x00; 0x00; 0x00; 0x00]
            | _ => [0x0E; 0x00]
            end).
Proof.
  split.
  - rewrite writeFields_app. cbn [writeFields].
    rewrite Hopt, Homit. cbn [andb].
    rewrite to_byte_small by lia.
    rewrite WriteType_ok by (apply land_128_small; lia). cbn [bind].
    rewrite Henc, Hty, Hnil, encodeValue_nil_pointer, Hz by exact Hnp.
    cbn [bind].
    destruct (writeFields before) as [b|]; [|reflexivity]. cbn [bind].
    destruct (writeFields after) as [a|]; reflexivity.
  - intros Hb. rewrite encodeValue_zero_base in Hz by exact Hb.
    injection Hz as <-. reflexivity.
Qed.

Definition nilU32Field : fieldInfo :=
  mkFieldInfo 0 false false (TPtr TUint32) (VPtr None)
              (encodeValue (TPtr TUint32) (VPtr None)).

Lemma nil_pointer_field_encodes_zero_witness :
  writeFields ([] ++ nilU32Field :: [])
  = (b <- writeFields [] ;; a <- writeFields [] ;;
     Ok (b ++ id nilU32Field :: [0x04; 0x00; 0x00; 0x00; 0x00] ++ a)).
Proof.
  refine (proj1 (nil_pointer_field_encodes_zero nilU32Field TUint32 [] []
                   [0x04; 0x00; 0x00; 0x00; 0x00] _ _ _ _ _ _ _ _)).
  - cbn. lia.
  - reflexivity.
  - reflexivity.
  - reflexivity.
  - reflexivity.
  - reflexivity.
  - intros e' H. discriminate H.
  - reflexivity.
Defined.

(** The same through [Marshal]: a nil [*uint32] in a plain field 0. *)
Lemma Marshal_nil_pointer_field :
  Marshal (TStruct [(TagParts (Some 0) false false, TPtr TUint32)])
          (VStruct [VPtr None])
  = Ok [0x11; 0x0C; 0x00; 0x04; 0x00; 0x00; 0x00; 0x00].
Proof. reflexivity. Qed.

(** ** Repeated field ids *)

(** A struct type whose two fields are both tagged with id 0. *)
Definition DupIDs : GoType :=
  TStruct [(TagParts (Some 0) false false, TUint32);
           (TagParts (Some 0) false false, TUint32)].

(** C7 (the code at the failing input). The encoder does not report the
    repeated id: it succeeds and writes field 0 twice; the decoder then
    rejects these bytes. *)
Theorem Marshal_repeated_field_id :
  Marshal DupIDs (VStruct [VUint32 1; VUint32 1])
  = Ok [0x11; 0x18; 0x00; 0x04; 1; 0; 0; 0; 0x00; 0x04; 1; 0; 0; 0]
  /\ Unmarshal [0x11; 0x18; 0x00; 0x04; 1; 0; 0; 0; 0x00; 0x04; 1; 0; 0; 0]
               (TPtr DupIDs) (VPtr (Some (Zero DupIDs)))
     = Err (RelishError ErrFieldOrder "field ids not strictly increasing").
Proof. split; reflexivity. Qed.

(** ** The field loop of the struct decoder *)

Lemma payloadOf_cons e es :
  payloadOf (e :: es) = wid e :: wbytes e ++ payloadOf es.
Proof. reflexivity. Qed.

Lemma payloadOf_app es1 es2 :
  payloadOf (es1 ++ es2) = payloadOf es1 ++ payloadOf es2.
Proof. unfold payloadOf. apply flat_map_app. Qed.

Lemma structLoop_applyFields decs idx es :
  Forall wfWireField es ->
  forall rounds prev dst,
    (length (payloadOf es) <= rounds)%nat ->
    structLoop rounds decs idx prev (payloadOf es) dst
    = applyFields decs idx prev es dst.
Proof.
  induction 1 as [|e es [Hid Hfr] Hes IH]; intros rounds prev dst Hr.
  - destruct rounds; reflexivity.
  - rewrite payloadOf_cons in *. cbn [length] in Hr.
    destruct rounds as [|rounds]; [lia|].
    cbn [structLoop applyFields]. rewrite Hid. cbn [Z.eqb negb].
    destruct (wid e <=? prev); [reflexivity|].
    rewrite Hfr. cbn [bind]. fold noFieldDecoder.
    rewrite length_app in Hr.
    destruct (lookupIndex idx (wid e)) as [i|].
    + destruct (nth i decs noFieldDecoder (nth i dst (VPtr None)) (wtlv e));
        [|reflexivity].
      cbn [bind]. apply IH. lia.
    + apply IH. lia.
Qed.

Lemma payloadOf_nil_inv es : payloadOf es = [] -> es = [].
Proof. destruct es; [reflexivity|discriminate]. Qed.

Lemma decodeStructInto_fields fields decs dst es rest :
  Forall wfWireField es ->
  len (payloadOf es) <= MaxLen ->
  decodeStructInto fields decs dst
    (EncodeLen (len (payloadOf es)) ++ payloadOf es ++ rest)
  = dst' <- applyFields decs (buildIndex fields 0 []) (-1) es dst ;;
    Ok (dst', rest).
Proof.
  intros Hwf Hl. unfold decodeStructInto.
  pose proof (len_nonneg (payloadOf es)).
  rewrite ReadLen_EncodeLen by lia. cbn [bind].
  destruct (Z.eqb_spec (len (payloadOf es)) 0) as [E|E].
  - assert (payloadOf es = []) as E'.
    { destruct (payloadOf es); [reflexivity|]. rewrite len_cons in E.
      pose proof (len_nonneg l). lia. }
    apply payloadOf_nil_inv in E'. subst es. reflexivity.
  - rewrite ReadFull_app by reflexivity. cbn [bind].
    rewrite structLoop_applyFields by (auto; lia). reflexivity.
Qed.

Lemma decodeElem_struct_fields fields dst es rest :
  Forall wfWireField es ->
  len (payloadOf es) <= MaxLen ->
  decodeElem (TStruct fields) (VStruct dst)
    (0x11 :: EncodeLen (len (payloadOf es)) ++ payloadOf es ++ rest)
  = dst' <- applyFields (fieldDecoders fields) (buildIndex fields 0 []) (-1)
                        es dst ;;
    Ok (VStruct dst', rest).
Proof.
  intros Hwf Hl. rewrite decodeElem_struct.
  rewrite decodeStructInto_fields by assumption.
  destruct (applyFields _ _ _ _ _); reflexivity.
Qed.

Lemma applyFields_ok_increasing decs idx es :
  forall prev dst d,
    applyFields decs idx prev es dst = Ok d ->
    increasingFrom prev (map wid es) = true.
Proof.
  induction es as [|e es IH]; intros prev dst d; [reflexivity|].
  cbn [applyFields map increasingFrom].
  destruct (Z.leb_spec (wid e) prev); [discriminate|].
  destruct (Z.ltb_spec prev (wid e)); [|lia]. cbn [andb].
  destruct (lookupIndex idx (wid e)) as [i|].
  - destruct (nth i decs noFieldDecoder (nth i dst (VPtr None)) (wtlv e));
      [|discriminate].
    cbn [bind]. apply IH.
  - apply IH.
Qed.

Lemma decodable_tail decs idx e es :
  decodable decs idx (e :: es) -> decodable decs idx es.
Proof. intros H e' i f Hin. apply H. right. exact Hin. Qed.

Lemma applyFields_increasing_ok decs idx es :
  decodable decs idx es ->
  forall prev dst,
    increasingFrom prev (map wid es) = true ->
    exists d, applyFields decs idx prev es dst = Ok d.
Proof.
  induction es as [|e es IH]; intros Hd prev dst Hinc.
  - eexists. reflexivity.
  - cbn [map increasingFrom] in Hinc. apply andb_prop in Hinc.
    destruct Hinc as [H1 H2]. apply Z.ltb_lt in H1.
    cbn [applyFields]. destruct (Z.leb_spec (wid e) prev); [lia|].
    destruct (lookupIndex idx (wid e)) as [i|] eqn:El.
    + destruct (Hd e i (nth i dst (VPtr None)) (or_introl eq_refl) El) as [x Hx].
      rewrite Hx. cbn [bind]. apply IH; [eapply decodable_tail; eauto|exact H2].
    + apply IH; [eapply decodable_tail; eauto|exact H2].
Qed.

Lemma applyFields_not_increasing decs idx es :
  decodable decs idx es ->
  forall prev dst,
    increasingFrom prev (map wid es) = false ->
    applyFields decs idx prev es dst
    = Err (RelishError ErrFieldOrder "field ids not strictly increasing").
Proof.
  induction es as [|e es IH]; intros Hd prev dst Hinc; [discriminate|].
  cbn [map increasingFrom] in Hinc. cbn [applyFields].
  destruct (Z.leb_spec (wid e) prev); [reflexivity|].
  destruct (Z.ltb_spec prev (wid e)); [|lia]. cbn [andb] in Hinc.
  destruct (lookupIndex idx (wid e)) as [i|] eqn:El.
  - destruct (Hd e i (nth i dst (VPtr None)) (or_introl eq_refl) El) as [x Hx].
    rewrite Hx. cbn [bind]. apply IH; [eapply decodable_tail; eauto|exact Hinc].
  - apply IH; [eapply decodable_tail; eauto|exact Hinc].
Qed.

(** ** Unknown fields *)

Lemma lookupIndex_buildIndex_notin fields id :
  ~ In id (taggedIDs fields) ->
  forall k m, lookupIndex (buildIndex fields k m) id = lookupIndex m id.
Proof.
  induction fields as [|[tag ft] fields IH]; intros Hn k m; [reflexivity|].
  cbn [buildIndex taggedIDs] in *.
  destruct (ParseRelishTag tag) as [[[i o] e] ok]. destruct ok.
  - rewrite IH by (intros H; apply Hn; right; exact H).
    unfold lookupIndex. cbn [find fst].
    destruct (Z.eqb_spec i id) as [->|]; [|reflexivity].
    exfalso. apply Hn. left. reflexivity.
  - apply IH. exact Hn.
Qed.

Lemma increasingFrom_weaken ids p q :
  p <= q -> increasingFrom q ids = true -> increasingFrom p ids = true.
Proof.
  destruct ids as [|i ids]; [reflexivity|]. cbn [increasingFrom].
  intros Hpq H. apply andb_prop in H. destruct H as [H1 H2].
  apply Z.ltb_lt in H1. rewrite H2.
  destruct (Z.ltb_spec p i); [reflexivity|lia].
Qed.

Lemma increasingFrom_app ids1 i ids2 prev :
  increasingFrom prev (ids1 ++ i :: ids2) = true ->
  increasingFrom prev (ids1 ++ ids2) = true.
Proof.
  revert prev. induction ids1 as [|a ids1 IH]; intros prev H.
  - cbn [app increasingFrom] in *. apply andb_prop in H. destruct H as [H1 H2].
    apply Z.ltb_lt in H1. eapply increasingFrom_weaken; [|exact H2]. lia.
  - cbn [app increasingFrom] in *. apply andb_prop in H. destruct H as [H1 H2].
    rewrite H1. cbn [andb]. apply IH. exact H2.
Qed.

Lemma applyFields_prev decs idx es p q dst :
  increasingFrom p (map wid es) = true ->
  increasingFrom q (map wid es) = true ->
  applyFields decs idx p es dst = applyFields decs idx q es dst.
Proof.
  destruct es as [|e es]; [reflexivity|].
  cbn [map increasingFrom applyFields]. intros Hp Hq.
  apply andb_prop in Hp. apply andb_prop in Hq.
  destruct Hp as [Hp _], Hq as [Hq _]. apply Z.ltb_lt in Hp, Hq.
  destruct (Z.leb_spec (wid e) p); [lia|].
  destruct (Z.leb_spec (wid e) q); [lia|]. reflexivity.
Qed.

Lemma applyFields_skip_unknown decs idx e es2 :
  lookupIndex idx (wid e) = None ->
  forall es1 prev dst,
    increasingFrom prev (map wid (es1 ++ e :: es2)) = true ->
    applyFields decs idx prev (es1 ++ e :: es2) dst
    = applyFields decs idx prev (es1 ++ es2) dst.
Proof.
  intros Hu. induction es1 as [|a es1 IH]; intros prev dst Hinc.
  - cbn [app map increasingFrom] in *. apply andb_prop in Hinc.
    destruct Hinc as [H1 H2]. pose proof H1 as H1'. apply Z.ltb_lt in H1'.
    cbn [applyFields]. destruct (Z.leb_spec (wid e) prev); [lia|].
    rewrite Hu. apply applyFields_prev; [exact H2|].
    eapply increasingFrom_weaken; [|exact H2]. lia.
  - cbn [app map increasingFrom] in *. apply andb_prop in Hinc.
    destruct Hinc as [H1 H2]. cbn [applyFields].
    destruct (wid a <=? prev); [reflexivity|].
    destruct (lookupIndex idx (wid a)) as [i|].
    + destruct (nth i decs noFieldDecoder (nth i dst (VPtr None)) (wtlv a));
        [|reflexivity].
      cbn [bind]. apply IH. exact H2.
    + apply IH. exact H2.
Qed.

Lemma Forall_app_remove {A} (P : A -> Prop) l1 x l2 :
  Forall P (l1 ++ x :: l2) -> Forall P (l1 ++ l2).
Proof.
  rewrite !Forall_app. intros [H1 H2]. split; [exact H1|].
  inversion H2; assumption.
Qed.

(** The scenario of the specification: a target that binds only field 0
    reads [11 1C | 00 04 2A 00 00 00 | 02 0E 0A "hello"]. *)
Definition OnlyField0 : list (StructTag * GoType) :=
  [(TagParts (Some 0) false false, TUint32)].

Definition field0_u32_42 : wireField :=
  mkWireField 0 [0x04; 0x2A; 0; 0; 0] [0x04; 0x2A; 0; 0; 0].

Definition field2_hello : wireField :=
  mkWireField 2 [0x0E; 0x0A; 104; 101; 108; 108; 111]
                [0x0E; 0x0A; 104; 101; 108; 108; 111].

(** A bool TLV under field 0. *)
Definition field0_true : wireField :=
  mkWireField 0 [0x01; 0xFF] [0x01; 0xFF].

(** C3, as stated, fails: in [11 16 | 00 01 FF | 02 0E 0A "hello"] the ids
    0 and 2 are valid and strictly increasing, each field holds a complete
    TLV and field 2 is not bound in the target, yet the decode fails: the
    bound field 0 holds a bool where the target has a uint32. *)
Lemma unknown_field_beside_mismatch :
  Forall wfWireField [field0_true; field2_hello]
  /\ increasingFrom (-1) (map wid [field0_true; field2_hello]) = true
  /\ ~ In (wid field2_hello) (taggedIDs OnlyField0)
  /\ 0x11 :: EncodeLen (len (payloadOf [field0_true; field2_hello]))
           ++ payloadOf [field0_true; field2_hello]
     = [0x11; 0x16; 0x00; 0x01; 0xFF;
        0x02; 0x0E; 0x0A; 104; 101; 108; 108; 111]
  /\ decodeElem (TStruct OnlyField0) (VStruct [VUint32 0])
                [0x11; 0x16; 0x00; 0x01; 0xFF;
                 0x02; 0x0E; 0x0A; 104; 101; 108; 108; 111]
     = Err (PlainError "unexpected type id for u32").
Proof.
  split; [|split; [|split; [|split]]]; try reflexivity.
  - repeat constructor; cbn; intros rest; reflexivity.
  - cbn. intros [H|[]]. discriminate H.
Qed.

(** C3 (amended). A struct TLV that carries a field whose id is not bound
    in the target, among fields with valid and strictly increasing ids that
    each hold a complete TLV, decodes exactly as the same TLV without that
    field: the unknown field's TLV is consumed and dropped without error and
    the bound fields reach their slots.  The decode succeeds whenever the
    TLVs of the bound fields decode into their slots. *)
Theorem unknown_field_skipped fields dst es1 e es2 rest
  (Hwf : Forall wfWireField (es1 ++ e :: es2))
  (Hlen : len (payloadOf (es1 ++ e :: es2)) <= MaxLen)
  (Hinc : increasingFrom (-1) (map wid (es1 ++ e :: es2)) = true)
  (Hunk : ~ In (wid e) (taggedIDs fields)) :
  decodeElem (TStruct fields) (VStruct dst)
    (0x11 :: EncodeLen (len (payloadOf (es1 ++ e :: es2)))
          ++ payloadOf (es1 ++ e :: es2) ++ rest)
  = decodeElem (TStruct fields) (VStruct dst)
      (0x11 :: EncodeLen (len (payloadOf (es1 ++ es2)))
            ++ payloadOf (es1 ++ es2) ++ rest)
  /\ (decodable (fieldDecoders fields) (buildIndex fields 0 []) (es1 ++ es2) ->
      exists dst',
        decodeElem (TStruct fields) (VStruct dst)
          (0x11 :: EncodeLen (len (payloadOf (es1 ++ e :: es2)))
                ++ payloadOf (es1 ++ e :: es2) ++ rest)
        = Ok (VStruct dst', rest)).
Proof.
  assert (Hwf' : Forall wfWireField (es1 ++ es2))
    by (eapply Forall_app_remove; exact Hwf).
  assert (Hlen' : len (payloadOf (es1 ++ es2)) <= MaxLen).
  { rewrite payloadOf_app, len_app in *. rewrite payloadOf_cons, len_cons, len_app in Hlen.
    pose proof (len_nonneg (wbytes e)). lia. }
  assert (Hinc' : increasingFrom (-1) (map wid (es1 ++ es2)) = true).
  { rewrite map_app in *. cbn [map] in Hinc. eapply increasingFrom_app, Hinc. }
  assert (Hu : lookupIndex (buildIndex fields 0 []) (wid e) = None).
  { rewrite lookupIndex_buildIndex_notin by exact Hunk. reflexivity. }
  rewrite !decodeElem_struct_fields by assumption.
  rewrite applyFields_skip_unknown by assumption.
  split; [reflexivity|].
  intros Hd.
  destruct (applyFields_increasing_ok _ _ _ Hd (-1) dst Hinc') as [d Hd'].
  exists d. rewrite Hd'. reflexivity.
Qed.

Lemma unknown_field_skipped_witness :
  decodeElem (TStruct OnlyField0) (VStruct [VUint32 0])
    (0x11 :: EncodeLen (len (payloadOf ([field0_u32_42] ++ field2_hello :: [])))
          ++ payloadOf ([field0_u32_42] ++ field2_hello :: []) ++ [])
  = Ok (VStruct [VUint32 42], []).
Proof.
  destruct (unknown_field_skipped OnlyField0 [VUint32 0]
              [field0_u32_42] field2_hello [] []) as [E _].
  - repeat constructor; cbn; intros rest; reflexivity.
  - unfold MaxLen. vm_compute. discriminate.
  - reflexivity.
  - cbn. intros [H|[]]. discriminate H.
  - rewrite E. reflexivity.
Defined.

(** ** Field order *)

Lemma ParseRelishTag_range tag i o e :
  ParseRelishTag tag = (i, o, e, true) -> 0 <= i < 128.
Proof.
  destruct tag as [| |[id64|] o' e']; try discriminate. cbn.
  destruct (Z.ltb_spec id64 0); cbn [orb]; [discriminate|].
  destruct (Z.leb_spec 128 id64); [discriminate|].
  intros E. injection E as <- _ _. lia.
Qed.

Lemma collectFields_In enc fields :
  forall vs fi, In fi (collectFields enc fields vs) ->
                In (id fi) (taggedIDs fields) /\ 0 <= id fi < 128.
Proof.
  induction fields as [|[tag ft] fields IH]; intros vs fi Hin; [destruct Hin|].
  destruct vs as [|v vs]; [destruct Hin|].
  cbn [collectFields taggedIDs] in *.
  destruct (ParseRelishTag tag) as [[[i o] e] ok] eqn:Ep. destruct ok.
  - destruct Hin as [<-|Hin].
    + cbn [id]. split; [left; reflexivity|].
      eapply ParseRelishTag_range, Ep.
    + destruct (IH vs fi Hin). split; [right|]; assumption.
  - apply (IH vs fi Hin).
Qed.

Lemma collectFields_NoDup enc fields :
  NoDup (taggedIDs fields) ->
  forall vs, NoDup (map id (collectFields enc fields vs)).
Proof.
  induction fields as [|[tag ft] fields IH]; intros Hnd vs; [constructor|].
  destruct vs as [|v vs]; [constructor|].
  cbn [collectFields taggedIDs] in *.
  destruct (ParseRelishTag tag) as [[[i o] e] ok]. destruct ok.
  - inversion Hnd as [|? ? Hni Hnd']; subst. cbn [map id]. constructor.
    + intros Hin. apply in_map_iff in Hin. destruct Hin as [fi [E Hin]].
      apply collectFields_In in Hin. destruct Hin as [Hin _].
      rewrite E in Hin. contradiction.
    + apply IH. exact Hnd'.
  - apply IH. exact Hnd.
Qed.

Lemma insertField_perm fi l : Permutation (insertField fi l) (fi :: l).
Proof.
  induction l as [|x l IH]; [reflexivity|]. cbn [insertField].
  destruct (id x <? id fi); [|reflexivity].
  rewrite IH. apply perm_swap.
Qed.

Lemma sortFields_perm l : Permutation (sortFields l) l.
Proof.
  induction l as [|x l IH]; [reflexivity|]. cbn [sortFields].
  rewrite insertField_perm. constructor. exact IH.
Qed.

Lemma insertField_increasing fi l :
  forall p, increasingFrom p (map id l) = true -> p < id fi ->
            ~ In (id fi) (map id l) ->
            increasingFrom p (map id (insertField fi l)) = true.
Proof.
  induction l as [|x l IH]; intros p Hinc Hp Hni.
  - cbn. destruct (Z.ltb_spec p (id fi)); [reflexivity|lia].
  - cbn [map increasingFrom insertField] in *.
    apply andb_prop in Hinc. destruct Hinc as [H1 H2]. apply Z.ltb_lt in H1.
    assert (Hne : id x <> id fi) by (intros E; apply Hni; left; exact E).
    destruct (Z.ltb_spec (id x) (id fi)).
    + cbn [map increasingFrom].
      destruct (Z.ltb_spec p (id x)); [|lia]. cbn [andb].
      apply IH; [exact H2|lia|intros H'; apply Hni; right; exact H'].
    + cbn [map increasingFrom].
      destruct (Z.ltb_spec p (id fi)); [|lia].
      destruct (Z.ltb_spec (id fi) (id x)); [|lia]. exact H2.
Qed.

Lemma sortFields_increasing l p :
  NoDup (map id l) -> Forall (fun fi => p < id fi) l ->
  increasingFrom p (map id (sortFields l)) = true.
Proof.
  induction l as [|x l IH]; intros Hnd Hp; [reflexivity|].
  cbn [map sortFields] in *. inversion Hnd as [|? ? Hni Hnd']; subst.
  inversion Hp as [|? ? Hx Hp']; subst.
  apply insertField_increasing; [apply IH; assumption|exact Hx|].
  intros Hin. apply Hni. apply in_map_iff in Hin. destruct Hin as [fi [E Hin]].
  apply in_map_iff. exists fi. split; [exact E|].
  eapply Permutation_in; [apply sortFields_perm|exact Hin].
Qed.

Lemma wireFieldsOf_increasing l :
  forall p, increasingFrom p (map id l) = true ->
            increasingFrom p (map wid (wireFieldsOf l)) = true.
Proof.
  induction l as [|x l IH]; intros p Hinc; [reflexivity|].
  cbn [map increasingFrom wireFieldsOf] in *.
  apply andb_prop in Hinc. destruct Hinc as [H1 H2].
  pose proof H1 as H1'. apply Z.ltb_lt in H1'.
  assert (Hskip : increasingFrom p (map wid (wireFieldsOf l)) = true).
  { eapply increasingFrom_weaken; [|apply IH; exact H2]. lia. }
  destruct (optional x && isPointer (value x) && IsNil (value x)); [exact Hskip|].
  destruct (omitempty x && isZeroValue (ftype x) (value x)); [exact Hskip|].
  destruct (encoded x); [|exact Hskip].
  cbn [map increasingFrom wid]. rewrite H1. cbn [andb]. apply IH. exact H2.
Qed.

Lemma writeFields_payload l :
  Forall (fun fi => 0 <= id fi < 128) l ->
  forall p, writeFields l = Ok p -> p = payloadOf (wireFieldsOf l).
Proof.
  induction 1 as [|x l Hx Hl IH]; intros p.
  - cbn. intros E. injection E as <-. reflexivity.
  - cbn [writeFields wireFieldsOf].
    destruct (optional x && isPointer (value x) && IsNil (value x)); [apply IH|].
    destruct (omitempty x && isZeroValue (ftype x) (value x)); [apply IH|].
    rewrite to_byte_small by lia.
    rewrite WriteType_ok by (apply land_128_small; exact Hx). cbn [bind].
    destruct (encoded x) as [tlv|]; [|discriminate]. cbn [bind].
    destruct (writeFields l) as [q|]; [|discriminate]. cbn [bind].
    intros E. injection E as <-. rewrite payloadOf_cons. cbn [wid wbytes app].
    rewrite (IH q eq_refl). reflexivity.
Qed.

Lemma sorted_collect_increasing fields vs :
  NoDup (taggedIDs fields) ->
  increasingFrom (-1)
    (map wid (wireFieldsOf (sortFields (collectFields encodeValue fields vs))))
  = true.
Proof.
  intros Hnd. apply wireFieldsOf_increasing, sortFields_increasing.
  - apply collectFields_NoDup, Hnd.
  - apply Forall_forall. intros fi Hin.
    apply collectFields_In in Hin. lia.
Qed.

Lemma sorted_collect_range fields vs :
  Forall (fun fi => 0 <= id fi < 128)
         (sortFields (collectFields encodeValue fields vs)).
Proof.
  apply Forall_forall. intros fi Hin.
  eapply Permutation_in in Hin; [|apply sortFields_perm].
  apply collectFields_In in Hin. apply Hin.
Qed.

(** C2, as stated, fails, in both halves.  The payload [00 01 FF] has the
    single field id 0, so its ids are strictly increasing, but a target
    whose field 0 is a uint32 does not decode it.  And for a struct type
    that binds id 0 twice the encoder writes field 0 twice, which is not a
    strictly increasing order. *)
Lemma increasing_ids_do_not_suffice :
  Forall wfWireField [field0_true]
  /\ increasingFrom (-1) (map wid [field0_true]) = true
  /\ payloadOf [field0_true] = [0x00; 0x01; 0xFF]
  /\ decodeElem (TStruct OnlyField0) (VStruct [VUint32 0])
                [0x11; 0x06; 0x00; 0x01; 0xFF]
     = Err (PlainError "unexpected type id for u32")
  /\ Marshal DupIDs (VStruct [VUint32 1; VUint32 2])
     = Ok [0x11; 0x18; 0x00; 0x04; 1; 0; 0; 0; 0x00; 0x04; 2; 0; 0; 0].
Proof.
  repeat split.
  - repeat constructor; cbn; intros rest; reflexivity.
Qed.

(** C2 (amended). For a struct payload made of fields with valid ids and
    complete value TLVs, whose fields bound in the target decode into their
    slots, the decode succeeds iff the ids on the wire are strictly
    increasing, starting above -1; when they are not, the error is
    FieldOrder.  When the ids bound by a struct type are pairwise distinct,
    a payload written by the encoder consists of the fields that are not
    left out, in strictly increasing order of id. *)
Theorem struct_field_order fields dst es rest
  (Hwf : Forall wfWireField es)
  (Hlen : len (payloadOf es) <= MaxLen)
  (Hdec : decodable (fieldDecoders fields) (buildIndex fields 0 []) es) :
  (is_ok (decodeElem (TStruct fields) (VStruct dst)
            (0x11 :: EncodeLen (len (payloadOf es)) ++ payloadOf es ++ rest))
   = true
   <-> increasingFrom (-1) (map wid es) = true)
  /\ (increasingFrom (-1) (map wid es) = false ->
      decodeElem (TStruct fields) (VStruct dst)
        (0x11 :: EncodeLen (len (payloadOf es)) ++ payloadOf es ++ rest)
      = Err (RelishError ErrFieldOrder "field ids not strictly increasing"))
  /\ (forall vs p,
        NoDup (taggedIDs fields) ->
        writeFields (sortFields (collectFields encodeValue fields vs)) = Ok p ->
        p = payloadOf (wireFieldsOf
                         (sortFields (collectFields encodeValue fields vs)))
        /\ increasingFrom (-1)
             (map wid (wireFieldsOf
                         (sortFields (collectFields encodeValue fields vs))))
           = true).
Proof.
  rewrite decodeElem_struct_fields by assumption.
  repeat split.
  - destruct (applyFields _ _ _ _ _) as [d|] eqn:E; [|discriminate].
    intros _. eapply applyFields_ok_increasing, E.
  - intros Hinc.
    destruct (applyFields_increasing_ok _ _ _ Hdec (-1) dst Hinc) as [d ->].
    reflexivity.
  - intros Hinc. rewrite applyFields_not_increasing by assumption. reflexivity.
  - eapply writeFields_payload; [apply sorted_collect_range|assumption].
  - apply sorted_collect_increasing. assumption.
Qed.

(** The scenario of the specification:
    [11 18 | 01 04 14 00 00 00 | 00 04 0A 00 00 00] is rejected. *)
Definition TwoFields : list (StructTag * GoType) :=
  [(TagParts (Some 0) false false, TUint32);
   (TagParts (Some 1) false false, TUint32)].

Definition field1_u32_20 : wireField :=
  mkWireField 1 [0x04; 0x14; 0; 0; 0] [0x04; 0x14; 0; 0; 0].

Definition field0_u32_10 : wireField :=
  mkWireField 0 [0x04; 0x0A; 0; 0; 0] [0x04; 0x0A; 0; 0; 0].

Lemma struct_field_order_witness :
  decodeElem (TStruct TwoFields) (VStruct [VUint32 0; VUint32 0])
    (0x11 :: EncodeLen (len (payloadOf [field1_u32_20; field0_u32_10]))
          ++ payloadOf [field1_u32_20; field0_u32_10] ++ [])
  = Err (RelishError ErrFieldOrder "field ids not strictly increasing").
Proof.
  refine (proj1 (proj2 (struct_field_order TwoFields [VUint32 0; VUint32 0]
                          [field1_u32_20; field0_u32_10] [] _ _ _)) _).
  - repeat constructor; cbn; intros rest; reflexivity.
  - unfold MaxLen. vm_compute. discriminate.
  - intros e idx f [<-|[<-|[]]] Hl; vm_compute in Hl; injection Hl as <-;
      eexists; reflexivity.
  - reflexivity.
Defined.

(** ** Round trips of the primitive TLVs *)

Lemma Uint32_PutUint32 n :
  0 <= n < 2 ^ 32 -> Uint32 (PutUint32 (to_uint32 n)) = n.
Proof.
  intros Hn. unfold Uint32, PutUint32. cbn [nth].
  bits_solve n 32.
Qed.

Lemma decode_bool b cur rest tlv :
  encodeValue TBool (VBool b) = Ok tlv ->
  decodeElem TBool cur (tlv ++ rest) = Ok (VBool b, rest)
  /\ readTLVBytes (tlv ++ rest) = Ok (tlv, rest).
Proof.
  intros E. cbn in E. injection E as <-. destruct b; split; reflexivity.
Qed.

Lemma decode_uint32 n cur rest tlv :
  0 <= n < 2 ^ 32 ->
  encodeValue TUint32 (VUint32 n) = Ok tlv ->
  decodeElem TUint32 cur (tlv ++ rest) = Ok (VUint32 n, rest)
  /\ readTLVBytes (tlv ++ rest) = Ok (tlv, rest).
Proof.
  intros Hn E. cbn [encodeValue] in E. unfold WriteU32TLV in E.
  rewrite WriteType_ok in E by reflexivity. cbn [bind] in E.
  injection E as <-. split.
  - cbn [decodeElem]. unfold ReadU32TLV. cbn [app].
    rewrite ReadType_cons by reflexivity. cbn [bind Z.eqb Pos.eqb negb].
    rewrite io_ReadFull_app by reflexivity. cbn [bind].
    rewrite Uint32_PutUint32 by exact Hn. reflexivity.
  - cbn [app]. apply (readTLVBytes_fixed 4 4); reflexivity.
Qed.

Lemma WriteStringTLV_inv s tlv :
  WriteStringTLV s = Ok tlv ->
  tlv = 0x0E :: EncodeLen (len s) ++ s
  /\ utf8_Valid s = true /\ len s <= MaxLen.
Proof.
  unfold WriteStringTLV. destruct (utf8_Valid s); [|discriminate].
  cbn [negb]. rewrite WriteType_ok by reflexivity. cbn [bind].
  destruct (WriteLen (len s)) as [l|] eqn:El; [|discriminate].
  apply WriteLen_inv in El. destruct El as [-> Hl]. cbn [bind].
  destruct (Z.eqb_spec (len s) 0) as [E0|E0]; intros E; injection E as <-.
  - destruct s; [|rewrite len_cons in E0; pose proof (len_nonneg s); lia].
    rewrite app_nil_r. repeat split; lia.
  - repeat split; lia.
Qed.

Lemma decode_string s cur rest tlv :
  encodeValue TString (VString s) = Ok tlv ->
  decodeElem TString cur (tlv ++ rest) = Ok (VString s, rest)
  /\ readTLVBytes (tlv ++ rest) = Ok (tlv, rest).
Proof.
  intros E. cbn [encodeValue] in E. apply WriteStringTLV_inv in E.
  destruct E as [-> [Hv Hl]]. pose proof (len_nonneg s) as Hs. split.
  - cbn [decodeElem]. unfold ReadStringTLV. cbn [app].
    rewrite ReadType_cons by reflexivity. cbn [bind Z.eqb Pos.eqb negb].
    rewrite <- app_assoc. rewrite ReadLen_EncodeLen by lia. cbn [bind].
    destruct (Z.eqb_spec (len s) 0) as [E0|E0].
    + destruct s; [reflexivity|]. rewrite len_cons in E0.
      pose proof (len_nonneg s). lia.
    + rewrite ReadFull_app by reflexivity. cbn [bind]. rewrite Hv. reflexivity.
  - cbn [app]. rewrite <- app_assoc.
    apply readTLVBytes_varsize; auto.
Qed.

Lemma decode_base e x cur rest tlv :
  isBase e = true -> hasType e x = true ->
  encodeValue e x = Ok tlv ->
  decodeElem e cur (tlv ++ rest) = Ok (x, rest)
  /\ readTLVBytes (tlv ++ rest) = Ok (tlv, rest).
Proof.
  destruct e; try discriminate; intros _ Ht E;
    destruct x; try discriminate.
  - apply decode_bool, E.
  - apply decode_uint32; [|exact E].
    cbn in Ht. apply andb_prop in Ht. destruct Ht as [H1 H2].
    apply Z.leb_le in H1. apply Z.ltb_lt in H2. lia.
  - apply decode_string, E.
Qed.

Lemma DeepEqual_zero_base e x :
  isBase e = true -> hasType e x = true ->
  DeepEqual x (Zero e) = true -> x = Zero e.
Proof.
  destruct e; try discriminate; intros _ Ht E;
    destruct x; try discriminate; cbn [Zero DeepEqual] in E |- *.
  - destruct b; [discriminate|reflexivity].
  - apply Z.eqb_eq in E. subst. reflexivity.
  - match type of E with context [if ?c then _ else _] => destruct c end;
      [subst; reflexivity|discriminate].
Qed.

(** * Further properties: the wire layer *)

(** ** Length prefixes on a stream *)

Lemma lor_bound a b k :
  0 <= k -> 0 <= a < 2 ^ k -> 0 <= b < 2 ^ k -> 0 <= Z.lor a b < 2 ^ k.
Proof.
  intros Hk Ha Hb. split; [apply Z.lor_nonneg; lia|].
  destruct (Z.eq_dec (Z.lor a b) 0) as [->|Hz]; [lia|].
  assert (0 < Z.lor a b).
  { assert (0 <= Z.lor a b) by (apply Z.lor_nonneg; lia). lia. }
  assert (Hk' : 0 < k).
  { destruct (Z.eq_dec k 0) as [->|]; [|lia]. change (2 ^ 0) with 1 in *.
    assert (a = 0) by lia. assert (b = 0) by lia. subst. cbn in Hz. lia. }
  apply Z.log2_lt_pow2; [assumption|].
  rewrite Z.log2_lor by lia.
  assert (La : Z.log2 a < k).
  { destruct (Z.eq_dec a 0) as [->|]; [cbn; lia|]. apply Z.log2_lt_pow2; lia. }
  assert (Lb : Z.log2 b < k).
  { destruct (Z.eq_dec b 0) as [->|]; [cbn; lia|]. apply Z.log2_lt_pow2; lia. }
  lia.
Qed.

Lemma shiftr1_byte b : is_byte b -> 0 <= Z.shiftr b 1 < 2 ^ 7.
Proof.
  unfold is_byte. intros H. rewrite Z.shiftr_div_pow2 by lia.
  change (2 ^ 1) with 2. split.
  - apply Z.div_pos; lia.
  - apply Z.div_lt_upper_bound; lia.
Qed.

Lemma shiftl_byte b k :
  is_byte b -> 0 <= k -> 0 <= Z.shiftl b k < 2 ^ (k + 8).
Proof.
  unfold is_byte. intros H Hk. rewrite Z.shiftl_mul_pow2 by lia.
  rewrite Z.pow_add_r by lia. change (2 ^ 8) with 256.
  assert (0 < 2 ^ k) by (apply Z.pow_pos_nonneg; lia). nia.
Qed.

Lemma DecodeLen_long_range b0 b1 b2 b3 :
  is_byte b0 -> is_byte b1 -> is_byte b2 -> is_byte b3 ->
  0 <= Z.lor (Z.lor (Z.lor (to_uint32 (Z.shiftr b0 1))
                           (to_uint32 (Z.shiftl b1 7)))
                    (to_uint32 (Z.shiftl b2 15)))
             (to_uint32 (Z.shiftl b3 23)) < 2 ^ 31.
Proof.
  intros H0 H1 H2 H3.
  pose proof (shiftr1_byte b0 H0) as S0.
  pose proof (shiftl_byte b1 7 H1 ltac:(lia)) as S1.
  pose proof (shiftl_byte b2 15 H2 ltac:(lia)) as S2.
  pose proof (shiftl_byte b3 23 H3 ltac:(lia)) as S3.
  cbn [Z.add Pos.add Pos.succ] in S1, S2, S3.
  unfold to_uint32.
  rewrite !Z.mod_small by lia.
  repeat apply lor_bound; lia.
Qed.

Lemma DecodeLen_bytes (src : list byte) (Hb : Forall is_byte src) :
  DecodeLen src = (-1, 0)
  \/ exists n used,
       DecodeLen src = (n, used) /\ 0 <= n <= MaxLen
       /\ (used = 1 \/ used = 4) /\ used <= len src.
Proof.
  destruct src as [|b0 src]; [left; reflexivity|].
  inversion Hb as [|? ? H0 Hb1]; subst. cbn [DecodeLen].
  destruct (Z.land b0 1 =? 0).
  - right. exists (Z.shiftr b0 1), 1. pose proof (shiftr1_byte b0 H0).
    rewrite len_cons. pose proof (len_nonneg src). unfold MaxLen.
    repeat split; auto; lia.
  - destruct src as [|b1 [|b2 [|b3 src]]]; try (left; reflexivity).
    inversion Hb1 as [|? ? H1 Hb2]; subst.
    inversion Hb2 as [|? ? H2 Hb3]; subst.
    inversion Hb3 as [|? ? H3 _]; subst.
    pose proof (DecodeLen_long_range b0 b1 b2 b3 H0 H1 H2 H3) as R.
    cbv zeta. unfold MaxLen.
    match goal with |- context [if ?c then _ else _] => destruct c eqn:Ec end.
    + left. reflexivity.
    + right. eexists _, 4. rewrite !len_cons. pose proof (len_nonneg src).
      repeat split; auto; lia.
Qed.

(** X1. Whatever [DecodeLen] is given, it either reports failure as
    (-1, 0) or returns a length in [0, 2^31 - 1] together with the number of
    bytes it used, 1 or 4, which the input holds. *)
Theorem DecodeLen_in_range (src : list byte) (Hb : Forall is_byte src) :
  DecodeLen src = (-1, 0)
  \/ exists n used,
       DecodeLen src = (n, used) /\ 0 <= n <= MaxLen
       /\ (used = 1 \/ used = 4) /\ used <= len src.
Proof.
  exact (DecodeLen_bytes src Hb).
Qed.

Lemma DecodeLen_in_range_witness :
  DecodeLen [0x59; 0x02; 0x00; 0x00] = (-1, 0)
  \/ exists n used,
       DecodeLen [0x59; 0x02; 0x00; 0x00] = (n, used) /\ 0 <= n <= MaxLen
       /\ (used = 1 \/ used = 4) /\ used <= len [0x59; 0x02; 0x00; 0x00].
Proof.
  apply DecodeLen_in_range.
  repeat constructor; unfold is_byte; lia.
Defined.

Lemma SizeOfLen_EncodeLen n :
  0 <= n <= MaxLen -> SizeOfLen n = len (EncodeLen n).
Proof.
  intros H. rewrite EncodeLen_length. destruct (Z.leb_spec n 127).
  - apply SizeOfLen_short. lia.
  - apply SizeOfLen_long. lia.
Qed.

(** X2. [WriteLen] succeeds exactly on the lengths 0 .. 2^31 - 1, and then
    writes [SizeOfLen n] bytes, one or four; on any other length it fails
    with the error "length out of range". *)
Theorem WriteLen_range (n : Z) :
  (is_ok (WriteLen n) = true <-> 0 <= n <= MaxLen)
  /\ (forall b, WriteLen n = Ok b ->
                len b = SizeOfLen n /\ (len b = 1 \/ len b = 4))
  /\ (~ 0 <= n <= MaxLen ->
      WriteLen n = Err (PlainError "length out of range")).
Proof.
  split; [split|split].
  - destruct (WriteLen n) as [b|] eqn:E; [|discriminate].
    intros _. apply WriteLen_inv in E. apply E.
  - intros H. rewrite WriteLen_ok by exact H. reflexivity.
  - intros b E. apply WriteLen_inv in E. destruct E as [-> H].
    split; [symmetry; apply SizeOfLen_EncodeLen; exact H|].
    rewrite EncodeLen_length. destruct (n <=? 127); auto.
  - intros H. unfold WriteLen, SizeOfLen.
    destruct (Z.ltb_spec n 0); cbn [orb]; [reflexivity|].
    destruct (Z.ltb_spec MaxLen n); [reflexivity|]. lia.
Qed.

(** X3. What [WriteLen] writes, [ReadLen] reads back from the front of any
    stream: the same length, the number of bytes written as the number
    used, and the rest of the stream untouched. *)
Theorem WriteLen_ReadLen (n : Z) (b rest : list byte)
  (Hw : WriteLen n = Ok b) :
  ReadLen (b ++ rest) = Ok (n, len b, rest).
Proof.
  apply WriteLen_inv in Hw. destruct Hw as [-> H].
  rewrite ReadLen_EncodeLen by exact H.
  rewrite SizeOfLen_EncodeLen by exact H. reflexivity.
Qed.

Lemma WriteLen_ReadLen_witness :
  ReadLen ([0x59; 0x02; 0x00; 0x00] ++ [7]) = Ok (300, 4, [7]).
Proof.
  exact (WriteLen_ReadLen 300 [0x59; 0x02; 0x00; 0x00] [7] eq_refl).
Defined.

Lemma io_ReadFull_inv n rd b r' :
  io_ReadFull n rd = Ok (b, r') -> rd = b ++ r' /\ length b = Z.to_nat n.
Proof.
  unfold io_ReadFull.
  destruct (Nat.leb_spec (Z.to_nat n) (length rd)) as [H|H].
  - intros E. injection E as <- <-. split.
    + symmetry. apply firstn_skipn.
    + apply firstn_length_le, H.
  - destruct rd; discriminate.
Qed.

Lemma ReadLen_inv rd n used r' :
  ReadLen rd = Ok (n, used, r') ->
  exists pre, rd = pre ++ r' /\ len pre = used
              /\ (used = 1 \/ used = 4) /\ DecodeLen pre = (n, used).
Proof.
  unfold ReadLen.
  destruct (io_ReadFull 1 rd) as [[b r1]|] eqn:E1; [|discriminate].
  apply io_ReadFull_inv in E1. destruct E1 as [-> L1].
  destruct b as [|b0 [|? ?]]; try discriminate L1. cbn [bind nth].
  destruct (Z.land b0 1 =? 0) eqn:Eb.
  - cbn [DecodeLen]. rewrite Eb. intros E. injection E as <- <- <-.
    exists [b0]. cbn [DecodeLen]. rewrite Eb. repeat split; auto.
  - destruct (io_ReadFull 3 r1) as [[b' r2]|] eqn:E2; [|discriminate].
    apply io_ReadFull_inv in E2. destruct E2 as [-> L2]. cbn [bind].
    destruct (DecodeLen (b0 :: b')) as [m u] eqn:Ed.
    destruct (Z.ltb_spec m 0); [discriminate|].
    intros E. injection E as <- <- <-.
    exists (b0 :: b'). split; [reflexivity|].
    split; [unfold len; cbn [length]; rewrite L2; reflexivity|].
    split; [right; reflexivity|].
    destruct b' as [|b1 [|b2 [|b3 [|? ?]]]]; try discriminate L2.
    cbn [DecodeLen] in Ed |- *. rewrite Eb in Ed |- *.
    cbv zeta in Ed |- *.
    match type of Ed with context [if ?c then _ else _] => destruct c end;
      injection Ed as <- <-; [lia|reflexivity].
Qed.

Lemma ReadLen_bytes (rd : Reader) (Hb : Forall is_byte rd) :
  match ReadLen rd with
  | Ok (n, used, r') =>
      0 <= n <= MaxLen
      /\ exists pre, rd = pre ++ r' /\ len pre = used
                     /\ DecodeLen pre = (n, used)
  | Err e => e = io_EOF \/ e = io_ErrUnexpectedEOF
  end.
Proof.
  destruct (ReadLen rd) as [[[n used] r']|e] eqn:E.
  - apply ReadLen_inv in E. destruct E as [pre [-> [Hl [Hu Hd]]]].
    split; [|exists pre; auto].
    apply Forall_app in Hb. destruct Hb as [Hp _].
    destruct (DecodeLen_bytes pre Hp) as [D|[n' [u' [D [R _]]]]];
      rewrite D in Hd; injection Hd as <- <-; [lia|exact R].
  - unfold ReadLen in E.
    destruct (io_ReadFull 1 rd) as [[b r1]|e1] eqn:E1; cbn [bind] in E.
    2:{ injection E as <-. unfold io_ReadFull in E1.
        destruct (Z.to_nat 1 <=? length rd)%nat; [discriminate|].
        destruct rd; injection E1 as <-; auto. }
    pose proof E1 as E1'. apply io_ReadFull_inv in E1'.
    destruct E1' as [-> L1].
    destruct b as [|b0 [|? ?]]; try discriminate L1. cbn [nth] in E.
    destruct (Z.land b0 1 =? 0) eqn:Eb.
    { cbn [DecodeLen] in E. rewrite Eb in E. discriminate. }
    destruct (io_ReadFull 3 r1) as [[b' r2]|e2] eqn:E2; cbn [bind] in E.
    2:{ injection E as <-. unfold io_ReadFull in E2.
        destruct (Z.to_nat 3 <=? length r1)%nat; [discriminate|].
        destruct r1; injection E2 as <-; auto. }
    exfalso. apply io_ReadFull_inv in E2. destruct E2 as [-> L2].
    destruct b' as [|b1 [|b2 [|b3 [|? ?]]]]; try discriminate L2.
    inversion Hb as [|? ? H0 Hb1]; subst.
    inversion Hb1 as [|? ? H1 Hb2]; subst.
    inversion Hb2 as [|? ? H2 Hb3]; subst.
    inversion Hb3 as [|? ? H3 _]; subst.
    pose proof (DecodeLen_long_range b0 b1 b2 b3 H0 H1 H2 H3) as R.
    cbn [DecodeLen] in E. rewrite Eb in E. cbv zeta in E. unfold MaxLen in E.
    match type of E with context [if ?c || ?d then _ else _] =>
      destruct (Z.ltb_spec
                  (Z.lor (Z.lor (Z.lor (to_uint32 (Z.shiftr b0 1))
                                       (to_uint32 (Z.shiftl b1 7)))
                                (to_uint32 (Z.shiftl b2 15)))
                         (to_uint32 (Z.shiftl b3 23))) 0); [lia|];
      destruct (Z.ltb_spec (2 ^ 31 - 1)
                  (Z.lor (Z.lor (Z.lor (to_uint32 (Z.shiftr b0 1))
                                       (to_uint32 (Z.shiftl b1 7)))
                                (to_uint32 (Z.shiftl b2 15)))
                         (to_uint32 (Z.shiftl b3 23)))); [lia|]
    end.
    cbn [orb] in E.
    match type of E with context [if ?c then _ else _] =>
      destruct c eqn:Ec; [|discriminate] end.
    apply Z.ltb_lt in Ec. lia.
Qed.

(** X4. On a stream of bytes [ReadLen] fails only because the input ends
    ([io.EOF] or [io.ErrUnexpectedEOF]), never with an invalid length, and a
    length it returns is in [0, 2^31 - 1] and is what [DecodeLen] gives on
    the 1 or 4 bytes it consumed. *)
Theorem ReadLen_on_bytes (rd : Reader) (Hb : Forall is_byte rd) :
  match ReadLen rd with
  | Ok (n, used, r') =>
      0 <= n <= MaxLen
      /\ exists pre, rd = pre ++ r' /\ len pre = used
                     /\ DecodeLen pre = (n, used)
  | Err e => e = io_EOF \/ e = io_ErrUnexpectedEOF
  end.
Proof.
  exact (ReadLen_bytes rd Hb).
Qed.

Lemma ReadLen_on_bytes_witness :
  match ReadLen [0x0B; 0x00] with
  | Ok (n, used, r') =>
      0 <= n <= MaxLen
      /\ exists pre, [0x0B; 0x00] = pre ++ r' /\ len pre = used
                     /\ DecodeLen pre = (n, used)
  | Err e => e = io_EOF \/ e = io_ErrUnexpectedEOF
  end.
Proof.
  apply ReadLen_on_bytes. repeat constructor; unfold is_byte; lia.
Defined.

(** ** Fixed-size TLVs *)

Lemma to_uint32_small v : 0 <= v < 2 ^ 32 -> to_uint32 v = v.
Proof. intros H. unfold to_uint32. apply Z.mod_small. exact H. Qed.

Lemma Uint16_PutUint16 v : 0 <= v < 2 ^ 16 -> Uint16 (PutUint16 v) = v.
Proof.
  intros Hv. unfold Uint16, PutUint16, to_uint16. cbn [nth].
  bits_solve v 16.
Qed.

Lemma Uint64_PutUint64 v : 0 <= v < 2 ^ 64 -> Uint64 (PutUint64 v) = v.
Proof.
  intros Hv. unfold Uint64, PutUint64, to_uint64. cbn [nth].
  bits_solve v 64.
Qed.

Lemma to_int8_to_byte v : - 2 ^ 7 <= v < 2 ^ 7 -> to_int8 (to_byte v) = v.
Proof.
  unfold to_int8, to_byte. change (2 ^ 7) with 128. change (2 ^ 8) with 256.
  intros H. Z.div_mod_to_equations. lia.
Qed.

Lemma to_int16_to_uint16 v :
  - 2 ^ 15 <= v < 2 ^ 15 -> to_int16 (to_uint16 v) = v.
Proof.
  unfold to_int16, to_uint16.
  change (2 ^ 15) with 32768. change (2 ^ 16) with 65536.
  intros H. Z.div_mod_to_equations. lia.
Qed.

Lemma to_int32_to_uint32 v :
  - 2 ^ 31 <= v < 2 ^ 31 -> to_int32 (to_uint32 v) = v.
Proof.
  unfold to_int32, to_uint32.
  change (2 ^ 31) with 2147483648. change (2 ^ 32) with 4294967296.
  intros H. Z.div_mod_to_equations. lia.
Qed.

Lemma to_int64_to_uint64 v :
  - 2 ^ 63 <= v < 2 ^ 63 -> to_int64 (to_uint64 v) = v.
Proof.
  unfold to_int64, to_uint64.
  change (2 ^ 63) with 9223372036854775808.
  change (2 ^ 64) with 18446744073709551616.
  intros H. Z.div_mod_to_equations. lia.
Qed.

Lemma to_uint_range x k : 0 < k -> 0 <= x mod 2 ^ k < 2 ^ k.
Proof. intros H. apply Z.mod_pos_bound. apply Z.pow_pos_nonneg; lia. Qed.

Ltac fixed_write :=
  rewrite WriteType_ok by reflexivity; cbn [bind app].

Ltac fixed_read :=
  cbn [app]; rewrite ReadType_cons by reflexivity;
  cbn [bind Z.eqb Pos.eqb negb];
  rewrite io_ReadFull_app by reflexivity; cbn [bind nth].

(** X5. The unsigned fixed-size TLVs round-trip: for a value of its type,
    each writer emits its type byte and the little-endian bytes of the
    value, and the matching reader gives the value back and leaves the rest
    of the stream; so does the timestamp, an unsigned 64-bit count. *)
Theorem unsigned_TLV_roundtrip (rest : list byte) :
  (forall v, 0 <= v < 2 ^ 8 ->
     WriteU8TLV v = Ok [0x02; v]
     /\ ReadU8TLV ([0x02; v] ++ rest) = Ok (v, rest))
  /\ (forall v, 0 <= v < 2 ^ 16 ->
     WriteU16TLV v = Ok (0x03 :: PutUint16 v)
     /\ ReadU16TLV ((0x03 :: PutUint16 v) ++ rest) = Ok (v, rest))
  /\ (forall v, 0 <= v < 2 ^ 32 ->
     WriteU32TLV v = Ok (0x04 :: PutUint32 v)
     /\ ReadU32TLV ((0x04 :: PutUint32 v) ++ rest) = Ok (v, rest))
  /\ (forall v, 0 <= v < 2 ^ 64 ->
     WriteU64TLV v = Ok (0x05 :: PutUint64 v)
     /\ ReadU64TLV ((0x05 :: PutUint64 v) ++ rest) = Ok (v, rest))
  /\ (forall v, 0 <= v < 2 ^ 64 ->
     WriteTimestampTLV v = Ok (0x13 :: PutUint64 v)
     /\ ReadTimestampTLV ((0x13 :: PutUint64 v) ++ rest) = Ok (v, rest)).
Proof.
  repeat split.
  - unfold WriteU8TLV. fixed_write. rewrite to_byte_small by (cbn in *; lia).
    reflexivity.
  - unfold ReadU16TLV. fixed_read. rewrite Uint16_PutUint16 by assumption.
    reflexivity.
  - unfold ReadU32TLV. fixed_read.
    rewrite <- (to_uint32_small v) at 1 by assumption.
    rewrite Uint32_PutUint32 by assumption. reflexivity.
  - unfold ReadU64TLV. fixed_read. rewrite Uint64_PutUint64 by assumption.
    reflexivity.
  - unfold ReadTimestampTLV. fixed_read.
    rewrite Uint64_PutUint64 by assumption. reflexivity.
Qed.

(** X6. The signed fixed-size TLVs round-trip through two's complement:
    the writer stores the value converted to the unsigned type of the same
    width, the reader converts back, and every value of the signed type
    comes back unchanged. *)
Theorem signed_TLV_roundtrip (rest : list byte) :
  (forall v, - 2 ^ 7 <= v < 2 ^ 7 ->
     WriteI8TLV v = Ok [0x07; to_byte v]
     /\ ReadI8TLV ([0x07; to_byte v] ++ rest) = Ok (v, rest))
  /\ (forall v, - 2 ^ 15 <= v < 2 ^ 15 ->
     WriteI16TLV v = Ok (0x08 :: PutUint16 (to_uint16 v))
     /\ ReadI16TLV ((0x08 :: PutUint16 (to_uint16 v)) ++ rest) = Ok (v, rest))
  /\ (forall v, - 2 ^ 31 <= v < 2 ^ 31 ->
     WriteI32TLV v = Ok (0x09 :: PutUint32 (to_uint32 v))
     /\ ReadI32TLV ((0x09 :: PutUint32 (to_uint32 v)) ++ rest) = Ok (v, rest))
  /\ (forall v, - 2 ^ 63 <= v < 2 ^ 63 ->
     WriteI64TLV v = Ok (0x0A :: PutUint64 (to_uint64 v))
     /\ ReadI64TLV ((0x0A :: PutUint64 (to_uint64 v)) ++ rest) = Ok (v, rest)).
Proof.
  repeat split.
  - unfold ReadI8TLV. cbn [app]. rewrite ReadType_cons by reflexivity.
    cbn [bind Z.eqb Pos.eqb negb].
    change (to_byte v :: rest) with ([to_byte v] ++ rest).
    rewrite io_ReadFull_app by reflexivity. cbn [bind nth].
    rewrite to_int8_to_byte by assumption. reflexivity.
  - unfold ReadI16TLV. fixed_read.
    rewrite Uint16_PutUint16 by (apply to_uint_range; lia).
    rewrite to_int16_to_uint16 by assumption. reflexivity.
  - unfold ReadI32TLV. fixed_read.
    rewrite <- (to_uint32_small (to_uint32 v)) at 1
      by (apply to_uint_range; lia).
    rewrite Uint32_PutUint32 by (apply to_uint_range; lia).
    rewrite to_int32_to_uint32 by assumption. reflexivity.
  - unfold ReadI64TLV. fixed_read.
    rewrite Uint64_PutUint64 by (apply to_uint_range; lia).
    rewrite to_int64_to_uint64 by assumption. reflexivity.
Qed.

(** X7. The 128-bit containers and Null: sixteen raw bytes are written
    after the type byte as they are and read back as they are; Null is the
    type byte alone. *)
Theorem raw_TLV_roundtrip (rest : list byte) :
  (forall v, length v = 16%nat ->
     WriteU128TLV v = Ok (0x06 :: v)
     /\ ReadU128TLV ((0x06 :: v) ++ rest) = Ok (v, rest))
  /\ (forall v, length v = 16%nat ->
     WriteI128TLV v = Ok (0x0B :: v)
     /\ ReadI128TLV ((0x0B :: v) ++ rest) = Ok (v, rest))
  /\ WriteNullTLV = Ok [0x00]
  /\ ReadNullTLV ([0x00] ++ rest) = Ok rest.
Proof.
  repeat split.
  - unfold ReadU128TLV. cbn [app]. rewrite ReadType_cons by reflexivity.
    cbn [bind Z.eqb Pos.eqb negb].
    rewrite io_ReadFull_app by (unfold len; lia). reflexivity.
  - unfold ReadI128TLV. cbn [app]. rewrite ReadType_cons by reflexivity.
    cbn [bind Z.eqb Pos.eqb negb].
    rewrite io_ReadFull_app by (unfold len; lia). reflexivity.
Qed.

Lemma bool_byte_cases b :
  b = 0x00 \/ b = 0xFF
  \/ (b <> 0x00 /\ b <> 0xFF /\
      forall A (x y z : A),
        match b with 0x00 => x | 0xFF => y | _ => z end = z).
Proof.
  destruct (Z.eq_dec b 0) as [->|H0]; [auto|].
  destruct (Z.eq_dec b 255) as [->|H1]; [auto|].
  right. right. repeat split; auto. intros A x y z.
  destruct b as [|p|p]; [contradiction|  |reflexivity].
  do 8 (destruct p as [p|p|]; try reflexivity).
  exfalso. apply H1. reflexivity.
Qed.

(** X8. The Bool TLV is strict: [WriteBoolTLV] emits 01 FF for true and
    01 00 for false and [ReadBoolTLV] reads them back, while a content byte
    other than 00 and FF is rejected as an invalid bool value. *)
Theorem BoolTLV_strict (rest : list byte) :
  WriteBoolTLV true = Ok [0x01; 0xFF]
  /\ WriteBoolTLV false = Ok [0x01; 0x00]
  /\ ReadBoolTLV ([0x01; 0xFF] ++ rest) = Ok (true, rest)
  /\ ReadBoolTLV ([0x01; 0x00] ++ rest) = Ok (false, rest)
  /\ (forall v, exists b,
         WriteBoolTLV v = Ok b /\ ReadBoolTLV (b ++ rest) = Ok (v, rest))
  /\ (forall c, c <> 0x00 -> c <> 0xFF ->
        ReadBoolTLV (0x01 :: c :: rest)
        = Err (PlainError "invalid bool value")).
Proof.
  split; [reflexivity|]. split; [reflexivity|].
  split; [reflexivity|]. split; [reflexivity|]. split.
  - intros v. eexists. split; [reflexivity|]. destruct v; reflexivity.
  - intros c H0 H1. unfold ReadBoolTLV.
    rewrite ReadType_cons by reflexivity. cbn [bind Z.eqb Pos.eqb negb].
    change (c :: rest) with ([c] ++ rest).
    rewrite io_ReadFull_app by reflexivity. cbn [bind nth].
    destruct (bool_byte_cases c) as [->|[->|[_ [_ H]]]];
      [contradiction|contradiction|apply H].
Qed.

(** ** The String TLV *)

(** X9. [WriteStringTLV] accepts exactly the strings that are valid UTF-8
    and no longer than 2^31 - 1 bytes; it then writes 0E, the length prefix
    and the bytes, and [ReadStringTLV] returns the string and the rest of
    the stream. *)
Theorem StringTLV_roundtrip (s : gostring) (rest : list byte) :
  (is_ok (WriteStringTLV s) = true
   <-> utf8_Valid s = true /\ len s <= MaxLen)
  /\ (forall b, WriteStringTLV s = Ok b ->
        b = 0x0E :: EncodeLen (len s) ++ s
        /\ ReadStringTLV (b ++ rest) = Ok (s, rest)).
Proof.
  split; [split|].
  - destruct (WriteStringTLV s) as [b|] eqn:E; [|discriminate].
    intros _. apply WriteStringTLV_inv in E. tauto.
  - intros [Hv Hl]. unfold WriteStringTLV. rewrite Hv. cbn [negb].
    rewrite WriteType_ok by reflexivity. cbn [bind].
    pose proof (len_nonneg s).
    rewrite WriteLen_ok by lia. cbn [bind].
    destruct (len s =? 0); reflexivity.
  - intros b E. pose proof E as E'. apply WriteStringTLV_inv in E'.
    destruct E' as [-> _]. split; [reflexivity|].
    destruct (decode_string s (VString []) rest _ E) as [D _].
    cbn [decodeElem] in D.
    destruct (ReadStringTLV _) as [[s' r']|]; [|discriminate].
    cbn [bind] in D. injection D as -> ->. reflexivity.
Qed.

(** X10. A string that [ReadStringTLV] returns from a stream of bytes is
    valid UTF-8 and at most 2^31 - 1 bytes long, and the stream is the type
    byte 0E, a length prefix of 1 or 4 bytes, the string and the rest. *)
Theorem ReadStringTLV_valid (rd : Reader) (s : gostring) (r' : Reader)
  (Hb : Forall is_byte rd)
  (Hr : ReadStringTLV rd = Ok (s, r')) :
  utf8_Valid s = true /\ len s <= MaxLen
  /\ exists pre, rd = 0x0E :: pre ++ s ++ r' /\ (len pre = 1 \/ len pre = 4).
Proof.
  unfold ReadStringTLV in Hr.
  destruct (ReadType rd) as [[t r1]|] eqn:Et; [|discriminate].
  apply ReadType_inv in Et. destruct Et as [-> _]. cbn [bind] in Hr.
  destruct (Z.eqb_spec t 14) as [->|]; [|discriminate]. cbn [negb] in Hr.
  inversion Hb as [|? ? _ Hb1]; subst.
  pose proof (ReadLen_bytes r1 Hb1) as Hrl.
  destruct (ReadLen r1) as [[[n used] r2]|] eqn:El; [|discriminate].
  destruct Hrl as [Hn _].
  apply ReadLen_inv in El. destruct El as [pre [-> [Hl [Hu _]]]].
  cbn [bind] in Hr. destruct (Z.eqb_spec n 0) as [->|Hn0].
  - injection Hr as <- <-. unfold MaxLen. repeat split; [cbn; lia|].
    exists pre. split; [reflexivity|]. lia.
  - destruct (ReadFull n r2) as [[buf r3]|] eqn:Ef; [|discriminate].
    cbn [bind] in Hr. destruct (utf8_Valid buf) eqn:Ev; [|discriminate].
    injection Hr as <- <-.
    apply ReadFull_inv in Ef. destruct Ef as [-> Lb].
    assert (len buf = n) by (unfold len; lia).
    repeat split; [exact Ev|lia|].
    exists pre. split; [reflexivity|]. lia.
Qed.

Lemma ReadStringTLV_valid_witness :
  utf8_Valid [104; 105] = true /\ len [104; 105] <= MaxLen
  /\ exists pre, [0x0E; 0x04; 104; 105; 7] = 0x0E :: pre ++ [104; 105] ++ [7]
                 /\ (len pre = 1 \/ len pre = 4).
Proof.
  apply (ReadStringTLV_valid [0x0E; 0x04; 104; 105; 7] [104; 105] [7]).
  - repeat constructor; unfold is_byte; lia.
  - reflexivity.
Defined.

(** ** Composite framing *)

(** X11. Struct framing: the writer fails with the closure's error before
    writing anything; otherwise it succeeds exactly when the staged fields
    fit in 2^31 - 1 bytes and writes 11, the length of the staged bytes and
    the staged bytes; [ReadStructTLV] gives the staged bytes back, the empty
    payload included. *)
Theorem StructTLV_framing (buf rest : list byte) :
  (forall e, WriteStructTLV (Err e) = Err e)
  /\ (is_ok (WriteStructTLV (Ok buf)) = true <-> len buf <= MaxLen)
  /\ (forall b, WriteStructTLV (Ok buf) = Ok b ->
        b = 0x11 :: EncodeLen (len buf) ++ buf
        /\ ReadStructTLV (b ++ rest) = Ok (buf, rest)).
Proof.
  pose proof (len_nonneg buf) as Hn.
  assert (W : forall b, WriteStructTLV (Ok buf) = Ok b ->
                        b = 0x11 :: EncodeLen (len buf) ++ buf
                        /\ len buf <= MaxLen).
  { intros b. unfold WriteStructTLV. cbn [bind].
    rewrite WriteType_ok by reflexivity. cbn [bind].
    destruct (WriteLen (len buf)) as [l|] eqn:El; [|discriminate].
    apply WriteLen_inv in El. destruct El as [-> Hl]. cbn [bind].
    intros E. injection E as <-. split; [reflexivity|lia]. }
  split; [reflexivity|]. split; [split|].
  - destruct (WriteStructTLV (Ok buf)) as [b|] eqn:E; [|discriminate].
    intros _. apply (W b eq_refl).
  - intros Hl. unfold WriteStructTLV. cbn [bind].
    rewrite WriteType_ok by reflexivity. cbn [bind].
    rewrite WriteLen_ok by lia. reflexivity.
  - intros b E. destruct (W b E) as [-> Hl]. split; [reflexivity|].
    unfold ReadStructTLV. cbn [app].
    rewrite ReadType_cons by reflexivity. cbn [bind Z.eqb Pos.eqb negb].
    rewrite <- app_assoc. rewrite ReadLen_EncodeLen by lia. cbn [bind].
    destruct (Z.eqb_spec (len buf) 0) as [E0|E0].
    + destruct buf; [reflexivity|]. rewrite len_cons in E0.
      pose proof (len_nonneg buf). lia.
    + apply ReadFull_app. reflexivity.
Qed.

(** X12. Array framing: with an element type byte whose top bit is clear
    the writer emits 0F, the length of the element type byte plus the staged
    elements, the element type byte and the elements, and [ReadArrayTLV]
    returns the element type and the elements; with the top bit set the
    writer refuses whatever the closure does and the reader refuses the
    frame; a declared length of 0 is too short. *)
Theorem ArrayTLV_framing (et : byte) (elems rest : list byte)
  (Hlen : 1 + len elems <= MaxLen) :
  (Z.land et 0x80 = 0 ->
     WriteArrayTLV et (Ok elems)
     = Ok (0x0F :: EncodeLen (1 + len elems) ++ et :: elems)
     /\ ReadArrayTLV (0x0F :: EncodeLen (1 + len elems) ++ et :: elems ++ rest)
        = Ok (et, elems, rest))
  /\ (Z.land et 0x80 <> 0 ->
     (forall w, WriteArrayTLV et w = Err errInvalidTypeID)
     /\ ReadArrayTLV (0x0F :: EncodeLen (1 + len elems) ++ et :: elems ++ rest)
        = Err errInvalidTypeID)
  /\ ReadArrayTLV (0x0F :: 0x00 :: rest)
     = Err (PlainError "array content too short").
Proof.
  pose proof (len_nonneg elems) as Hn.
  assert (R : ReadArrayTLV (0x0F :: EncodeLen (1 + len elems) ++ et :: elems ++ rest)
              = if negb (Z.land et 0x80 =? 0) then Err errInvalidTypeID
                else Ok (et, elems, rest)).
  { unfold ReadArrayTLV. rewrite ReadType_cons by reflexivity.
    cbn [bind Z.eqb Pos.eqb negb].
    rewrite ReadLen_EncodeLen by lia. cbn [bind].
    destruct (Z.ltb_spec (1 + len elems) 1); [lia|].
    change (et :: elems ++ rest) with ((et :: elems) ++ rest).
    rewrite ReadFull_app by (rewrite len_cons; reflexivity).
    cbn [bind nth skipn]. reflexivity. }
  repeat split.
  - unfold WriteArrayTLV. rewrite H. cbn [Z.eqb negb].
    rewrite WriteType_ok by exact H. cbn [bind].
    rewrite WriteType_ok by reflexivity. cbn [bind app].
    rewrite len_cons. rewrite WriteLen_ok by lia. reflexivity.
  - rewrite R, H. reflexivity.
  - intros w. unfold WriteArrayTLV.
    destruct (Z.eqb_spec (Z.land et 128) 0); [contradiction|reflexivity].
  - rewrite R. destruct (Z.eqb_spec (Z.land et 128) 0); [contradiction|reflexivity].
Qed.

Lemma ArrayTLV_framing_witness :
  ReadArrayTLV (0x0F :: EncodeLen (1 + len [1; 0; 2; 0]) ++ 0x03 :: [1; 0; 2; 0] ++ [9])
  = Ok (0x03, [1; 0; 2; 0], [9]).
Proof.
  assert (H : 1 + len [1; 0; 2; 0] <= MaxLen) by (vm_compute; discriminate).
  exact (proj2 (proj1 (ArrayTLV_framing 0x03 [1; 0; 2; 0] [9] H) eq_refl)).
Defined.

(** X13. Enum framing: with a variant id whose top bit is clear the writer
    emits 12, the length of the id byte plus the staged value, the id and
    the value, and [ReadEnumTLV] returns the id and the value bytes; with
    the top bit set the writer refuses whatever the closure does and the
    reader refuses the frame; a declared length of 0 is too short. *)
Theorem EnumTLV_framing (vid : byte) (body rest : list byte)
  (Hlen : 1 + len body <= MaxLen) :
  (Z.land vid 0x80 = 0 ->
     WriteEnumTLV vid (Ok body)
     = Ok (0x12 :: EncodeLen (1 + len body) ++ vid :: body)
     /\ ReadEnumTLV (0x12 :: EncodeLen (1 + len body) ++ vid :: body ++ rest)
        = Ok (vid, body, rest))
  /\ (Z.land vid 0x80 <> 0 ->
     (forall w, WriteEnumTLV vid w = Err errInvalidTypeID)
     /\ ReadEnumTLV (0x12 :: EncodeLen (1 + len body) ++ vid :: body ++ rest)
        = Err errInvalidTypeID)
  /\ ReadEnumTLV (0x12 :: 0x00 :: rest)
     = Err (PlainError "enum content too short").
Proof.
  pose proof (len_nonneg body) as Hn.
  assert (R : ReadEnumTLV (0x12 :: EncodeLen (1 + len body) ++ vid :: body ++ rest)
              = if negb (Z.land vid 0x80 =? 0) then Err errInvalidTypeID
                else Ok (vid, body, rest)).
  { unfold ReadEnumTLV. rewrite ReadType_cons by reflexivity.
    cbn [bind Z.eqb Pos.eqb negb].
    rewrite ReadLen_EncodeLen by lia. cbn [bind].
    destruct (Z.ltb_spec (1 + len body) 1); [lia|].
    change (vid :: body ++ rest) with ((vid :: body) ++ rest).
    rewrite ReadFull_app by (rewrite len_cons; reflexivity).
    cbn [bind nth skipn]. reflexivity. }
  repeat split.
  - unfold WriteEnumTLV. rewrite H. cbn [Z.eqb negb bind].
    rewrite WriteType_ok by reflexivity. cbn [bind app].
    rewrite len_cons. rewrite WriteLen_ok by lia. reflexivity.
  - rewrite R, H. reflexivity.
  - intros w. unfold WriteEnumTLV.
    destruct (Z.eqb_spec (Z.land vid 128) 0); [contradiction|reflexivity].
  - rewrite R. destruct (Z.eqb_spec (Z.land vid 128) 0); [contradiction|reflexivity].
Qed.

Lemma EnumTLV_framing_witness :
  ReadEnumTLV (0x12 :: EncodeLen (1 + len [0x04; 0x0A; 0; 0; 0])
                    ++ 0x00 :: [0x04; 0x0A; 0; 0; 0] ++ [])
  = Ok (0x00, [0x04; 0x0A; 0; 0; 0], []).
Proof.
  assert (H : 1 + len [0x04; 0x0A; 0; 0; 0] <= MaxLen)
    by (vm_compute; discriminate).
  exact (proj2 (proj1 (EnumTLV_framing 0x00 [0x04; 0x0A; 0; 0; 0] [] H) eq_refl)).
Defined.

(** ** The [ReadFull] loop *)

Lemma readFullLoop_bytes rounds s need acc :
  (need <= rounds)%nat ->
  readFullLoop (list byte) bytesReaderRead rounds s need acc
  = if (need <=? length s)%nat
    then Ok (acc ++ firstn need s, skipn need s)
    else Err io_EOF.
Proof.
  intros Hr. destruct need as [|m].
  - cbn. destruct rounds; cbn; rewrite app_nil_r; reflexivity.
  - destruct rounds as [|rounds]; [lia|].
    destruct s as [|b s].
    + reflexivity.
    + cbn [readFullLoop bytesReaderRead].
      remember (Datatypes.S m) as need eqn:En.
      assert (Hl : length (firstn need (b :: s)) = Nat.min need (length (b :: s)))
        by apply length_firstn.
      destruct (Nat.leb_spec need (length (b :: s))) as [Hle|Hgt].
      * rewrite Nat.min_l in Hl by exact Hle. rewrite Hl.
        destruct (Nat.eqb_spec need 0); [lia|].
        rewrite Nat.sub_diag. destruct rounds; reflexivity.
      * rewrite Nat.min_r in Hl by lia. rewrite Hl.
        cbn [length]. cbn [length] in Hgt.
        destruct (Nat.eqb_spec (Datatypes.S (length s)) 0); [lia|].
        rewrite skipn_all2 by (cbn [length]; lia).
        destruct rounds as [|rounds]; [lia|].
        destruct (need - Datatypes.S (length s))%nat as [|k] eqn:Ek; [lia|].
        reflexivity.
Qed.

(** X14. Over a reader on a byte slice, the [ReadFull] loop of binary.go
    returns the next [n] bytes and leaves the rest, or fails with [io.EOF]
    when fewer than [n] bytes are left: it is the function [ReadFull] that
    the decoders above are stated with. *)
Theorem ReadFull_loop_on_bytes (n : Z) (rd : Reader) (Hn : 0 <= n) :
  ReadFullOver (list byte) bytesReaderRead rd (Z.to_nat n) = ReadFull n rd.
Proof.
  unfold ReadFullOver, ReadFull.
  rewrite readFullLoop_bytes by lia. reflexivity.
Qed.

Lemma ReadFull_loop_on_bytes_witness :
  ReadFullOver (list byte) bytesReaderRead [1; 2; 3] (Z.to_nat 2)
  = ReadFull 2 [1; 2; 3].
Proof. apply ReadFull_loop_on_bytes. lia. Defined.

Section AnyReader.
Variable S : Type.
Variable Read : S -> nat -> list byte * option error * S.

(** The contract of [io.Reader]: no more bytes than asked for. *)
Hypothesis Read_bound :
  forall s k, (length (fst (fst (Read s k))) <= k)%nat.

Lemma readFullLoop_length rounds :
  forall s need acc buf s',
    readFullLoop S Read rounds s need acc = Ok (buf, s') ->
    length buf = (length acc + need)%nat.
Proof.
  induction rounds as [|rounds IH]; intros s need acc buf s'.
  - destruct need; cbn; [|discriminate].
    intros E. injection E as <- <-. lia.
  - destruct need as [|m]; cbn [readFullLoop].
    { intros E. injection E as <- <-. lia. }
    pose proof (Read_bound s (Datatypes.S m)) as Hb.
    destruct (Read s (Datatypes.S m)) as [[chunk err] s1]. cbn [fst] in Hb.
    destruct err as [e|].
    + destruct (Nat.eqb_spec (length chunk) (Datatypes.S m)); [|discriminate].
      intros E. injection E as <- <-. rewrite length_app. lia.
    + destruct (Nat.eqb_spec (length chunk) 0); [discriminate|].
      intros E. apply IH in E. rewrite length_app in E. lia.
Qed.

Lemma readFullLoop_rounds rounds :
  forall r1 r2 s need acc,
    (need <= r1 <= rounds)%nat -> (need <= r2 <= rounds)%nat ->
    readFullLoop S Read r1 s need acc = readFullLoop S Read r2 s need acc.
Proof.
  induction rounds as [|rounds IH]; intros r1 r2 s need acc H1 H2.
  - assert (r1 = 0%nat) by lia. assert (r2 = 0%nat) by lia. subst. reflexivity.
  - destruct need as [|m].
    { destruct r1, r2; reflexivity. }
    destruct r1 as [|r1]; [lia|]. destruct r2 as [|r2]; [lia|].
    cbn [readFullLoop].
    pose proof (Read_bound s (Datatypes.S m)) as Hb.
    destruct (Read s (Datatypes.S m)) as [[chunk err] s1]. cbn [fst] in Hb.
    destruct err as [e|]; [reflexivity|].
    destruct (Nat.eqb_spec (length chunk) 0); [reflexivity|].
    apply IH; lia.
Qed.

(** X15. For any reader that returns no more bytes than it is asked for:
    when the [ReadFull] loop succeeds it has stored exactly [n] bytes; a
    first [Read] that stores nothing and reports no error ends the loop
    with [io.ErrUnexpectedEOF]; an error that comes with the last missing
    bytes is dropped; and running the loop for more than [n] rounds
    changes nothing. *)
Theorem ReadFull_loop_any_reader (s : S) (n : nat) :
  (forall buf s', ReadFullOver S Read s n = Ok (buf, s') -> length buf = n)
  /\ (forall s', (0 < n)%nat -> Read s n = ([], None, s') ->
        ReadFullOver S Read s n = Err io_ErrUnexpectedEOF)
  /\ (forall chunk e s', (0 < n)%nat -> length chunk = n ->
        Read s n = (chunk, Some e, s') ->
        ReadFullOver S Read s n = Ok (chunk, s'))
  /\ (forall rounds, (n <= rounds)%nat ->
        readFullLoop S Read rounds s n [] = ReadFullOver S Read s n).
Proof.
  unfold ReadFullOver. repeat split.
  - intros buf s' E. apply readFullLoop_length in E. cbn in E. lia.
  - intros s' Hn E. destruct n as [|m]; [lia|].
    cbn [readFullLoop]. rewrite E. reflexivity.
  - intros chunk e s' Hn Hl E. destruct n as [|m]; [lia|].
    cbn [readFullLoop]. rewrite E. rewrite Hl, Nat.eqb_refl. reflexivity.
  - intros rounds Hr. apply (readFullLoop_rounds rounds); lia.
Qed.
End AnyReader.

Lemma ReadFull_loop_any_reader_witness :
  readFullLoop (list byte) bytesReaderRead 5 [1; 2; 3] 2 []
  = ReadFullOver (list byte) bytesReaderRead [1; 2; 3] 2.
Proof.
  refine (proj2 (proj2 (proj2 (ReadFull_loop_any_reader (list byte)
                                 bytesReaderRead _ [1; 2; 3] 2%nat)))
                5%nat _).
  - intros s k. destruct s as [|b s]; cbn [bytesReaderRead fst].
    + cbn. lia.
    + rewrite length_firstn. lia.
  - lia.
Defined.

(** ** What [readTLVBytes] returns *)

Lemma EncodeLen_length_nat n :
  length (EncodeLen n) = 1%nat \/ length (EncodeLen n) = 4%nat.
Proof. unfold EncodeLen. destruct (n <=? 127); auto. Qed.

Lemma hdr_length n used :
  used = 1 \/ used = 4 ->
  length (firstn (Z.to_nat used)
            (EncodeLen n ++ repeat 0 (4 - length (EncodeLen n))))
  = Z.to_nat used.
Proof.
  intros Hu. apply firstn_length_le.
  rewrite length_app, repeat_length.
  destruct (EncodeLen_length_nat n) as [-> | ->]; destruct Hu; subst; cbn; lia.
Qed.

(** ** The cases of [readTLVBytes] *)





(** X16. When [readTLVBytes] succeeds, the input is the type byte, some
    bytes and the rest that it leaves, and the TLV it returns starts with
    that type byte and has exactly as many bytes as were consumed. *)
Theorem readTLVBytes_consumed (rd : Reader) (tlv rest : list byte)
  (H : readTLVBytes rd = Ok (tlv, rest)) :
  exists t pre body,
    rd = (t :: pre) ++ rest /\ tlv = t :: body
    /\ length body = length pre /\ Z.land t 0x80 = 0.
Proof.
  unfold readTLVBytes in H.
  destruct (ReadType rd) as [[t r1]|] eqn:Et; [|discriminate].
  apply ReadType_inv in Et. destruct Et as [-> Ht]. cbn [bind] in H.
  destruct (FixedSize t) as [n ok]. destruct ok.
  - destruct (n =? 0).
    + injection H as <- <-. exists t, [], []. auto.
    + destruct (ReadFull n r1) as [[content r2]|] eqn:Ef; [|discriminate].
      cbn [bind] in H. injection H as <- <-.
      apply ReadFull_inv in Ef. destruct Ef as [-> _].
      exists t, content, content. auto.
  - destruct (ReadLen r1) as [[[m used] r2]|] eqn:El; [|discriminate].
    apply ReadLen_inv in El. destruct El as [pre [-> [Hl [Hu _]]]].
    cbn [bind] in H.
    assert (Hh : length (firstn (Z.to_nat used)
                   (EncodeLen m ++ repeat 0 (4 - length (EncodeLen m))))
                 = length pre).
    { rewrite hdr_length by exact Hu. unfold len in Hl. lia. }
    destruct (0 <? m).
    + destruct (ReadFull m r2) as [[content r3]|] eqn:Ef; [|discriminate].
      cbn [bind] in H. injection H as <- <-.
      apply ReadFull_inv in Ef. destruct Ef as [-> _].
      exists t, (pre ++ content), (firstn (Z.to_nat used)
        (EncodeLen m ++ repeat 0 (4 - length (EncodeLen m))) ++ content).
      repeat split; auto.
      * cbn [app]. rewrite <- app_assoc. reflexivity.
      * rewrite !length_app. lia.
    + injection H as <- <-.
      exists t, pre, (firstn (Z.to_nat used)
        (EncodeLen m ++ repeat 0 (4 - length (EncodeLen m)))).
      repeat split; auto.
Qed.

Lemma readTLVBytes_consumed_witness :
  exists t pre body,
    [0x0E; 11; 0; 0; 0; 104; 101; 108; 108; 111; 9] = (t :: pre) ++ [9]
    /\ [0x0E; 10; 0; 0; 0; 104; 101; 108; 108; 111] = t :: body
    /\ length body = length pre /\ Z.land t 0x80 = 0.
Proof.
  exact (readTLVBytes_consumed
           [0x0E; 11; 0; 0; 0; 104; 101; 108; 108; 111; 9]
           [0x0E; 10; 0; 0; 0; 104; 101; 108; 108; 111] [9] eq_refl).
Defined.

Lemma ReadLen_long_small n rest :
  0 <= n <= 127 ->
  ReadLen ([2 * n + 1; 0; 0; 0] ++ rest) = Ok (n, 4, rest).
Proof.
  intros Hn. unfold ReadLen. cbn [app].
  change ((2 * n + 1) :: 0 :: 0 :: 0 :: rest)
    with ([2 * n + 1] ++ [0; 0; 0] ++ rest).
  rewrite io_ReadFull_app by reflexivity. cbn [bind nth].
  assert (Hb : Z.land (2 * n + 1) 1 = 1).
  { change 1 with (Z.ones 1) at 2. rewrite Z.land_ones by lia.
    change (2 ^ 1) with 2. Z.div_mod_to_equations. lia. }
  rewrite Hb. cbn [Z.eqb].
  rewrite io_ReadFull_app by reflexivity. cbn [bind DecodeLen].
  rewrite Hb. cbn [Z.eqb]. cbv zeta.
  assert (Hs : Z.shiftr (2 * n + 1) 1 = n).
  { rewrite Z.shiftr_div_pow2 by lia. change (2 ^ 1) with 2.
    Z.div_mod_to_equations. lia. }
  rewrite Hs. unfold to_uint32. cbn [Z.shiftl]. rewrite Z.mod_0_l by lia.
  rewrite !Z.lor_0_r. rewrite Z.mod_small by lia. unfold MaxLen.
  destruct (Z.ltb_spec n 0); [lia|].
  destruct (Z.ltb_spec (2 ^ 31 - 1) n); [lia|]. cbn [orb].
  destruct (Z.ltb_spec n 0); [lia|]. reflexivity.
Qed.

Lemma EncodeLen_small n : 0 <= n <= 127 -> EncodeLen n = [2 * n].
Proof.
  intros H. unfold EncodeLen. destruct (Z.leb_spec n 127); [|lia].
  rewrite EncodeLen_short_byte by lia. reflexivity.
Qed.

(** X17. A length below 128 may arrive in the four-byte form.  Read on its
    own, such a string TLV gives its content.  Read as a struct field it
    goes through [readTLVBytes], which writes the length again in one byte
    but keeps four header bytes, so that the field receives three zero
    bytes followed by the content, cut to the declared length. *)
Theorem nonminimal_length_prefix (n : Z) (content rest : list byte)
  (Hn : 0 <= n <= 127) (Hc : len content = n) :
  readTLVBytes (0x0E :: [2 * n + 1; 0; 0; 0] ++ content ++ rest)
  = Ok (0x0E :: [2 * n; 0; 0; 0] ++ content, rest)
  /\ (utf8_Valid content = true ->
      ReadStringTLV (0x0E :: [2 * n + 1; 0; 0; 0] ++ content ++ rest)
      = Ok (content, rest))
  /\ (utf8_Valid (firstn (Z.to_nat n) (0 :: 0 :: 0 :: content)) = true ->
      decodeElem (TStruct [(TagParts (Some 0) false false, TString)])
                 (VStruct [VString []])
                 (0x11 :: EncodeLen (6 + n)
                       ++ (0x00 :: 0x0E :: [2 * n + 1; 0; 0; 0] ++ content)
                       ++ rest)
      = Ok (VStruct [VString (firstn (Z.to_nat n) (0 :: 0 :: 0 :: content))],
            rest)).
Proof.
  assert (R : forall rest',
             readTLVBytes (0x0E :: [2 * n + 1; 0; 0; 0] ++ content ++ rest')
             = Ok (0x0E :: [2 * n; 0; 0; 0] ++ content, rest')).
  { intros rest'. unfold readTLVBytes.
    rewrite ReadType_cons by reflexivity. cbn [bind FixedSize].
    rewrite ReadLen_long_small by exact Hn. cbn [bind].
    rewrite EncodeLen_small by exact Hn. cbn [length repeat app firstn Z.to_nat
      Pos.to_nat Pos.iter_op Nat.add Nat.sub].
    destruct (Z.ltb_spec 0 n).
    - rewrite ReadFull_app by exact Hc. reflexivity.
    - destruct content; [reflexivity|]. rewrite len_cons in Hc.
      pose proof (len_nonneg content). lia. }
  split; [apply R|]. split.
  - intros Hv. unfold ReadStringTLV.
    rewrite ReadType_cons by reflexivity. cbn [bind Z.eqb Pos.eqb negb].
    rewrite ReadLen_long_small by exact Hn. cbn [bind].
    destruct (Z.eqb_spec n 0) as [E0|E0].
    + destruct content; [reflexivity|]. rewrite len_cons in Hc.
      pose proof (len_nonneg content). lia.
    + rewrite ReadFull_app by exact Hc. cbn [bind]. rewrite Hv. reflexivity.
  - intros Hv.
    pose (e := mkWireField 0 (0x0E :: [2 * n + 1; 0; 0; 0] ++ content)
                             (0x0E :: [2 * n; 0; 0; 0] ++ content)).
    assert (Hp : payloadOf [e]
                 = 0x00 :: 0x0E :: [2 * n + 1; 0; 0; 0] ++ content).
    { cbn. rewrite app_nil_r. reflexivity. }
    assert (Hl : len (payloadOf [e]) = 6 + n).
    { rewrite Hp. cbn [app]. rewrite !len_cons. lia. }
    rewrite <- Hp, <- Hl.
    rewrite decodeElem_struct_fields.
    + cbn [applyFields wid e]. cbn [Z.leb Z.compare].
      change (lookupIndex
                (buildIndex [(TagParts (Some 0) false false, TString)] 0 []) 0)
        with (Some 0%nat).
      cbn [nth fieldDecoders map snd targetType wtlv e].
      unfold decodeField. cbn [decodeElem]. unfold ReadStringTLV.
      rewrite ReadType_cons by reflexivity. cbn [bind Z.eqb Pos.eqb negb].
      change ([2 * n; 0; 0; 0] ++ content)
        with ([2 * n] ++ (0 :: 0 :: 0 :: content)).
      rewrite <- (EncodeLen_small n Hn).
      rewrite ReadLen_EncodeLen by (unfold MaxLen; lia). cbn [bind].
      destruct (Z.eqb_spec n 0) as [E0|E0].
      * rewrite E0. reflexivity.
      * unfold ReadFull.
        match goal with |- context [(?a <=? ?b)%nat] =>
          destruct (Nat.leb_spec a b) as [_|Hlt] end.
        -- cbn [bind].
           match goal with |- context [utf8_Valid ?x] =>
             replace (utf8_Valid x) with true by (symmetry; exact Hv) end.
           reflexivity.
        -- cbn [length] in Hlt. unfold len in Hc. lia.
    + constructor; [|constructor]. split; [reflexivity|].
      intros rest'. cbn [wbytes wtlv e]. cbn [app]. apply (R rest').
    + rewrite Hl. unfold MaxLen. lia.
Qed.

Lemma nonminimal_length_prefix_witness :
  decodeElem (TStruct [(TagParts (Some 0) false false, TString)])
             (VStruct [VString []])
             (0x11 :: EncodeLen (6 + 5)
                   ++ (0x00 :: 0x0E :: [2 * 5 + 1; 0; 0; 0]
                              ++ [104; 101; 108; 108; 111])
                   ++ [])
  = Ok (VStruct [VString (firstn (Z.to_nat 5)
                            (0 :: 0 :: 0 :: [104; 101; 108; 108; 111]))],
        []).
Proof.
  refine (proj2 (proj2 (nonminimal_length_prefix 5 [104; 101; 108; 108; 111]
                          [] _ _)) _).
  - lia.
  - reflexivity.
  - reflexivity.
Defined.

(** * Further properties: the schema layer

    A [Value] is a tree, so a decode target here is one whose pointers
    share no pointee: the decoder writes through the pointers of its
    target, and with a shared pointee a write to one field would show in
    another. *)

(** ** Fields that the decoder does not touch *)

Lemma setField_length idx x fs : length (setField idx x fs) = length fs.
Proof.
  revert idx. induction fs as [|f fs IH]; intros idx;
    [destruct idx; reflexivity|].
  destruct idx; cbn [setField length]; [reflexivity|]. rewrite IH. reflexivity.
Qed.

Lemma nth_setField_other idx j x fs d :
  j <> idx -> nth j (setField idx x fs) d = nth j fs d.
Proof.
  revert idx j. induction fs as [|f fs IH]; intros idx j Hne;
    [destruct idx; reflexivity|].
  destruct idx, j; cbn [setField nth]; try reflexivity; try lia.
  apply IH. lia.
Qed.

Lemma nth_setField_same idx x fs d :
  (idx < length fs)%nat -> nth idx (setField idx x fs) d = x.
Proof.
  revert idx. induction fs as [|f fs IH]; intros idx Hl; [cbn in Hl; lia|].
  destruct idx; cbn [setField nth]; [reflexivity|].
  apply IH. cbn in Hl. lia.
Qed.

(** The index map only holds indices of fields whose tag parses. *)
Lemma lookupIndex_buildIndex_tagged fields :
  forall k m id j,
    lookupIndex (buildIndex fields k m) id = Some j ->
    lookupIndex m id = Some j
    \/ exists tag ft, nth_error fields (j - k) = Some (tag, ft)
                      /\ (k <= j)%nat
                      /\ snd (ParseRelishTag tag) = true.
Proof.
  induction fields as [|[tag ft] fields IH]; intros k m id j H.
  - left. exact H.
  - cbn [buildIndex] in H.
    destruct (ParseRelishTag tag) as [[[i o] e] ok] eqn:Ep.
    apply IH in H. destruct H as [H|[tag' [ft' [Hn [Hk Ht]]]]].
    + destruct ok; [|left; exact H].
      unfold lookupIndex in H. cbn [find fst snd] in H.
      destruct (i =? id).
      * injection H as <-. right. exists tag, ft.
        rewrite Nat.sub_diag, Ep. auto.
      * left. exact H.
    + right. exists tag', ft'. split; [|split; [lia|exact Ht]].
      replace (j - k)%nat with (Datatypes.S (j - Datatypes.S k)) by lia.
      exact Hn.
Qed.

Lemma findVariant_tagged fields :
  forall k vid j,
    findVariant fields k vid = Some j ->
    exists tag ft, nth_error fields (j - k) = Some (tag, ft)
                   /\ (k <= j)%nat /\ snd (ParseRelishTag tag) = true.
Proof.
  induction fields as [|[tag ft] fields IH]; intros k vid j H; [discriminate|].
  cbn [findVariant] in H.
  destruct (ParseRelishTag tag) as [[[i o] e] ok] eqn:Ep.
  destruct (ok && (to_byte i =? vid)) eqn:Ec.
  - injection H as <-. apply andb_prop in Ec. destruct Ec as [-> _].
    exists tag, ft. rewrite Nat.sub_diag, Ep. auto.
  - apply IH in H. destruct H as [tag' [ft' [Hn [Hk Ht]]]].
    exists tag', ft'. split; [|split; [lia|exact Ht]].
    replace (j - k)%nat with (Datatypes.S (j - Datatypes.S k)) by lia.
    exact Hn.
Qed.

Lemma structLoop_untouched decs idx j d :
  (forall id, lookupIndex idx id <> Some j) ->
  forall rounds prev br dst dst',
    structLoop rounds decs idx prev br dst = Ok dst' ->
    nth j dst' d = nth j dst d /\ length dst' = length dst.
Proof.
  intros Hj. induction rounds as [|rounds IH]; intros prev br dst dst' H.
  - destruct br; [|discriminate]. injection H as <-. auto.
  - destruct br as [|b br]; [injection H as <-; auto|].
    cbn [structLoop] in H.
    destruct (negb (Z.land b 128 =? 0)); [discriminate|].
    destruct (b <=? prev); [discriminate|].
    destruct (readTLVBytes br) as [[tlv br2]|]; [|discriminate].
    cbn [bind] in H.
    destruct (lookupIndex idx b) as [i|] eqn:El.
    + match type of H with context [bind ?c _] => destruct c as [x|] end;
        [|discriminate].
      cbn [bind] in H. apply IH in H. destruct H as [H1 H2].
      rewrite H1, H2, setField_length. split; [|reflexivity].
      apply nth_setField_other. intros ->. apply (Hj b). exact El.
    + apply IH in H. exact H.
Qed.

(** X18. Decoding into a struct whose pointers share no pointee leaves
    every field whose tag does not parse (no tag, ["-"], or an id outside
    0..127) as it was, for any input, struct or enum, on which the decode
    succeeds; and the struct keeps its number of fields. *)
Theorem decode_keeps_untagged_fields fields dst rd dst' r' j tag ft d
  (Hd : decodeElem (TStruct fields) (VStruct dst) rd = Ok (VStruct dst', r'))
  (Hf : nth_error fields j = Some (tag, ft))
  (Ht : snd (ParseRelishTag tag) = false) :
  nth j dst' d = nth j dst d /\ length dst' = length dst.
Proof.
  cbn [decodeElem] in Hd.
  destruct (ReadType rd) as [[ty r1]|] eqn:Et; [|discriminate].
  cbn [bind] in Hd.
  destruct (Z.eq_dec ty 0x11) as [->|N1]; [|destruct (Z.eq_dec ty 0x12) as [->|N2]].
  - match type of Hd with context [decodeStructInto ?a ?b ?c ?e] =>
      destruct (decodeStructInto a b c e) as [[dd rr]|] eqn:Es end;
      [|discriminate].
    cbn [bind] in Hd. injection Hd as <- <-.
    unfold decodeStructInto in Es.
    destruct (ReadLen r1) as [[[n u] r2]|]; [|discriminate]. cbn [bind] in Es.
    destruct (n =? 0); [injection Es as <- <-; auto|].
    destruct (ReadFull n r2) as [[buf r3]|]; [|discriminate]. cbn [bind] in Es.
    match type of Es with context [structLoop ?a ?b ?c ?p ?q ?s] =>
      destruct (structLoop a b c p q s) as [dd'|] eqn:El end; [|discriminate].
    cbn [bind] in Es. injection Es as <- <-.
    eapply structLoop_untouched; [|exact El].
    intros id Hl. apply lookupIndex_buildIndex_tagged in Hl.
    destruct Hl as [Hl|[tag' [ft' [Hn [_ Ht']]]]]; [discriminate|].
    rewrite Nat.sub_0_r, Hf in Hn. injection Hn as <- <-.
    rewrite Ht in Ht'. discriminate.
  - match type of Hd with context [decodeEnumInto ?a ?b ?c ?e] =>
      destruct (decodeEnumInto a b c e) as [[dd rr]|] eqn:Es end;
      [|discriminate].
    cbn [bind] in Hd. injection Hd as <- <-.
    unfold decodeEnumInto in Es.
    destruct (ReadLen r1) as [[[n u] r2]|]; [|discriminate]. cbn [bind] in Es.
    destruct (n <? 1); [discriminate|].
    destruct (ReadFull n r2) as [[buf r3]|]; [|discriminate]. cbn [bind] in Es.
    destruct (findVariant fields 0 (nth 0 buf 0)) as [idx|] eqn:Ev;
      [|discriminate].
    match type of Es with context [bind ?c _] => destruct c as [[x br]|] end;
      [|discriminate].
    cbn [bind] in Es. destruct (negb (len br =? 0)); [discriminate|].
    injection Es as <- <-. rewrite setField_length. split; [|reflexivity].
    apply nth_setField_other. intros ->.
    apply findVariant_tagged in Ev. destruct Ev as [tag' [ft' [Hn [_ Ht']]]].
    rewrite Nat.sub_0_r, Hf in Hn. injection Hn as <- <-.
    rewrite Ht in Ht'. discriminate.
  - exfalso. destruct ty as [|p|p]; try discriminate Hd.
    do 5 (destruct p as [p|p|]; try discriminate Hd);
      try (apply N1; reflexivity); try (apply N2; reflexivity).
Qed.

(** The test of the repository: field 1 keeps its string while field 0 is
    decoded. *)
Lemma decode_keeps_untagged_fields_witness :
  nth 1 [VUint32 42; VString [112; 114; 101]] (VPtr None)
  = nth 1 [VUint32 0; VString [112; 114; 101]] (VPtr None)
  /\ length [VUint32 42; VString [112; 114; 101]]
     = length [VUint32 0; VString [112; 114; 101]].
Proof.
  exact (decode_keeps_untagged_fields WithSkip
           [VUint32 0; VString [112; 114; 101]]
           [0x11; 0x0C; 0x00; 0x04; 0x2A; 0; 0; 0]
           [VUint32 42; VString [112; 114; 101]] [] 1%nat TagDash TString
           (VPtr None) eq_refl eq_refl eq_refl).
Defined.

(** ** Errors of the struct and enum decoders *)

Lemma structLoop_bad_id decs idx es b tail :
  Forall wfWireField es -> decodable decs idx es ->
  Z.land b 0x80 <> 0 ->
  forall rounds prev dst,
    increasingFrom prev (map wid es) = true ->
    (length (payloadOf es ++ b :: tail) <= rounds)%nat ->
    structLoop rounds decs idx prev (payloadOf es ++ b :: tail) dst
    = Err (RelishError ErrInvalidFieldID "top bit set").
Proof.
  intros Hwf. induction Hwf as [|e es [Hid Hfr] Hes IH];
    intros Hd Hb rounds prev dst Hinc Hr.
  - cbn [payloadOf flat_map app] in *. cbn [length] in Hr.
    destruct rounds as [|rounds]; [lia|]. cbn [structLoop].
    destruct (Z.eqb_spec (Z.land b 128) 0); [contradiction|reflexivity].
  - rewrite payloadOf_cons in *. cbn [app length] in Hr.
    rewrite <- app_assoc in *. rewrite length_app in Hr.
    destruct rounds as [|rounds]; [lia|].
    cbn [map increasingFrom] in Hinc. apply andb_prop in Hinc.
    destruct Hinc as [H1 H2]. apply Z.ltb_lt in H1.
    cbn [app structLoop]. rewrite Hid. cbn [Z.eqb negb].
    destruct (Z.leb_spec (wid e) prev); [lia|].
    rewrite <- app_assoc, Hfr. cbn [bind]. fold noFieldDecoder.
    destruct (lookupIndex idx (wid e)) as [i|] eqn:El.
    + destruct (Hd e i (nth i dst (VPtr None)) (or_introl eq_refl) El) as [x Hx].
      rewrite Hx. cbn [bind].
      apply IH; [eapply decodable_tail; eauto|exact Hb|exact H2|lia].
    + apply IH; [eapply decodable_tail; eauto|exact Hb|exact H2|lia].
Qed.

(** X19. In a struct payload, after any number of well-formed fields with
    strictly increasing ids whose bound fields decode, an id byte with the
    top bit set is rejected with InvalidFieldID, whatever follows it. *)
Theorem struct_invalid_field_id fields dst es b tail rest
  (Hwf : Forall wfWireField es)
  (Hdec : decodable (fieldDecoders fields) (buildIndex fields 0 []) es)
  (Hinc : increasingFrom (-1) (map wid es) = true)
  (Hb : Z.land b 0x80 <> 0)
  (Hlen : len (payloadOf es ++ b :: tail) <= MaxLen) :
  decodeElem (TStruct fields) (VStruct dst)
    (0x11 :: EncodeLen (len (payloadOf es ++ b :: tail))
          ++ (payloadOf es ++ b :: tail) ++ rest)
  = Err (RelishError ErrInvalidFieldID "top bit set").
Proof.
  rewrite decodeElem_struct. unfold decodeStructInto.
  pose proof (len_nonneg (payloadOf es ++ b :: tail)) as Hn.
  rewrite ReadLen_EncodeLen by lia. cbn [bind].
  destruct (Z.eqb_spec (len (payloadOf es ++ b :: tail)) 0) as [E|E].
  - rewrite len_app, len_cons in E. unfold len in E. lia.
  - rewrite ReadFull_app by reflexivity. cbn [bind].
    rewrite structLoop_bad_id; auto.
Qed.

Lemma struct_invalid_field_id_witness :
  decodeElem (TStruct OnlyField0) (VStruct [VUint32 0])
    (0x11 :: EncodeLen (len (payloadOf [field0_u32_42] ++ 0x81 :: [0x00]))
          ++ (payloadOf [field0_u32_42] ++ 0x81 :: [0x00]) ++ [])
  = Err (RelishError ErrInvalidFieldID "top bit set").
Proof.
  apply struct_invalid_field_id.
  - repeat constructor; cbn; intros rest; reflexivity.
  - intros e idx f [<-|[]] Hl. vm_compute in Hl. injection Hl as <-.
    eexists. reflexivity.
  - reflexivity.
  - vm_compute. discriminate.
  - vm_compute. discriminate.
Defined.

Lemma findVariant_high_byte fields vid :
  128 <= vid -> forall k, findVariant fields k vid = None.
Proof.
  intros Hv. induction fields as [|[tag ft] fields IH]; intros k; [reflexivity|].
  cbn [findVariant]. destruct (ParseRelishTag tag) as [[[i o] e] ok] eqn:Ep.
  destruct ok; cbn [andb]; [|apply IH].
  apply ParseRelishTag_range in Ep. rewrite to_byte_small by lia.
  destruct (Z.eqb_spec i vid); [lia|apply IH].
Qed.

(** X20. Errors of the enum decoder, all of kind TypeMismatch: a declared
    length of 0 is too short; a variant byte that no tagged field carries
    is an unknown variant, and so is every byte from 0x80 up, the reserved
    bit giving no error of its own; a variant bound to a field that is not
    a pointer is refused before its value is read. *)
Theorem enum_decode_errors fields dst vid body rest
  (Hlen : 1 + len body <= MaxLen) :
  decodeElem (TStruct fields) (VStruct dst) (0x12 :: 0x00 :: rest)
  = Err (RelishError ErrTypeMismatch "enum content too short")
  /\ (findVariant fields 0 vid = None ->
      decodeElem (TStruct fields) (VStruct dst)
        (0x12 :: EncodeLen (1 + len body) ++ vid :: body ++ rest)
      = Err (RelishError ErrTypeMismatch "unknown enum variant"))
  /\ (128 <= vid -> findVariant fields 0 vid = None)
  /\ (forall idx tag ft,
        findVariant fields 0 vid = Some idx ->
        nth_error fields idx = Some (tag, ft) ->
        (forall e, ft <> TPtr e) ->
        decodeElem (TStruct fields) (VStruct dst)
          (0x12 :: EncodeLen (1 + len body) ++ vid :: body ++ rest)
        = Err (RelishError ErrTypeMismatch "enum field must be pointer")).
Proof.
  pose proof (len_nonneg body) as Hn.
  assert (U : decodeEnumInto fields (variantDecoders fields) dst
                (EncodeLen (1 + len body) ++ vid :: body ++ rest)
              = match findVariant fields 0 vid with
                | None => Err (RelishError ErrTypeMismatch "unknown enum variant")
                | Some idx =>
                    '(x, br) <- nth idx (variantDecoders fields) noVariantDecoder
                                  (nth idx dst (VPtr None)) body ;;
                    if negb (len br =? 0) then
                      Err (RelishError ErrEnumLengthMismatch
                                       "variant did not consume full length")
                    else Ok (setField idx x dst, rest)
                end).
  { unfold decodeEnumInto. rewrite ReadLen_EncodeLen by lia. cbn [bind].
    destruct (Z.ltb_spec (1 + len body) 1); [lia|].
    change (vid :: body ++ rest) with ((vid :: body) ++ rest).
    rewrite ReadFull_app by (rewrite len_cons; reflexivity).
    cbn [bind nth skipn]. reflexivity. }
  split; [reflexivity|]. split; [|split].
  - intros Hv. rewrite decodeElem_enum, U, Hv. reflexivity.
  - intros Hv. apply findVariant_high_byte. exact Hv.
  - intros idx tag ft Hv Hf Hp. rewrite decodeElem_enum, U, Hv.
    unfold variantDecoders.
    erewrite nth_indep
      by (rewrite length_map; apply nth_error_Some; rewrite Hf; discriminate).
    erewrite (map_nth _ _ (tag, ft)). rewrite (nth_error_nth _ _ _ Hf).
    cbn [snd]. unfold decodeVariant.
    destruct ft; try reflexivity. exfalso. eapply Hp. reflexivity.
Qed.

Lemma enum_decode_errors_witness :
  decodeElem (TStruct OneVariant) (VStruct [VPtr None])
    (0x12 :: EncodeLen (1 + len [0x04; 0x2A; 0; 0; 0])
          ++ 0x05 :: [0x04; 0x2A; 0; 0; 0] ++ [])
  = Err (RelishError ErrTypeMismatch "unknown enum variant").
Proof.
  refine (proj1 (proj2 (enum_decode_errors OneVariant [VPtr None] 0x05
                          [0x04; 0x2A; 0; 0; 0] [] _)) _).
  - vm_compute. discriminate.
  - reflexivity.
Defined.

(** ** Marshal followed by Unmarshal, for flat structs *)

Lemma lookupIndex_buildIndex_id fields :
  forall s m i j,
    lookupIndex (buildIndex fields s m) i = Some j ->
    lookupIndex m i = Some j
    \/ exists tag ft o e, nth_error fields (j - s) = Some (tag, ft)
                          /\ (s <= j)%nat
                          /\ ParseRelishTag tag = (i, o, e, true).
Proof.
  induction fields as [|[tag ft] fields IH]; intros s m i j H.
  - left. exact H.
  - cbn [buildIndex] in H.
    destruct (ParseRelishTag tag) as [[[i0 o] e] ok] eqn:Ep.
    apply IH in H. destruct H as [H|[tag' [ft' [o' [e' [Hn [Hk Ht]]]]]]].
    + destruct ok; [|left; exact H].
      unfold lookupIndex in H. cbn [find fst snd] in H.
      destruct (Z.eqb_spec i0 i) as [->|].
      * injection H as <-. right. exists tag, ft, o, e.
        rewrite Nat.sub_diag. auto.
      * left. exact H.
    + right. exists tag', ft', o', e'. split; [|split; [lia|exact Ht]].
      replace (j - s)%nat with (Datatypes.S (j - Datatypes.S s)) by lia.
      exact Hn.
Qed.

Lemma taggedIDs_nth fields :
  forall k tag ft i o e,
    nth_error fields k = Some (tag, ft) ->
    ParseRelishTag tag = (i, o, e, true) ->
    In i (taggedIDs fields).
Proof.
  induction fields as [|[tag0 ft0] fields IH]; intros k tag ft i o e Hn Hp.
  - destruct k; discriminate.
  - cbn [taggedIDs]. destruct k as [|k]; cbn [nth_error] in Hn.
    + injection Hn as -> ->. rewrite Hp. left. reflexivity.
    + destruct (ParseRelishTag tag0) as [[[i0 o0] e0] ok0].
      destruct ok0; [right|]; eapply IH; eauto.
Qed.

Lemma NoDup_taggedIDs_tail f fields :
  NoDup (taggedIDs (f :: fields)) -> NoDup (taggedIDs fields).
Proof.
  destruct f as [tag ft]. cbn [taggedIDs].
  destruct (ParseRelishTag tag) as [[[i o] e] ok]. destruct ok; [|auto].
  intros H. inversion H; assumption.
Qed.

Lemma lookupIndex_buildIndex_nth fields :
  NoDup (taggedIDs fields) ->
  forall k s m tag ft i o e,
    nth_error fields k = Some (tag, ft) ->
    ParseRelishTag tag = (i, o, e, true) ->
    lookupIndex (buildIndex fields s m) i = Some (s + k)%nat.
Proof.
  induction fields as [|[tag0 ft0] fields IH];
    intros Hnd k s m tag ft i o e Hn Hp.
  - destruct k; discriminate.
  - destruct k as [|k]; cbn [nth_error] in Hn.
    + injection Hn as -> ->. cbn [buildIndex taggedIDs] in *.
      rewrite Hp in Hnd. rewrite Hp.
      inversion Hnd as [|? ? Hni _]; subst.
      rewrite lookupIndex_buildIndex_notin by exact Hni.
      unfold lookupIndex. cbn [find fst snd]. rewrite Z.eqb_refl.
      rewrite Nat.add_0_r. reflexivity.
    + cbn [buildIndex].
      destruct (ParseRelishTag tag0) as [[[i0 o0] e0] ok0] eqn:E0.
      replace (s + Datatypes.S k)%nat with (Datatypes.S s + k)%nat by lia.
      eapply IH; eauto. eapply NoDup_taggedIDs_tail; eauto.
Qed.

Lemma findVariant_nth fields :
  NoDup (taggedIDs fields) ->
  forall k s tag ft i o e,
    nth_error fields k = Some (tag, ft) ->
    ParseRelishTag tag = (i, o, e, true) ->
    findVariant fields s i = Some (s + k)%nat.
Proof.
  induction fields as [|[tag0 ft0] fields IH];
    intros Hnd k s tag ft i o e Hn Hp.
  - destruct k; discriminate.
  - pose proof (ParseRelishTag_range _ _ _ _ Hp) as Hr.
    destruct k as [|k]; cbn [nth_error] in Hn.
    + injection Hn as -> ->. cbn [findVariant]. rewrite Hp.
      rewrite to_byte_small by lia. rewrite Z.eqb_refl. cbn [andb].
      rewrite Nat.add_0_r. reflexivity.
    + cbn [findVariant].
      destruct (ParseRelishTag tag0) as [[[i0 o0] e0] ok0] eqn:E0.
      assert (Hne : ok0 && (to_byte i0 =? i) = false).
      { destruct ok0; [|reflexivity]. cbn [andb].
        pose proof (ParseRelishTag_range _ _ _ _ E0).
        rewrite to_byte_small by lia.
        destruct (Z.eqb_spec i0 i) as [->|]; [|reflexivity].
        exfalso. cbn [taggedIDs] in Hnd. rewrite E0 in Hnd.
        inversion Hnd as [|? ? Hni _]; subst. apply Hni.
        eapply taggedIDs_nth; eauto. }
      rewrite Hne.
      replace (s + Datatypes.S k)%nat with (Datatypes.S s + k)%nat by lia.
      eapply IH; eauto. eapply NoDup_taggedIDs_tail; eauto.
Qed.

Lemma collectFields_nth enc fields :
  forall vs k tag ft v i o e,
    nth_error fields k = Some (tag, ft) -> nth_error vs k = Some v ->
    ParseRelishTag tag = (i, o, e, true) ->
    In (mkFieldInfo i o e ft v (enc ft v)) (collectFields enc fields vs).
Proof.
  induction fields as [|[tag0 ft0] fields IH];
    intros vs k tag ft v i o e Hn Hv Hp.
  - destruct k; discriminate.
  - destruct vs as [|v0 vs]; [destruct k; discriminate|].
    cbn [collectFields]. destruct k as [|k]; cbn [nth_error] in Hn, Hv.
    + injection Hn as -> ->. injection Hv as ->. rewrite Hp.
      left. reflexivity.
    + destruct (ParseRelishTag tag0) as [[[i0 o0] e0] ok0].
      destruct ok0; [right|]; eapply IH; eauto.
Qed.

Lemma collectFields_inv enc fields :
  forall vs fi,
    In fi (collectFields enc fields vs) ->
    exists k tag v,
      nth_error fields k = Some (tag, ftype fi)
      /\ nth_error vs k = Some v
      /\ ParseRelishTag tag = (id fi, optional fi, omitempty fi, true)
      /\ value fi = v /\ encoded fi = enc (ftype fi) v.
Proof.
  induction fields as [|[tag0 ft0] fields IH]; intros vs fi Hin;
    [destruct Hin|].
  destruct vs as [|v0 vs]; [destruct Hin|].
  cbn [collectFields] in Hin.
  destruct (ParseRelishTag tag0) as [[[i0 o0] e0] ok0] eqn:E0.
  destruct ok0.
  - destruct Hin as [<-|Hin].
    + exists 0%nat, tag0, v0. cbn. rewrite E0. auto.
    + destruct (IH vs fi Hin) as [k [tag [v H']]].
      exists (Datatypes.S k), tag, v. exact H'.
  - destruct (IH vs fi Hin) as [k [tag [v H']]].
    exists (Datatypes.S k), tag, v. exact H'.
Qed.

Lemma wireFieldsOf_In l :
  forall e,
    In e (wireFieldsOf l) ->
    exists fi,
      In fi l
      /\ optional fi && isPointer (value fi) && IsNil (value fi) = false
      /\ omitempty fi && isZeroValue (ftype fi) (value fi) = false
      /\ encoded fi = Ok (wtlv e) /\ wid e = id fi /\ wbytes e = wtlv e.
Proof.
  induction l as [|x l IH]; intros e Hin; [destruct Hin|].
  cbn [wireFieldsOf] in Hin.
  assert (Htl : In e (wireFieldsOf l) ->
                exists fi,
                  In fi (x :: l)
                  /\ optional fi && isPointer (value fi) && IsNil (value fi)
                     = false
                  /\ omitempty fi && isZeroValue (ftype fi) (value fi) = false
                  /\ encoded fi = Ok (wtlv e) /\ wid e = id fi
                  /\ wbytes e = wtlv e).
  { intros H. destruct (IH e H) as [fi [H1 H2]]. exists fi.
    split; [right; exact H1|exact H2]. }
  destruct (optional x && isPointer (value x) && IsNil (value x)) eqn:E1;
    [auto|].
  destruct (omitempty x && isZeroValue (ftype x) (value x)) eqn:E2; [auto|].
  destruct (encoded x) as [tlv|] eqn:E3; [|auto].
  destruct Hin as [<-|Hin]; [|auto].
  exists x. cbn [wid wbytes wtlv]. rewrite E1, E2. auto 7 using in_eq.
Qed.

Lemma wireFieldsOf_written l fi tlv :
  In fi l ->
  optional fi && isPointer (value fi) && IsNil (value fi) = false ->
  omitempty fi && isZeroValue (ftype fi) (value fi) = false ->
  encoded fi = Ok tlv ->
  In (mkWireField (id fi) tlv tlv) (wireFieldsOf l).
Proof.
  intros Hin H1 H2 He. induction l as [|x l IH]; [destruct Hin|].
  cbn [wireFieldsOf]. destruct Hin as [->|Hin].
  - rewrite H1, H2, He. left. reflexivity.
  - specialize (IH Hin).
    destruct (optional x && isPointer (value x) && IsNil (value x));
      [exact IH|].
    destruct (omitempty x && isZeroValue (ftype x) (value x)); [exact IH|].
    destruct (encoded x); [right|]; exact IH.
Qed.

Lemma writeFields_encoded l :
  forall p fi,
    writeFields l = Ok p -> In fi l ->
    optional fi && isPointer (value fi) && IsNil (value fi) = false ->
    omitempty fi && isZeroValue (ftype fi) (value fi) = false ->
    exists tlv, encoded fi = Ok tlv.
Proof.
  induction l as [|x l IH]; intros p fi Hw Hin H1 H2; [destruct Hin|].
  cbn [writeFields] in Hw. destruct Hin as [->|Hin].
  - rewrite H1, H2 in Hw.
    destruct (WriteType (to_byte (id fi))); [|discriminate]. cbn [bind] in Hw.
    destruct (encoded fi) as [tlv|]; [|discriminate]. eexists. reflexivity.
  - destruct (optional x && isPointer (value x) && IsNil (value x));
      [eapply IH; eauto|].
    destruct (omitempty x && isZeroValue (ftype x) (value x));
      [eapply IH; eauto|].
    destruct (WriteType (to_byte (id x))); [|discriminate]. cbn [bind] in Hw.
    destruct (encoded x); [|discriminate]. cbn [bind] in Hw.
    destruct (writeFields l) as [q|] eqn:Eq; [|discriminate].
    eapply IH; eauto.
Qed.

Lemma NoDup_map_In_eq {A B} (f : A -> B) l a b :
  NoDup (map f l) -> In a l -> In b l -> f a = f b -> a = b.
Proof.
  induction l as [|x l IH]; intros Hnd Ha Hb E; [destruct Ha|].
  cbn [map] in Hnd. inversion Hnd as [|? ? Hni Hnd']; subst.
  destruct Ha as [->|Ha], Hb as [->|Hb]; auto.
  - exfalso. apply Hni. rewrite E. apply in_map. exact Hb.
  - exfalso. apply Hni. rewrite <- E. apply in_map. exact Ha.
Qed.

Lemma increasingFrom_In ids :
  forall p i, increasingFrom p ids = true -> In i ids -> p < i.
Proof.
  induction ids as [|a ids IH]; intros p i H Hin; [destruct Hin|].
  cbn [increasingFrom] in H. apply andb_prop in H. destruct H as [H1 H2].
  apply Z.ltb_lt in H1. destruct Hin as [<-|Hin]; [exact H1|].
  specialize (IH a i H2 Hin). lia.
Qed.

Lemma hasType_zero_base e : isBase e = true -> hasType e (Zero e) = true.
Proof. destruct e; try discriminate; reflexivity. Qed.

Lemma decode_base_all e x cur tlv :
  isBase e = true -> hasType e x = true -> encodeValue e x = Ok tlv ->
  decodeElem e cur tlv = Ok (x, []).
Proof.
  intros Hb Ht He.
  pose proof (proj1 (decode_base e x cur [] tlv Hb Ht He)) as P.
  rewrite app_nil_r in P. exact P.
Qed.

(** The value of a flat field is written as the TLV of a base value: the
    field itself, what its pointer points to, or the zero value for a nil
    pointer. *)
Lemma flat_field_base ft v tlv :
  isBase (targetType ft) = true -> hasType ft v = true ->
  encodeValue ft v = Ok tlv ->
  exists x,
    hasType (targetType ft) x = true
    /\ encodeValue (targetType ft) x = Ok tlv
    /\ match ft with
       | TPtr e => x = match v with VPtr (Some y) => y | _ => Zero e end
       | _ => x = v
       end.
Proof.
  intros Hb Ht He. destruct ft as [| | |e|fs]; try discriminate Hb.
  - exists v. auto.
  - exists v. auto.
  - exists v. auto.
  - cbn [targetType] in *. destruct v as [| | |[y|]|]; try discriminate Ht.
    + exists y. auto.
    + exists (Zero e). rewrite encodeValue_nil_pointer in He
        by (intros e' ->; discriminate Hb).
      split; [apply hasType_zero_base, Hb|auto].
Qed.

Lemma flat_field_decodes ft v tlv :
  isBase (targetType ft) = true -> hasType ft v = true ->
  encodeValue ft v = Ok tlv ->
  (forall f, decodeField ft (decodeElem (targetType ft)) f tlv
             = Ok match v with
                  | VPtr None => VPtr (Some (Zero (targetType ft)))
                  | _ => v
                  end)
  /\ forall rest, readTLVBytes (tlv ++ rest) = Ok (tlv, rest).
Proof.
  intros Hb Ht He.
  destruct (flat_field_base ft v tlv Hb Ht He) as [x [Hx [Ex Hv]]].
  split.
  - intros f. unfold decodeField.
    destruct ft as [| | |e|fs]; try discriminate Hb; cbn [targetType] in *.
    1-3: subst x; rewrite (decode_base_all _ _ f tlv Hb Ht He);
      destruct v as [| | |[y|]|]; try discriminate Ht; reflexivity.
    rewrite (decode_base_all e x _ tlv Hb Hx Ex). cbn [bind]. subst x.
    destruct v as [| | |[y|]|]; try discriminate Ht; reflexivity.
  - intros rest. apply (decode_base _ x x rest tlv Hb Hx Ex).
Qed.

Lemma applyFields_pointwise decs idx (R : wireField -> Value -> Prop) d es :
  (forall i i' k,
      lookupIndex idx i = Some k -> lookupIndex idx i' = Some k -> i = i') ->
  (forall e k f,
      In e es -> lookupIndex idx (wid e) = Some k ->
      exists x, nth k decs noFieldDecoder f (wtlv e) = Ok x /\ R e x) ->
  forall prev dst,
    increasingFrom prev (map wid es) = true ->
    (forall e k, In e es -> lookupIndex idx (wid e) = Some k ->
                 (k < length dst)%nat) ->
    exists out,
      applyFields decs idx prev es dst = Ok out
      /\ length out = length dst
      /\ (forall e k, In e es -> lookupIndex idx (wid e) = Some k ->
                      R e (nth k out d))
      /\ (forall j, (forall e, In e es -> lookupIndex idx (wid e) <> Some j) ->
                    nth j out d = nth j dst d).
Proof.
  intros Hinj. induction es as [|e es IH]; intros Hdec prev dst Hinc Hlen.
  - exists dst. split; [reflexivity|]. split; [reflexivity|].
    split; [intros e k []|reflexivity].
  - cbn [map increasingFrom] in Hinc. apply andb_prop in Hinc.
    destruct Hinc as [H1 H2]. apply Z.ltb_lt in H1.
    cbn [applyFields]. destruct (Z.leb_spec (wid e) prev); [lia|].
    assert (Hgt : forall e', In e' es -> wid e < wid e').
    { intros e' Hin. eapply increasingFrom_In; [exact H2|].
      apply in_map. exact Hin. }
    assert (Hdec' : forall e' k f,
               In e' es -> lookupIndex idx (wid e') = Some k ->
               exists x, nth k decs noFieldDecoder f (wtlv e') = Ok x /\ R e' x).
    { intros e' k f Hin. apply Hdec. right. exact Hin. }
    destruct (lookupIndex idx (wid e)) as [k|] eqn:El.
    + destruct (Hdec e k (nth k dst (VPtr None)) (or_introl eq_refl) El)
        as [x [Hx HR]].
      rewrite Hx. cbn [bind].
      destruct (IH Hdec' (wid e) (setField k x dst) H2)
        as [out [Ho [Hl [HRs Hun]]]].
      { intros e' k' Hin Hl'. rewrite setField_length.
        eapply Hlen; [right; exact Hin|exact Hl']. }
      exists out. split; [exact Ho|].
      split; [rewrite Hl; apply setField_length|]. split.
      * intros e' k' [<-|Hin] Hl'.
        -- rewrite El in Hl'. injection Hl' as <-. rewrite Hun.
           ++ rewrite nth_setField_same; [exact HR|].
              eapply Hlen; [left; reflexivity|exact El].
           ++ intros e' Hin Hl'. pose proof (Hinj _ _ _ El Hl').
              pose proof (Hgt e' Hin). lia.
        -- apply HRs; assumption.
      * intros j Hj. rewrite Hun.
        -- apply nth_setField_other. intros ->.
           apply (Hj e (or_introl eq_refl)). exact El.
        -- intros e' Hin. apply Hj. right. exact Hin.
    + destruct (IH Hdec' (wid e) dst H2) as [out [Ho [Hl [HRs Hun]]]].
      { intros e' k' Hin. apply Hlen. right. exact Hin. }
      exists out. split; [exact Ho|]. split; [exact Hl|]. split.
      * intros e' k' [<-|Hin] Hl'; [rewrite El in Hl'; discriminate|].
        apply HRs; assumption.
      * intros j Hj. apply Hun. intros e' Hin. apply Hj. right. exact Hin.
Qed.

Lemma WriteStructTLV_inv w p :
  WriteStructTLV w = Ok p ->
  exists buf,
    w = Ok buf /\ p = 0x11 :: EncodeLen (len buf) ++ buf /\ len buf <= MaxLen.
Proof.
  unfold WriteStructTLV. destruct w as [buf|]; [|discriminate]. cbn [bind].
  rewrite WriteType_ok by reflexivity. cbn [bind].
  destruct (WriteLen (len buf)) as [l|] eqn:El; [|discriminate]. cbn [bind].
  apply WriteLen_inv in El. destruct El as [-> Hl].
  intros E. injection E as <-. exists buf.
  split; [reflexivity|]. split; [reflexivity|lia].
Qed.

Lemma WriteEnumTLV_inv vid w p :
  WriteEnumTLV vid w = Ok p ->
  exists body,
    w = Ok body /\ Z.land vid 0x80 = 0
    /\ p = 0x12 :: EncodeLen (1 + len body) ++ vid :: body
    /\ 1 + len body <= MaxLen.
Proof.
  unfold WriteEnumTLV.
  destruct (Z.eqb_spec (Z.land vid 128) 0) as [Hv|Hv]; [|discriminate].
  cbn [negb]. destruct w as [body|]; [|discriminate]. cbn [bind].
  rewrite WriteType_ok by reflexivity. cbn [bind]. rewrite len_cons.
  destruct (WriteLen (1 + len body)) as [l|] eqn:El; [|discriminate].
  cbn [bind]. apply WriteLen_inv in El. destruct El as [-> Hl].
  intros E. injection E as <-. exists body.
  split; [reflexivity|]. split; [exact Hv|]. split; [reflexivity|lia].
Qed.

Lemma hasType_struct_nth fields :
  forall vs,
    hasType (TStruct fields) (VStruct vs) = true ->
    length vs = length fields
    /\ forall k tag ft v,
         nth_error fields k = Some (tag, ft) -> nth_error vs k = Some v ->
         hasType ft v = true.
Proof.
  induction fields as [|[tag0 ft0] fields IH]; intros vs H.
  - destruct vs; [|discriminate]. split; [reflexivity|].
    intros k; destruct k; discriminate.
  - destruct vs as [|v0 vs]; [discriminate|]. cbn [hasType snd] in H.
    apply andb_prop in H. destruct H as [H0 H].
    destruct (IH vs H) as [Hl Hn]. split; [cbn [length]; lia|].
    intros k tag ft v Hf Hv. destruct k; cbn [nth_error] in *.
    + injection Hf as <- <-. injection Hv as <-. exact H0.
    + eapply Hn; eauto.
Qed.

Lemma nth_fieldDecoders fields k tag ft :
  nth_error fields k = Some (tag, ft) ->
  nth k (fieldDecoders fields) noFieldDecoder
  = decodeField ft (decodeElem (targetType ft)).
Proof.
  intros H. apply nth_error_nth. unfold fieldDecoders.
  rewrite nth_error_map, H. reflexivity.
Qed.

Lemma nth_variantDecoders fields k tag ft :
  nth_error fields k = Some (tag, ft) ->
  nth k (variantDecoders fields) noVariantDecoder
  = decodeVariant ft (decodeElem (targetType ft)).
Proof.
  intros H. apply nth_error_nth. unfold variantDecoders.
  rewrite nth_error_map, H. reflexivity.
Qed.

Lemma nth_error_fields_flat (fields : list (StructTag * GoType)) k tag ft :
  Forall (fun f => isBase (targetType (snd f)) = true) fields ->
  nth_error fields k = Some (tag, ft) -> isBase (targetType ft) = true.
Proof.
  intros Hf Hn. apply nth_error_In in Hn.
  rewrite Forall_forall in Hf. apply (Hf _ Hn).
Qed.

(** Every field on the wire comes from a tagged field of the type that the
    encoder did not leave out. *)
Lemma written_fields_inv fields vs e :
  In e (wireFieldsOf (sortFields (collectFields encodeValue fields vs))) ->
  exists k tag ft v o om,
    nth_error fields k = Some (tag, ft) /\ nth_error vs k = Some v
    /\ ParseRelishTag tag = (wid e, o, om, true)
    /\ o && isPointer v && IsNil v = false
    /\ om && isZeroValue ft v = false
    /\ encodeValue ft v = Ok (wtlv e) /\ wbytes e = wtlv e.
Proof.
  intros Hin. apply wireFieldsOf_In in Hin.
  destruct Hin as [fi [Hin [H1 [H2 [He [Hid Hb]]]]]].
  eapply Permutation_in in Hin; [|apply sortFields_perm].
  apply collectFields_inv in Hin.
  destruct Hin as [k [tag [v [Hf [Hv [Hp [Ev Ee]]]]]]].
  exists k, tag, (ftype fi), v, (optional fi), (omitempty fi).
  subst v. rewrite Hid, <- Ee. auto 8.
Qed.

Lemma struct_path_roundtrip (fields : list (StructTag * GoType)) vs dst p d :
  NoDup (taggedIDs fields) ->
  Forall (fun f => isBase (targetType (snd f)) = true) fields ->
  hasType (TStruct fields) (VStruct vs) = true ->
  length dst = length fields ->
  WriteStructTLV (writeFields (sortFields (collectFields encodeValue fields vs)))
  = Ok p ->
  forall rest,
  exists out,
    decodeElem (TStruct fields) (VStruct dst) (p ++ rest)
    = Ok (VStruct out, rest)
    /\ length out = length dst
    /\ forall k tag ft v i o om ok,
         nth_error fields k = Some (tag, ft) -> nth_error vs k = Some v ->
         ParseRelishTag tag = (i, o, om, ok) ->
         nth k out d
         = if ok && negb (o && isPointer v && IsNil v)
                 && negb (om && isZeroValue ft v)
           then match v with
                | VPtr None => VPtr (Some (Zero (targetType ft)))
                | _ => v
                end
           else nth k dst d.
Proof.
  intros Hnd Hflat Hty Hdst Hw rest.
  destruct (hasType_struct_nth _ _ Hty) as [Hlen Htyk].
  apply WriteStructTLV_inv in Hw. destruct Hw as [buf [Hbuf [-> Hmax]]].
  pose proof (writeFields_payload _ (sorted_collect_range fields vs) _ Hbuf)
    as Hp.
  subst buf.
  set (es := wireFieldsOf (sortFields (collectFields encodeValue fields vs)))
    in *.
  assert (Hwf : Forall wfWireField es).
  { apply Forall_forall. intros e Hin. apply written_fields_inv in Hin.
    destruct Hin as [k [tag [ft [v [o [om [Hf [Hv [Hp [_ [_ [He Hb]]]]]]]]]]]].
    split.
    - apply land_128_small. eapply ParseRelishTag_range, Hp.
    - intros r'. rewrite Hb.
      apply (flat_field_decodes ft v); eauto using nth_error_fields_flat. }
  cbn [app]. rewrite <- app_assoc.
  rewrite decodeElem_struct_fields by assumption.
  set (R := fun (e : wireField) (x : Value) =>
              exists k tag ft v o om,
                nth_error fields k = Some (tag, ft) /\ nth_error vs k = Some v
                /\ ParseRelishTag tag = (wid e, o, om, true)
                /\ x = match v with
                       | VPtr None => VPtr (Some (Zero (targetType ft)))
                       | _ => v
                       end).
  destruct (applyFields_pointwise (fieldDecoders fields)
              (buildIndex fields 0 []) R d es) with (prev := -1) (dst := dst)
    as [out [Ho [Hl [HRs Hun]]]].
  - intros i i' k H1 H2.
    apply lookupIndex_buildIndex_id in H1, H2.
    destruct H1 as [H1|[tag [ft [o [e [Hn [_ Ht]]]]]]]; [discriminate|].
    destruct H2 as [H2|[tag' [ft' [o' [e' [Hn' [_ Ht']]]]]]]; [discriminate|].
    rewrite Hn in Hn'. injection Hn' as <- <-. rewrite Ht in Ht'.
    injection Ht' as <-. reflexivity.
  - intros e k f Hin Hl. apply written_fields_inv in Hin.
    destruct Hin as [k' [tag [ft [v [o [om [Hf [Hv [Hp [_ [_ [He Hb]]]]]]]]]]]].
    rewrite (lookupIndex_buildIndex_nth fields Hnd k' 0%nat [] _ _ _ _ _ Hf Hp)
      in Hl.
    injection Hl as <-. cbn [Nat.add].
    rewrite (nth_fieldDecoders _ _ _ _ Hf).
    eexists. split.
    + apply (flat_field_decodes ft v); eauto using nth_error_fields_flat.
    + exists k', tag, ft, v, o, om. auto.
  - apply sorted_collect_increasing. exact Hnd.
  - intros e k Hin Hl. apply lookupIndex_buildIndex_id in Hl.
    destruct Hl as [Hl|[tag [ft [o [e' [Hn _]]]]]]; [discriminate|].
    rewrite Nat.sub_0_r in Hn. rewrite Hdst. apply nth_error_Some.
    rewrite Hn. discriminate.
  - rewrite Ho. cbn [bind]. exists out. split; [reflexivity|].
    split; [exact Hl|].
    intros k tag ft v i o om ok Hf Hv Ep.
    destruct ok; cbn [andb].
    + pose proof (lookupIndex_buildIndex_nth fields Hnd k 0%nat [] _ _ _ _ _
                    Hf Ep) as Hk.
      cbn [Nat.add] in Hk.
      destruct (o && isPointer v && IsNil v) eqn:E1;
        [|destruct (om && isZeroValue ft v) eqn:E2]; cbn [negb andb].
      * apply Hun. intros e Hin Hl'. apply written_fields_inv in Hin.
        destruct Hin
          as [k' [tag' [ft' [v' [o' [om' [Hf' [Hv' [Hp' [N1 [_ _]]]]]]]]]]].
        rewrite (lookupIndex_buildIndex_nth fields Hnd k' 0%nat [] _ _ _ _ _
                   Hf' Hp') in Hl'.
        injection Hl' as ->. rewrite Hf in Hf'. injection Hf' as <- <-.
        rewrite Hv in Hv'. injection Hv' as <-. rewrite Ep in Hp'.
        injection Hp' as _ <- _. rewrite E1 in N1. discriminate.
      * apply Hun. intros e Hin Hl'. apply written_fields_inv in Hin.
        destruct Hin
          as [k' [tag' [ft' [v' [o' [om' [Hf' [Hv' [Hp' [_ [N2 _]]]]]]]]]]].
        rewrite (lookupIndex_buildIndex_nth fields Hnd k' 0%nat [] _ _ _ _ _
                   Hf' Hp') in Hl'.
        injection Hl' as ->. rewrite Hf in Hf'. injection Hf' as <- <-.
        rewrite Hv in Hv'. injection Hv' as <-. rewrite Ep in Hp'.
        injection Hp' as _ _ <-. rewrite E2 in N2. discriminate.
      * assert (Hin : In (mkFieldInfo i o om ft v (encodeValue ft v))
                         (sortFields (collectFields encodeValue fields vs))).
        { eapply Permutation_in; [apply Permutation_sym, sortFields_perm|].
          eapply collectFields_nth; eauto. }
        destruct (writeFields_encoded _ _ _ Hbuf Hin E1 E2) as [tlv He].
        cbn [encoded] in He.
        pose proof (wireFieldsOf_written _ _ tlv Hin E1 E2 He) as Hine.
        cbn [id] in Hine. fold es in Hine.
        destruct (HRs _ k Hine Hk)
          as [k' [tag' [ft' [v' [o' [om' [Hf' [Hv' [Hp' ->]]]]]]]]].
        cbn [wid] in Hp'.
        pose proof (lookupIndex_buildIndex_nth fields Hnd k' 0%nat [] _ _ _ _ _
                      Hf' Hp') as Hk'.
        rewrite Hk in Hk'. injection Hk' as ->.
        rewrite Hf in Hf'. injection Hf' as <- <-.
        rewrite Hv in Hv'. injection Hv' as <-. reflexivity.
    + apply Hun. intros e Hin Hl'. apply lookupIndex_buildIndex_id in Hl'.
      destruct Hl' as [Hl'|[tag' [ft' [o' [e' [Hn [_ Ht]]]]]]]; [discriminate|].
      rewrite Nat.sub_0_r, Hf in Hn. injection Hn as <- <-.
      rewrite Ep in Ht. discriminate.
Qed.

Lemma encodeFields_enumLike l :
  encodeFields l
  = if enumLike l then
      match find (fun fi => isPresent (value fi)) l with
      | Some fi => WriteEnumTLV (to_byte (id fi)) (encoded fi)
      | None => WriteStructTLV (writeFields (sortFields l))
      end
    else WriteStructTLV (writeFields (sortFields l)).
Proof. reflexivity. Qed.

Lemma filter_length_all {A} (P : A -> bool) l :
  length (filter P l) = length l -> forall a, In a l -> P a = true.
Proof.
  induction l as [|x l IH]; intros H a Hin; [destruct Hin|].
  cbn [filter] in H. pose proof (filter_length_le P l) as Hle.
  destruct (P x) eqn:Ex; cbn [length] in H.
  - destruct Hin as [<-|Hin]; [exact Ex|]. apply IH; [lia|exact Hin].
  - lia.
Qed.

Lemma find_filter_single {A} (P : A -> bool) l a :
  filter P l = [a] -> find P l = Some a.
Proof.
  induction l as [|x l IH]; cbn [filter find]; [discriminate|].
  destruct (P x); [|exact IH]. intros H. injection H as -> _. reflexivity.
Qed.

Lemma enumLike_inv l :
  enumLike l = true ->
  (forall fi, In fi l -> optional fi = true)
  /\ exists fi, filter (fun fi => isPresent (value fi)) l = [fi].
Proof.
  unfold enumLike. intros H. apply andb_prop in H. destruct H as [H H3].
  apply andb_prop in H. destruct H as [_ H2].
  apply Z.eqb_eq in H2, H3. unfold len in H2, H3.
  apply Nat2Z.inj in H2.
  pose proof (filter_length_all _ _ H2) as Hall. split; [exact Hall|].
  rewrite (filter_ext_in (fun fi => optional fi && isPresent (value fi))
             (fun fi => isPresent (value fi))) in H3
    by (intros fi Hin; rewrite (Hall fi Hin); reflexivity).
  destruct (filter (fun fi => isPresent (value fi)) l) as [|fi [|? ?]];
    cbn [length] in H3; try lia.
  exists fi. reflexivity.
Qed.

Lemma enum_path_roundtrip (fields : list (StructTag * GoType)) vs dst p
      k tag ft x :
  NoDup (taggedIDs fields) ->
  Forall (fun f => isBase (targetType (snd f)) = true) fields ->
  hasType (TStruct fields) (VStruct vs) = true ->
  enumLike (collectFields encodeValue fields vs) = true ->
  nth_error fields k = Some (tag, ft) ->
  nth_error vs k = Some (VPtr (Some x)) ->
  snd (ParseRelishTag tag) = true ->
  encodeFields (collectFields encodeValue fields vs) = Ok p ->
  (exists tlv,
      encodeValue (targetType ft) x = Ok tlv
      /\ p = 0x12 :: EncodeLen (1 + len tlv)
                  ++ fst (fst (fst (ParseRelishTag tag))) :: tlv)
  /\ forall rest,
       decodeElem (TStruct fields) (VStruct dst) (p ++ rest)
       = Ok (VStruct (setField k (VPtr (Some x)) dst), rest).
Proof.
  intros Hnd Hflat Hty He Hf Hv Hok Hm.
  destruct (hasType_struct_nth _ _ Hty) as [Hlen Htyk].
  destruct (ParseRelishTag tag) as [[[i o] om] ok] eqn:Ep.
  cbn [snd fst] in *. subst ok.
  pose proof (ParseRelishTag_range _ _ _ _ Ep) as Hr.
  pose proof (collectFields_nth encodeValue _ _ _ _ _ _ _ _ _ Hf Hv Ep) as Hin.
  destruct (enumLike_inv _ He) as [_ [fi Hfi]].
  assert (Hfik : fi = mkFieldInfo i o om ft (VPtr (Some x))
                        (encodeValue ft (VPtr (Some x)))).
  { assert (H : In (mkFieldInfo i o om ft (VPtr (Some x))
                      (encodeValue ft (VPtr (Some x))))
                   (filter (fun fi => isPresent (value fi))
                      (collectFields encodeValue fields vs))).
    { apply filter_In. split; [exact Hin|reflexivity]. }
    rewrite Hfi in H. destruct H as [H|[]]. exact H. }
  rewrite encodeFields_enumLike, He, (find_filter_single _ _ _ Hfi), Hfik in Hm.
  cbn [id encoded] in Hm. rewrite to_byte_small in Hm by lia.
  apply WriteEnumTLV_inv in Hm. destruct Hm as [body [Eb [_ [-> Hmax]]]].
  pose proof (Htyk _ _ _ _ Hf Hv) as Ht.
  pose proof (nth_error_fields_flat _ _ _ _ Hflat Hf) as Hb.
  destruct ft as [| | |e|fs]; try discriminate Ht.
  cbn [targetType hasType] in *. cbn [encodeValue] in Eb.
  split; [exists body; auto|].
  intros rest. cbn [app]. rewrite decodeElem_enum. unfold decodeEnumInto.
  pose proof (len_nonneg body).
  rewrite <- app_assoc. rewrite ReadLen_EncodeLen by lia. cbn [bind].
  destruct (Z.ltb_spec (1 + len body) 1); [lia|].
  rewrite (ReadFull_app _ (i :: body) rest) by (rewrite len_cons; reflexivity).
  cbn [bind nth skipn].
  rewrite (findVariant_nth fields Hnd k 0%nat _ _ _ _ _ Hf Ep). cbn [Nat.add].
  fold noVariantDecoder. rewrite (nth_variantDecoders _ _ _ _ Hf).
  unfold decodeVariant. cbn [targetType].
  rewrite (decode_base_all e x _ body Hb Ht Eb). reflexivity.
Qed.

(** X21. Marshal then Unmarshal, field by field, for a struct that is
    written as a struct TLV: the field types are bool, uint32, string or
    pointers to them, the bound ids are pairwise distinct and the value is
    not enum-like.  Whatever the target held (its pointers sharing no
    pointee), the decode succeeds and keeps the number of fields; a field
    that the encoder wrote holds the value that was marshalled, except that
    a nil pointer comes back as a pointer to the zero value; every other
    field (untagged, an optional nil pointer, an omitempty zero value)
    keeps what the target held. *)
Theorem Marshal_Unmarshal_fields (fields : list (StructTag * GoType))
        (vs dst : list Value) (p : list byte) (d : Value)
  (Hnd : NoDup (taggedIDs fields))
  (Hflat : Forall (fun f => isBase (targetType (snd f)) = true) fields)
  (Hty : hasType (TStruct fields) (VStruct vs) = true)
  (Hdst : length dst = length fields)
  (Hpath : enumLike (collectFields encodeValue fields vs) = false)
  (Hm : Marshal (TStruct fields) (VStruct vs) = Ok p) :
  exists out,
    Unmarshal p (TPtr (TStruct fields)) (VPtr (Some (VStruct dst)))
    = Ok (VStruct out)
    /\ length out = length dst
    /\ forall k tag ft v i o om ok,
         nth_error fields k = Some (tag, ft) -> nth_error vs k = Some v ->
         ParseRelishTag tag = (i, o, om, ok) ->
         nth k out d
         = if ok && negb (o && isPointer v && IsNil v)
                 && negb (om && isZeroValue ft v)
           then match v with
                | VPtr None => VPtr (Some (Zero (targetType ft)))
                | _ => v
                end
           else nth k dst d.
Proof.
  unfold Marshal in Hm.
  rewrite encodeValue_struct, encodeFields_enumLike, Hpath in Hm.
  destruct (struct_path_roundtrip fields vs dst p d Hnd Hflat Hty Hdst Hm [])
    as [out [Ho [Hl Hk]]].
  rewrite app_nil_r in Ho. exists out. unfold Unmarshal, Decode.
  rewrite Ho. auto.
Qed.

Lemma Marshal_Unmarshal_fields_witness :
  exists out,
    Unmarshal [0x11; 0x0C; 0x00; 0x04; 0x0A; 0x00; 0x00; 0x00]
              (TPtr (TStruct WithOption))
              (VPtr (Some (VStruct [VUint32 7; VPtr (Some (VUint32 9))])))
    = Ok (VStruct out)
    /\ nth 0 out (VPtr None) = VUint32 10
    /\ nth 1 out (VPtr None) = VPtr (Some (VUint32 9)).
Proof.
  destruct (Marshal_Unmarshal_fields WithOption [VUint32 10; VPtr None]
              [VUint32 7; VPtr (Some (VUint32 9))]
              [0x11; 0x0C; 0x00; 0x04; 0x0A; 0x00; 0x00; 0x00] (VPtr None))
    as [out [Ho [_ Hk]]].
  - repeat constructor; cbn; intuition discriminate.
  - repeat constructor.
  - reflexivity.
  - reflexivity.
  - reflexivity.
  - reflexivity.
  - exists out. split; [exact Ho|]. split.
    + exact (Hk 0%nat _ _ _ _ _ _ _ eq_refl eq_refl eq_refl).
    + exact (Hk 1%nat _ _ _ _ _ _ _ eq_refl eq_refl eq_refl).
Defined.



Lemma nth_zero_fields (fields : list (StructTag * GoType)) j tag ft d :
  nth_error fields j = Some (tag, ft) ->
  nth j (map (fun f => Zero (snd f)) fields) d = Zero ft.
Proof.
  intros H. apply nth_error_nth. rewrite nth_error_map, H. reflexivity.
Qed.

(** A field that the encoder leaves out holds the zero value of its
    type. *)
Lemma skipped_value_zero ft v o om :
  isBase (targetType ft) = true -> hasType ft v = true ->
  (o && isPointer v && IsNil v) || (om && isZeroValue ft v) = true ->
  v = Zero ft.
Proof.
  intros Hb Ht Hs.
  destruct v as [b|n|s|[y|]|fs]; cbn [isPointer IsNil isZeroValue] in Hs;
    rewrite ?andb_false_r in Hs; cbn [orb] in Hs; try discriminate Hs.
  1-3: apply andb_prop in Hs; destruct Hs as [_ Hz];
    destruct ft; try discriminate Ht; apply DeepEqual_zero_base; auto.
  - destruct ft; try discriminate Ht. reflexivity.
  - destruct ft; try discriminate Ht. discriminate Hb.
Qed.

(** The round trip of a flat struct: what [Marshal] returns, [Unmarshal]
    reads back as the value that was marshalled. *)
Lemma roundtrip_identity (fields : list (StructTag * GoType))
        (vs : list Value) (p : list byte)
  (Hnd : NoDup (taggedIDs fields))
  (Hflat : Forall (fun f => isBase (targetType (snd f)) = true) fields)
  (Hty : hasType (TStruct fields) (VStruct vs) = true)
  (Hok : forall k tag ft v,
      nth_error fields k = Some (tag, ft) -> nth_error vs k = Some v ->
      exists i o om,
        ParseRelishTag tag = (i, o, om, true)
        /\ (o = true -> isPointer v = true)
        /\ (v = VPtr None -> o || om = true))
  (Hm : Marshal (TStruct fields) (VStruct vs) = Ok p) :
  Unmarshal p (TPtr (TStruct fields)) (VPtr (Some (Zero (TStruct fields))))
  = Ok (VStruct vs).
Proof.
  destruct (hasType_struct_nth _ _ Hty) as [Hlen Htyk].
  unfold Marshal in Hm. rewrite encodeValue_struct in Hm.
  cbn [Zero]. set (zs := map (fun f => Zero (snd f)) fields).
  assert (Hzs : length zs = length fields) by apply length_map.
  assert (Hfv : forall j, (j < length vs)%nat ->
             exists tag ft v, nth_error fields j = Some (tag, ft)
                              /\ nth_error vs j = Some v
                              /\ nth j vs (VPtr None) = v).
  { intros j Hj.
    destruct (nth_error fields j) as [[tag ft]|] eqn:Ef;
      [|apply nth_error_None in Ef; lia].
    destruct (nth_error vs j) as [v|] eqn:Ev;
      [|apply nth_error_None in Ev; lia].
    exists tag, ft, v. split; [reflexivity|]. split; [reflexivity|].
    apply nth_error_nth. exact Ev. }
  destruct (enumLike (collectFields encodeValue fields vs)) eqn:Hpath.
  - destruct (enumLike_inv _ Hpath) as [Hall [fi Hfi]].
    assert (Hin : In fi (filter (fun fi => isPresent (value fi))
                           (collectFields encodeValue fields vs)))
      by (rewrite Hfi; left; reflexivity).
    apply filter_In in Hin. destruct Hin as [Hin Hpres].
    destruct (collectFields_inv _ _ _ _ Hin)
      as [k [tag [v [Hf [Hv [Ep [Ev _]]]]]]].
    rewrite Ev in Hpres.
    destruct v as [| | |[x|]|]; try discriminate Hpres.
    destruct (enum_path_roundtrip fields vs zs p k tag (ftype fi) x
                Hnd Hflat Hty Hpath Hf Hv) as [_ Hd];
      [rewrite Ep; reflexivity|exact Hm|].
    specialize (Hd []). rewrite app_nil_r in Hd.
    unfold Unmarshal, Decode. rewrite Hd. cbn [bind]. do 2 f_equal.
    assert (Hk : (k < length zs)%nat).
    { rewrite Hzs. apply nth_error_Some. rewrite Hf. discriminate. }
    apply (nth_ext _ _ (VPtr None) (VPtr None));
      [rewrite setField_length; lia|].
    intros j Hj. rewrite setField_length in Hj.
    destruct (Hfv j ltac:(lia)) as [tagj [ftj [vj [Hfj [Hvj ->]]]]].
    destruct (Nat.eq_dec j k) as [->|Hne].
    + rewrite nth_setField_same by exact Hk.
      rewrite Hv in Hvj. injection Hvj as <-. reflexivity.
    + rewrite nth_setField_other by exact Hne.
      unfold zs. rewrite (nth_zero_fields _ _ _ _ _ Hfj).
      destruct (Hok _ _ _ _ Hfj Hvj) as [i [o [om [Epj [Hptr _]]]]].
      pose proof (collectFields_nth encodeValue _ _ _ _ _ _ _ _ _ Hfj Hvj Epj)
        as Hinj.
      pose proof (Hall _ Hinj) as Ho. cbn [optional] in Ho.
      specialize (Hptr Ho). pose proof (Htyk _ _ _ _ Hfj Hvj) as Htj.
      destruct vj as [| | |[y|]|]; try discriminate Hptr.
      * exfalso. apply Hne.
        assert (Hinf : In (mkFieldInfo i o om ftj (VPtr (Some y))
                             (encodeValue ftj (VPtr (Some y))))
                          (filter (fun fi => isPresent (value fi))
                             (collectFields encodeValue fields vs)))
          by (apply filter_In; split; [exact Hinj|reflexivity]).
        rewrite Hfi in Hinf. destruct Hinf as [Hinf|[]]. subst fi.
        cbn [id optional omitempty] in Ep.
        pose proof (lookupIndex_buildIndex_nth fields Hnd j 0%nat [] _ _ _ _ _
                      Hfj Epj) as L1.
        pose proof (lookupIndex_buildIndex_nth fields Hnd k 0%nat [] _ _ _ _ _
                      Hf Ep) as L2.
        rewrite L1 in L2. injection L2 as L2. exact L2.
      * destruct ftj; try discriminate Htj. reflexivity.
  - rewrite encodeFields_enumLike, Hpath in Hm.
    destruct (struct_path_roundtrip fields vs zs p (VPtr None)
                Hnd Hflat Hty Hzs Hm []) as [out [Ho [Hl Hk]]].
    rewrite app_nil_r in Ho. unfold Unmarshal, Decode. rewrite Ho.
    cbn [bind]. do 2 f_equal.
    apply (nth_ext _ _ (VPtr None) (VPtr None)); [lia|].
    intros j Hj.
    destruct (Hfv j ltac:(lia)) as [tag [ft [v [Hf [Hv ->]]]]].
    destruct (Hok _ _ _ _ Hf Hv) as [i [o [om [Ep [_ Hnil]]]]].
    rewrite (Hk _ _ _ _ _ _ _ _ Hf Hv Ep). cbn [andb].
    pose proof (Htyk _ _ _ _ Hf Hv) as Ht.
    pose proof (nth_error_fields_flat _ _ _ _ Hflat Hf) as Hb.
    destruct (o && isPointer v && IsNil v) eqn:E1;
      [|destruct (om && isZeroValue ft v) eqn:E2]; cbn [negb andb].
    + unfold zs. rewrite (nth_zero_fields _ _ _ _ _ Hf). symmetry.
      apply (skipped_value_zero ft v o om Hb Ht). rewrite E1. reflexivity.
    + unfold zs. rewrite (nth_zero_fields _ _ _ _ _ Hf). symmetry.
      apply (skipped_value_zero ft v o om Hb Ht). rewrite E1, E2. reflexivity.
    + destruct v as [| | |[y|]|]; try reflexivity.
      specialize (Hnil eq_refl). cbn [isPointer IsNil isZeroValue] in E1, E2.
      destruct o, om; discriminate.
Qed.

(** X23. Round trip, as an identity.  For a struct of bool, uint32 and
    string fields and pointers to them, with pairwise distinct ids, in
    which every field is bound, every optional field is a pointer, and
    every nil pointer is optional or omitempty: if Marshal returns bytes,
    Unmarshal of these bytes into a zero value of the type returns the
    value that was marshalled. *)
Theorem Marshal_Unmarshal_identity (fields : list (StructTag * GoType))
        (vs : list Value) (p : list byte)
  (Hnd : NoDup (taggedIDs fields))
  (Hflat : Forall (fun f => isBase (targetType (snd f)) = true) fields)
  (Hty : hasType (TStruct fields) (VStruct vs) = true)
  (Hok : forall k tag ft v,
      nth_error fields k = Some (tag, ft) -> nth_error vs k = Some v ->
      exists i o om,
        ParseRelishTag tag = (i, o, om, true)
        /\ (o = true -> isPointer v = true)
        /\ (v = VPtr None -> o || om = true))
  (Hm : Marshal (TStruct fields) (VStruct vs) = Ok p) :
  Unmarshal p (TPtr (TStruct fields)) (VPtr (Some (Zero (TStruct fields))))
  = Ok (VStruct vs).
Proof.
  exact (roundtrip_identity fields vs p Hnd Hflat Hty Hok Hm).
Qed.

Lemma Marshal_Unmarshal_identity_witness :
  Unmarshal [0x11; 0x22; 0x00; 0x04; 0x2A; 0x00; 0x00; 0x00;
             0x01; 0x0E; 0x0A; 104; 101; 108; 108; 111; 0x05; 0x01; 0xFF]
            (TPtr (TStruct MultiField))
            (VPtr (Some (Zero (TStruct MultiField))))
  = Ok (VStruct [VUint32 42; VString [104; 101; 108; 108; 111]; VBool true]).
Proof.
  apply (Marshal_Unmarshal_identity MultiField
           [VUint32 42; VString [104; 101; 108; 108; 111]; VBool true]).
  - repeat constructor; cbn; intuition discriminate.
  - repeat constructor.
  - reflexivity.
  - intros k tag ft v Hf Hv.
    destruct k as [|[|[|k]]]; cbn in Hf, Hv;
      try (destruct k; discriminate Hf);
      injection Hf as <- <-; injection Hv as <-;
      do 3 eexists; (split; [reflexivity|]); split; discriminate.
  - reflexivity.
Defined.

(** ** The round trip of the specification *)

Lemma encodeOutcome_mono (P Q : Prop) r :
  (P -> Q) -> encodeOutcome P r -> encodeOutcome Q r.
Proof.
  intros HPQ [H|[[H HP]|H]].
  - left. exact H.
  - right. left. split; [exact H|apply HPQ, HP].
  - right. right. exact H.
Qed.

Lemma WriteLen_outcome n :
  WriteLen n = Ok (EncodeLen n)
  \/ WriteLen n = Err (PlainError "length out of range").
Proof. unfold WriteLen. destruct (SizeOfLen n <? 0); auto. Qed.

Lemma WriteStringTLV_outcome s :
  encodeOutcome (utf8_Valid s = false) (WriteStringTLV s).
Proof.
  unfold WriteStringTLV. destruct (utf8_Valid s); cbn [negb].
  - rewrite WriteType_ok by reflexivity. cbn [bind].
    destruct (WriteLen_outcome (len s)) as [-> | ->]; cbn [bind].
    + left. destruct (len s =? 0); eexists; reflexivity.
    + right. right. reflexivity.
  - right. left. split; reflexivity.
Qed.

Lemma base_encode_outcome e x :
  isBase e = true -> hasType e x = true ->
  encodeOutcome (exists s, x = VString s /\ utf8_Valid s = false)
                (encodeValue e x).
Proof.
  destruct e; try discriminate; destruct x; try discriminate;
    intros _ _; cbn [encodeValue].
  - left. unfold WriteBoolTLV. rewrite WriteType_ok by reflexivity.
    eexists. reflexivity.
  - left. unfold WriteU32TLV. rewrite WriteType_ok by reflexivity.
    eexists. reflexivity.
  - eapply encodeOutcome_mono; [|apply WriteStringTLV_outcome].
    intros H. exists s. split; [reflexivity|exact H].
Qed.

Lemma flat_encode_outcome ft v :
  isBase (targetType ft) = true -> hasType ft v = true ->
  encodeOutcome
    (exists s, (v = VString s \/ v = VPtr (Some (VString s)))
               /\ utf8_Valid s = false)
    (encodeValue ft v).
Proof.
  intros Hb Ht.
  destruct ft as [| | |e|fs]; cbn [targetType] in Hb; try discriminate Hb.
  1-3: eapply encodeOutcome_mono; [|eapply base_encode_outcome; eassumption];
    intros [s [E Hs]]; exists s; split; [left; exact E|exact Hs].
  destruct v as [| | |[x|]|]; try discriminate Ht.
  - assert (E : encodeValue (TPtr e) (VPtr (Some x)) = encodeValue e x)
      by reflexivity.
    rewrite E. cbn [hasType] in Ht.
    eapply encodeOutcome_mono; [|eapply base_encode_outcome; eassumption].
    intros [s [-> Hs]]. exists s. split; [right; reflexivity|exact Hs].
  - rewrite encodeValue_nil_pointer
      by (intros e' ->; discriminate Hb).
    rewrite encodeValue_zero_base by exact Hb. left. eexists. reflexivity.
Qed.

Lemma writeFields_outcome (P : Prop) l :
  Forall (fun fi => 0 <= id fi < 128 /\ encodeOutcome P (encoded fi)) l ->
  encodeOutcome P (writeFields l).
Proof.
  induction 1 as [|fi l [Hid Hfi] Hl IH]; [left; eexists; reflexivity|].
  cbn [writeFields].
  destruct (optional fi && isPointer (value fi) && IsNil (value fi));
    [exact IH|].
  destruct (omitempty fi && isZeroValue (ftype fi) (value fi)); [exact IH|].
  rewrite to_byte_small by lia.
  rewrite WriteType_ok by (apply land_128_small; exact Hid). cbn [bind].
  destruct Hfi as [[b ->]|[[-> HP] | ->]]; cbn [bind].
  - destruct IH as [[c ->]|[[-> HP] | ->]]; cbn [bind].
    + left. eexists. reflexivity.
    + right. left. split; [reflexivity|exact HP].
    + right. right. reflexivity.
  - right. left. split; [reflexivity|exact HP].
  - right. right. reflexivity.
Qed.

Lemma WriteStructTLV_outcome (P : Prop) w :
  encodeOutcome P w -> encodeOutcome P (WriteStructTLV w).
Proof.
  unfold WriteStructTLV. intros [[b ->]|[[-> HP] | ->]]; cbn [bind].
  - rewrite WriteType_ok by reflexivity. cbn [bind].
    destruct (WriteLen_outcome (len b)) as [-> | ->]; cbn [bind].
    + left. eexists. reflexivity.
    + right. right. reflexivity.
  - right. left. split; [reflexivity|exact HP].
  - right. right. reflexivity.
Qed.

Lemma WriteEnumTLV_outcome (P : Prop) vid w :
  Z.land vid 0x80 = 0 ->
  encodeOutcome P w -> encodeOutcome P (WriteEnumTLV vid w).
Proof.
  unfold WriteEnumTLV. intros Hv. rewrite Hv. cbn [Z.eqb negb].
  intros [[b ->]|[[-> HP] | ->]]; cbn [bind].
  - rewrite WriteType_ok by reflexivity. cbn [bind].
    match goal with
    | |- context [WriteLen ?n] =>
        destruct (WriteLen_outcome n) as [-> | ->]; cbn [bind]
    end.
    + left. eexists. reflexivity.
    + right. right. reflexivity.
  - right. left. split; [reflexivity|exact HP].
  - right. right. reflexivity.
Qed.

(** [Marshal] of a flat struct fails only on a string that is not valid
    UTF-8 or on a length that does not fit. *)
Lemma Marshal_outcome (fields : list (StructTag * GoType)) (vs : list Value) :
  Forall (fun f => isBase (targetType (snd f)) = true) fields ->
  hasType (TStruct fields) (VStruct vs) = true ->
  encodeOutcome
    (exists v s, In v vs
                 /\ (v = VString s \/ v = VPtr (Some (VString s)))
                 /\ utf8_Valid s = false)
    (Marshal (TStruct fields) (VStruct vs)).
Proof.
  intros Hflat Hty.
  destruct (hasType_struct_nth _ _ Hty) as [_ Htyk].
  unfold Marshal. rewrite encodeValue_struct.
  set (P := exists v s, In v vs
                        /\ (v = VString s \/ v = VPtr (Some (VString s)))
                        /\ utf8_Valid s = false).
  assert (Hall : forall fi, In fi (collectFields encodeValue fields vs) ->
                   0 <= id fi < 128 /\ encodeOutcome P (encoded fi)).
  { intros fi Hin. split; [apply (collectFields_In _ _ _ _ Hin)|].
    destruct (collectFields_inv _ _ _ _ Hin)
      as [k [tag [v [Hf [Hv [_ [_ Ee]]]]]]].
    rewrite Ee.
    eapply encodeOutcome_mono;
      [|apply flat_encode_outcome;
        [exact (nth_error_fields_flat _ _ _ _ Hflat Hf)
        |exact (Htyk _ _ _ _ Hf Hv)]].
    intros [s Hs]. exists v, s. split; [|exact Hs].
    eapply nth_error_In, Hv. }
  assert (Hstruct : encodeOutcome P
            (WriteStructTLV
               (writeFields (sortFields (collectFields encodeValue fields vs))))).
  { apply WriteStructTLV_outcome, writeFields_outcome.
    apply Forall_forall. intros fi Hin. apply Hall.
    eapply Permutation_in; [apply sortFields_perm|exact Hin]. }
  rewrite encodeFields_enumLike.
  destruct (enumLike (collectFields encodeValue fields vs)); [|exact Hstruct].
  destruct (find (fun fi => isPresent (value fi))
                 (collectFields encodeValue fields vs)) as [fi|] eqn:Ef;
    [|exact Hstruct].
  apply find_some in Ef. destruct Ef as [Hin _].
  destruct (Hall fi Hin) as [Hid Ho].
  apply WriteEnumTLV_outcome; [|exact Ho].
  rewrite to_byte_small by lia. apply land_128_small. exact Hid.
Qed.

(** C1, as stated, fails, in three ways.  A string field that holds the
    byte FF is a value of its type, but [Marshal] rejects it, since the
    string is not valid UTF-8.  A field without a relish tag is not written,
    so a struct with such a field comes back with the field at its zero
    value.  And for a struct type that binds id 0 twice, [Marshal] writes
    field 0 twice, which [Unmarshal] rejects. *)
Lemma roundtrip_fails :
  hasType (TStruct [(TagParts (Some 0) false false, TString)])
          (VStruct [VString [0xFF]]) = true
  /\ Marshal (TStruct [(TagParts (Some 0) false false, TString)])
            (VStruct [VString [0xFF]])
     = Err (PlainError "invalid utf-8")
  /\ Marshal (TStruct WithSkip) (VStruct [VUint32 42; VString [120]])
     = Ok [0x11; 0x0C; 0x00; 0x04; 42; 0; 0; 0]
  /\ Unmarshal [0x11; 0x0C; 0x00; 0x04; 42; 0; 0; 0]
              (TPtr (TStruct WithSkip)) (VPtr (Some (Zero (TStruct WithSkip))))
     = Ok (VStruct [VUint32 42; VString []])
  /\ Marshal DupIDs (VStruct [VUint32 1; VUint32 2])
     = Ok [0x11; 0x18; 0x00; 0x04; 1; 0; 0; 0; 0x00; 0x04; 2; 0; 0; 0]
  /\ Unmarshal [0x11; 0x18; 0x00; 0x04; 1; 0; 0; 0; 0x00; 0x04; 2; 0; 0; 0]
              (TPtr DupIDs) (VPtr (Some (Zero DupIDs)))
     = Err (RelishError ErrFieldOrder "field ids not strictly increasing").
Proof. repeat split. Qed.

(** C1 (amended). For a struct value of bool, uint32 and string fields and
    pointers to them, in which every field carries a relish tag, the ids are
    pairwise distinct, every optional field is a pointer and every nil
    pointer is optional or omitempty: [Marshal] returns bytes, or the error
    of invalid UTF-8, and then one of the strings of the value is not valid
    UTF-8, or the error of a length out of range; and whenever [Marshal]
    returns bytes, [Unmarshal] of these bytes into a zero value of the type
    succeeds with the value that was marshalled. *)
Theorem Marshal_Unmarshal_roundtrip (fields : list (StructTag * GoType))
        (vs : list Value)
  (Hnd : NoDup (taggedIDs fields))
  (Hflat : Forall (fun f => isBase (targetType (snd f)) = true) fields)
  (Hty : hasType (TStruct fields) (VStruct vs) = true)
  (Hok : forall k tag ft v,
      nth_error fields k = Some (tag, ft) -> nth_error vs k = Some v ->
      exists i o om,
        ParseRelishTag tag = (i, o, om, true)
        /\ (o = true -> isPointer v = true)
        /\ (v = VPtr None -> o || om = true)) :
  ((exists p, Marshal (TStruct fields) (VStruct vs) = Ok p)
   \/ (Marshal (TStruct fields) (VStruct vs) = Err (PlainError "invalid utf-8")
       /\ exists v s, In v vs
                      /\ (v = VString s \/ v = VPtr (Some (VString s)))
                      /\ utf8_Valid s = false)
   \/ Marshal (TStruct fields) (VStruct vs)
      = Err (PlainError "length out of range"))
  /\ (forall p,
        Marshal (TStruct fields) (VStruct vs) = Ok p ->
        Unmarshal p (TPtr (TStruct fields))
                  (VPtr (Some (Zero (TStruct fields))))
        = Ok (VStruct vs)).
Proof.
  split.
  - exact (Marshal_outcome fields vs Hflat Hty).
  - intros p Hm. exact (roundtrip_identity fields vs p Hnd Hflat Hty Hok Hm).
Qed.

(** A struct with a plain field and an optional pointer that is nil. *)
Lemma Marshal_Unmarshal_roundtrip_witness :
  Unmarshal [0x11; 0x0C; 0x00; 0x04; 7; 0; 0; 0]
            (TPtr (TStruct WithOption))
            (VPtr (Some (Zero (TStruct WithOption))))
  = Ok (VStruct [VUint32 7; VPtr None]).
Proof.
  refine (proj2 (Marshal_Unmarshal_roundtrip WithOption
                   [VUint32 7; VPtr None] _ _ _ _) _ _).
  - repeat constructor; cbn; intuition discriminate.
  - repeat constructor.
  - reflexivity.
  - intros k tag ft v Hf Hv.
    destruct k as [|[|k]]; cbn in Hf, Hv;
      try (destruct k; discriminate Hf);
      injection Hf as <- <-; injection Hv as <-;
      do 3 eexists; (split; [reflexivity|]); split;
      first [discriminate | reflexivity | intros _; reflexivity].
  - reflexivity.
Defined.

(** * Further properties: the text encoder *)

(** ** What [encodeValueTLV] emits *)

Lemma WriteArrayTLV_inv et w p :
  WriteArrayTLV et w = Ok p ->
  exists elems,
    w = Ok elems /\ Z.land et 0x80 = 0
    /\ p = 0x0F :: EncodeLen (len (et :: elems)) ++ et :: elems
    /\ len (et :: elems) <= MaxLen.
Proof.
  unfold WriteArrayTLV.
  destruct (Z.eqb_spec (Z.land et 128) 0) as [Hv|Hv]; [|discriminate].
  cbn [negb]. rewrite WriteType_ok by exact Hv. cbn [bind].
  destruct w as [elems|]; [|discriminate]. cbn [bind app].
  rewrite WriteType_ok by reflexivity. cbn [bind].
  destruct (WriteLen (len (et :: elems))) as [l|] eqn:El; [|discriminate].
  cbn [bind]. apply WriteLen_inv in El. destruct El as [-> Hl].
  intros E. injection E as <-. exists elems.
  split; [reflexivity|]. split; [exact Hv|]. split; [reflexivity|lia].
Qed.

Lemma WriteMapTLV_inv kt vt w p :
  WriteMapTLV kt vt w = Ok p ->
  exists pairs,
    w = Ok pairs /\ Z.land kt 0x80 = 0 /\ Z.land vt 0x80 = 0
    /\ p = 0x10 :: EncodeLen (len (kt :: vt :: pairs)) ++ kt :: vt :: pairs
    /\ len (kt :: vt :: pairs) <= MaxLen.
Proof.
  unfold WriteMapTLV.
  destruct (Z.eqb_spec (Z.land kt 128) 0) as [Hk|Hk]; [|discriminate].
  destruct (Z.eqb_spec (Z.land vt 128) 0) as [Hv|Hv]; [|discriminate].
  cbn [negb orb]. rewrite !WriteType_ok by assumption. cbn [bind].
  destruct w as [pairs|]; [|discriminate]. cbn [bind app].
  rewrite WriteType_ok by reflexivity. cbn [bind].
  destruct (WriteLen (len (kt :: vt :: pairs))) as [l|] eqn:El;
    [|discriminate].
  cbn [bind]. apply WriteLen_inv in El. destruct El as [-> Hl].
  intros E. injection E as <-. exists pairs.
  split; [reflexivity|]. split; [exact Hk|]. split; [exact Hv|].
  split; [reflexivity|lia].
Qed.

Lemma varsize_complete t content rest :
  Z.land t 0x80 = 0 -> snd (FixedSize t) = false -> len content <= MaxLen ->
  readTLVBytes ((t :: EncodeLen (len content) ++ content) ++ rest)
  = Ok (t :: EncodeLen (len content) ++ content, rest).
Proof.
  intros Ht Hf Hl. cbn [app]. rewrite <- app_assoc.
  apply readTLVBytes_varsize; auto. pose proof (len_nonneg content). lia.
Qed.

Lemma fixed_complete t content rest :
  Z.land t 0x80 = 0 -> FixedSize t = (len content, true) ->
  readTLVBytes ((t :: content) ++ rest) = Ok (t :: content, rest).
Proof.
  intros Ht Hf. cbn [app]. apply (readTLVBytes_fixed t (len content)); auto.
Qed.

Lemma typeID_ok t :
  snd (textrep.typeID t) = true /\ Z.land (fst (textrep.typeID t)) 0x80 = 0.
Proof. destruct t as [k key elem]. destruct k; split; reflexivity. Qed.

Lemma encodeValueTLV_array f elem vs :
  textrep.encodeValueTLV f (textrep.valArr elem vs)
  = WriteArrayTLV (fst (textrep.typeID elem))
      (textrep.writeElems (map (textrep.encodeValueTLV f) vs)).
Proof.
  cbn [textrep.encodeValueTLV].
  destruct (typeID_ok elem) as [Hok _].
  destruct (textrep.typeID elem) as [etid ok]. cbn [snd fst] in *. subst ok.
  cbn [negb]. reflexivity.
Qed.

Lemma encodeValueTLV_map f key val ps :
  textrep.encodeValueTLV f (textrep.valMap key val ps)
  = WriteMapTLV (fst (textrep.typeID key)) (fst (textrep.typeID val))
      (textrep.writePairs []
         (map (fun p => (textrep.encodeValueTLV f (fst p),
                         textrep.encodeValueTLV f (snd p))) ps)).
Proof.
  cbn [textrep.encodeValueTLV].
  destruct (typeID_ok key) as [Hk _]. destruct (typeID_ok val) as [Hv _].
  destruct (textrep.typeID key) as [ktid ok].
  destruct (textrep.typeID val) as [vtid ok'].
  cbn [snd fst] in *. subst ok ok'. cbn [negb]. f_equal. f_equal.
  induction ps as [|[pk pv] ps IH]; [reflexivity|]. cbn [map fst snd].
  rewrite <- IH. reflexivity.
Qed.

Lemma encodeValueTLV_struct f fields :
  textrep.encodeValueTLV f (textrep.valStruct fields)
  = WriteStructTLV
      (textrep.writeNested (-1)
         (textrep.sortByID (textrep.encFields f fields))).
Proof.
  reflexivity.
Qed.

Lemma PutUint64_length v : len (PutUint64 v) = 8.
Proof. reflexivity. Qed.

Lemma encodeValueTLV_readTLVBytes f v tlv :
  textrep.encodeValueTLV f v = Ok tlv ->
  forall rest, readTLVBytes (tlv ++ rest) = Ok (tlv, rest).
Proof.
  intros E rest. destruct v.
  - discriminate.
  - injection E as <-. reflexivity.
  - injection E as <-. destruct v; reflexivity.
  - cbn [textrep.encodeValueTLV] in E. apply WriteStringTLV_inv in E.
    destruct E as [-> [_ Hl]]. apply varsize_complete; auto.
  - injection E as <-. apply fixed_complete; reflexivity.
  - cbn [textrep.encodeValueTLV] in E.
    destruct signed;
      (destruct bits as [|p|p]; try discriminate E;
       do 8 (try (destruct p as [p|p|]; try discriminate E)));
      injection E as <-; apply fixed_complete; reflexivity.
  - cbn [textrep.encodeValueTLV] in E.
    destruct f32; injection E as <-; apply fixed_complete; reflexivity.
  - cbn [textrep.encodeValueTLV] in E. apply WriteEnumTLV_inv in E.
    destruct E as [body [_ [_ [-> Hl]]]].
    rewrite <- (len_cons (to_byte variant) body) in *.
    apply varsize_complete; auto.
  - rewrite encodeValueTLV_array in E. apply WriteArrayTLV_inv in E.
    destruct E as [elems [_ [_ [-> Hl]]]]. apply varsize_complete; auto.
  - rewrite encodeValueTLV_map in E. apply WriteMapTLV_inv in E.
    destruct E as [pairs' [_ [_ [_ [-> Hl]]]]]. apply varsize_complete; auto.
  - rewrite encodeValueTLV_struct in E. apply WriteStructTLV_inv in E.
    destruct E as [buf [_ [-> Hl]]]. apply varsize_complete; auto.
Qed.

Lemma encodeValueTLV_type_byte f v tlv :
  textrep.encodeValueTLV f v = Ok tlv ->
  exists t body, tlv = t :: body /\ Z.land t 0x80 = 0.
Proof.
  intros H. pose proof (encodeValueTLV_readTLVBytes f v tlv H []) as R.
  destruct tlv as [|t body]; [discriminate R|].
  exists t, body. split; [reflexivity|].
  destruct (Z.eq_dec (Z.land t 0x80) 0) as [E|E]; [exact E|].
  cbn [app] in R. rewrite readTLVBytes_reserved in R by exact E.
  discriminate R.
Qed.

(** X24. Whatever value the text encoder is given, what [encodeValueTLV]
    returns on success is one complete TLV: it starts with a type byte
    whose top bit is clear, and [readTLVBytes] reads exactly these bytes
    back from the front of any stream.  So the checks for an empty element,
    key or value TLV in the array and map loops never fail. *)
Theorem textrep_value_is_one_TLV (f : Z -> Z) (v : textrep.value)
        (tlv : list byte)
  (H : textrep.encodeValueTLV f v = Ok tlv) :
  (exists t body, tlv = t :: body /\ Z.land t 0x80 = 0)
  /\ forall rest, readTLVBytes (tlv ++ rest) = Ok (tlv, rest).
Proof.
  split.
  - eapply encodeValueTLV_type_byte, H.
  - eapply encodeValueTLV_readTLVBytes, H.
Qed.

Lemma textrep_value_is_one_TLV_witness :
  readTLVBytes ([0x12; 0x0C; 0x03; 0x0F; 0x06; 0x01; 0x00; 0xFF] ++ [0x2A])
  = Ok ([0x12; 0x0C; 0x03; 0x0F; 0x06; 0x01; 0x00; 0xFF], [0x2A]).
Proof.
  exact (proj2 (textrep_value_is_one_TLV (fun x => x)
                  (textrep.valEnum 3
                     (textrep.valArr (textrep.mkRType textrep.tBool None None)
                        [textrep.valBool false; textrep.valBool true]))
                  [0x12; 0x0C; 0x03; 0x0F; 0x06; 0x01; 0x00; 0xFF]
                  eq_refl) [0x2A]).
Defined.

(** ** Map keys in the text encoder *)

Lemma bytes_eqb_eq a b : textrep.bytes_eqb a b = true <-> a = b.
Proof.
  unfold textrep.bytes_eqb. destruct (list_eq_dec Z.eq_dec a b); split; auto.
  discriminate.
Qed.

Lemma existsb_bytes_eqb pl seen :
  existsb (textrep.bytes_eqb pl) seen = false -> ~ In pl seen.
Proof.
  intros H Hin. assert (E : existsb (textrep.bytes_eqb pl) seen = true).
  { apply existsb_exists. exists pl. split; [exact Hin|].
    apply bytes_eqb_eq. reflexivity. }
  rewrite H in E. discriminate.
Qed.

Lemma writePairs_ok ps :
  forall seen out,
    textrep.writePairs seen ps = Ok out ->
    exists pls,
      Forall2 (fun p pl => exists t, fst p = Ok (t :: pl)) ps pls
      /\ NoDup pls /\ forall pl, In pl pls -> ~ In pl seen.
Proof.
  induction ps as [|[ek ev] ps IH]; intros seen out H.
  - exists []. split; [constructor|]. split; [constructor|]. intros pl [].
  - cbn [textrep.writePairs] in H.
    destruct ek as [ktlv|]; [|discriminate]. cbn [bind] in H.
    destruct ev as [vtlv|]; [|discriminate]. cbn [bind] in H.
    destruct ktlv as [|t pl]; [discriminate|].
    rewrite len_cons in H. pose proof (len_nonneg pl) as Hp.
    destruct (Z.ltb_spec (1 + len pl) 1); [lia|]. cbn [skipn] in H.
    destruct (existsb (textrep.bytes_eqb pl) seen) eqn:Es; [discriminate|].
    destruct (len vtlv <? 1); [discriminate|].
    destruct (textrep.writePairs (pl :: seen) ps) as [rest|] eqn:Er;
      [|discriminate].
    destruct (IH _ _ Er) as [pls [HF [Hnd Hs]]].
    exists (pl :: pls). split; [|split].
    + constructor; [exists t; reflexivity|exact HF].
    + constructor; [|exact Hnd]. intros Hin. apply (Hs pl Hin). left.
      reflexivity.
    + intros pl' [<-|Hin].
      * apply existsb_bytes_eqb. exact Es.
      * intros Hin'. apply (Hs pl' Hin). right. exact Hin'.
Qed.

Lemma writePairs_err ps :
  Forall (fun p => is_ok (fst p) && is_ok (snd p) = true) ps ->
  Forall (fun p => forall t, fst p = Ok t -> t <> []) ps ->
  Forall (fun p => forall t, snd p = Ok t -> t <> []) ps ->
  forall seen e,
    textrep.writePairs seen ps = Err e ->
    e = PlainError "duplicate map key".
Proof.
  induction 1 as [|[ek ev] ps Hp _ IH]; intros Hk Hv seen e H;
    [discriminate|].
  inversion Hk as [|? ? Hk1 Hk2]; subst. inversion Hv as [|? ? Hv1 Hv2]; subst.
  cbn [fst snd] in *. cbn [textrep.writePairs] in H.
  destruct ek as [ktlv|]; [|discriminate Hp].
  destruct ev as [vtlv|]; [|discriminate Hp]. cbn [bind] in H.
  destruct ktlv as [|t pl]; [exfalso; apply (Hk1 [] eq_refl); reflexivity|].
  destruct vtlv as [|t' vl]; [exfalso; apply (Hv1 [] eq_refl); reflexivity|].
  rewrite !len_cons in H.
  pose proof (len_nonneg pl). pose proof (len_nonneg vl).
  destruct (Z.ltb_spec (1 + len pl) 1); [lia|]. cbn [skipn] in H.
  destruct (existsb (textrep.bytes_eqb pl) seen);
    [injection H as <-; reflexivity|].
  destruct (Z.ltb_spec (1 + len vl) 1); [lia|].
  destruct (textrep.writePairs (pl :: seen) ps) as [rest|] eqn:Er;
    [discriminate|].
  cbn [bind] in H. injection H as <-. eapply IH; eauto.
Qed.

Lemma NoDup_app_twice {A} (l1 l2 l3 : list A) x :
  ~ NoDup (l1 ++ x :: l2 ++ x :: l3).
Proof.
  intros H. apply NoDup_remove_2 in H. apply H.
  apply in_or_app. right. apply in_or_app. right. left. reflexivity.
Qed.

(** X25. Map literals in the text encoder.  When [encodeValueTLV] returns
    bytes for a map, the payloads of its keys (their TLVs without the type
    byte) are pairwise distinct.  A map in which the same key occurs twice
    is never encoded; when all its keys and values encode, the error is
    the duplicate-key error. *)
Theorem textrep_map_keys (f : Z -> Z) (kt vt : textrep.rType)
        (pairs : list (textrep.value * textrep.value)) :
  (forall tlv,
      textrep.encodeValueTLV f (textrep.valMap kt vt pairs) = Ok tlv ->
      exists payloads,
        Forall2 (fun p pl =>
                   exists t, textrep.encodeValueTLV f (fst p) = Ok (t :: pl))
                pairs payloads
        /\ NoDup payloads)
  /\ (forall ps1 k v1 ps2 v2 ps3,
         pairs = ps1 ++ (k, v1) :: ps2 ++ (k, v2) :: ps3 ->
         is_ok (textrep.encodeValueTLV f (textrep.valMap kt vt pairs)) = false
         /\ (Forall (fun p =>
                       is_ok (textrep.encodeValueTLV f (fst p))
                       && is_ok (textrep.encodeValueTLV f (snd p)) = true)
                    pairs ->
             textrep.encodeValueTLV f (textrep.valMap kt vt pairs)
             = Err (PlainError "duplicate map key"))).
Proof.
  assert (S1 : forall tlv,
             textrep.encodeValueTLV f (textrep.valMap kt vt pairs) = Ok tlv ->
             exists payloads,
               Forall2 (fun p pl =>
                          exists t,
                            textrep.encodeValueTLV f (fst p) = Ok (t :: pl))
                       pairs payloads
               /\ NoDup payloads).
  { intros tlv H. rewrite encodeValueTLV_map in H.
    apply WriteMapTLV_inv in H. destruct H as [out [Hw _]].
    apply writePairs_ok in Hw. destruct Hw as [pls [HF [Hnd _]]].
    exists pls. split; [|exact Hnd].
    clear -HF. revert pls HF.
    induction pairs as [|p ps IH]; intros pls HF.
    - inversion HF; subst. constructor.
    - inversion HF as [|? pl ? pls' Hp HF']; subst. constructor.
      + exact Hp.
      + apply IH. exact HF'. }
  assert (S2 : forall ps1 k v1 ps2 v2 ps3,
             pairs = ps1 ++ (k, v1) :: ps2 ++ (k, v2) :: ps3 ->
             is_ok (textrep.encodeValueTLV f (textrep.valMap kt vt pairs))
             = false).
  { intros ps1 k v1 ps2 v2 ps3 Hp.
    destruct (textrep.encodeValueTLV f (textrep.valMap kt vt pairs))
      as [tlv|] eqn:E; [|reflexivity].
    exfalso. destruct (S1 tlv eq_refl) as [pls [HF Hnd]]. subst pairs.
    apply Forall2_app_inv_l in HF.
    destruct HF as [l1 [l' [_ [HF ->]]]].
    inversion HF as [|? pl ? l'' [t Hk] HF']; subst.
    apply Forall2_app_inv_l in HF'.
    destruct HF' as [l2 [l3' [_ [HF' ->]]]].
    inversion HF' as [|? pl' ? l3 [t' Hk'] _]; subst.
    cbn [fst] in Hk, Hk'. rewrite Hk in Hk'. injection Hk' as _ <-.
    exact (NoDup_app_twice _ _ _ _ Hnd). }
  split; [exact S1|]. intros ps1 k v1 ps2 v2 ps3 Hp.
  split; [eapply S2; eauto|]. intros Hall.
  pose proof (S2 _ _ _ _ _ _ Hp) as Hno.
  rewrite encodeValueTLV_map in *.
  destruct (typeID_ok kt) as [_ Hk]. destruct (typeID_ok vt) as [_ Hv].
  destruct (textrep.writePairs []
              (map (fun p => (textrep.encodeValueTLV f (fst p),
                              textrep.encodeValueTLV f (snd p))) pairs))
    as [out|e] eqn:Ew.
  - exfalso. apply writePairs_ok in Ew. destruct Ew as [pls [HF [Hnd _]]].
    subst pairs. rewrite map_app in HF. cbn [map] in HF.
    rewrite map_app in HF. cbn [map] in HF.
    apply Forall2_app_inv_l in HF.
    destruct HF as [l1 [l' [_ [HF ->]]]].
    inversion HF as [|? pl ? l'' [t Hk1] HF']; subst.
    apply Forall2_app_inv_l in HF'.
    destruct HF' as [l2 [l3' [_ [HF' ->]]]].
    inversion HF' as [|? pl' ? l3 [t' Hk'] _]; subst.
    cbn [fst] in Hk1, Hk'. rewrite Hk1 in Hk'. injection Hk' as _ <-.
    exact (NoDup_app_twice _ _ _ _ Hnd).
  - apply writePairs_err in Ew.
    + subst e. unfold WriteMapTLV. rewrite Hk, Hv. cbn [Z.eqb negb orb].
      rewrite !WriteType_ok by assumption. reflexivity.
    + apply Forall_map. exact Hall.
    + apply Forall_map, Forall_forall. intros p _ t Ht ->.
      destruct (encodeValueTLV_type_byte f _ _ Ht) as [? [? [? _]]].
      discriminate.
    + apply Forall_map, Forall_forall. intros p _ t Ht ->.
      destruct (encodeValueTLV_type_byte f _ _ Ht) as [? [? [? _]]].
      discriminate.
Qed.

(** ** Struct literals in the text encoder *)

Lemma insertByID_perm f l :
  Permutation (textrep.insertByID f l) (f :: l).
Proof.
  induction l as [|x l IH]; [reflexivity|]. cbn [textrep.insertByID].
  destruct (textrep.eid x <? textrep.eid f); [|reflexivity].
  rewrite IH. apply perm_swap.
Qed.

Lemma sortByID_perm l : Permutation (textrep.sortByID l) l.
Proof.
  induction l as [|x l IH]; [reflexivity|]. cbn [textrep.sortByID].
  rewrite insertByID_perm. constructor. exact IH.
Qed.

Lemma insertByID_sorted f l :
  textrep.sortedByID l -> textrep.sortedByID (textrep.insertByID f l).
Proof.
  induction l as [|x l IH]; intros Hs.
  - cbn. auto.
  - cbn [textrep.insertByID]. destruct Hs as [Hx Hl].
    destruct (Z.ltb_spec (textrep.eid x) (textrep.eid f)).
    + split; [|apply IH; exact Hl].
      apply Forall_forall. intros y Hy.
      eapply Permutation_in in Hy; [|apply insertByID_perm].
      destruct Hy as [<-|Hy]; [lia|].
      rewrite Forall_forall in Hx. apply Hx. exact Hy.
    + split; [|split; assumption].
      constructor; [lia|]. apply Forall_forall. intros y Hy.
      rewrite Forall_forall in Hx. specialize (Hx y Hy). lia.
Qed.

Lemma sortByID_sorted l : textrep.sortedByID (textrep.sortByID l).
Proof.
  induction l as [|x l IH]; [exact I|]. cbn [textrep.sortByID].
  apply insertByID_sorted. exact IH.
Qed.

Lemma increasingFrom_NoDup ids : forall p,
  increasingFrom p ids = true -> NoDup ids.
Proof.
  induction ids as [|a ids IH]; intros p H; [constructor|].
  cbn [increasingFrom] in H. apply andb_prop in H. destruct H as [_ H].
  constructor; [|eapply IH; exact H].
  intros Hin. pose proof (increasingFrom_In _ _ _ H Hin). lia.
Qed.

Lemma Permutation_filter_same {A} (P : A -> bool) l l' :
  Permutation l l' -> Permutation (filter P l) (filter P l').
Proof.
  induction 1 as [|x l l' _ IH|x y l|l l' l'' _ IH1 _ IH2].
  - reflexivity.
  - cbn [filter]. destruct (P x); [constructor|]; exact IH.
  - cbn [filter]. destruct (P x), (P y); try reflexivity. apply perm_swap.
  - etransitivity; eassumption.
Qed.

Lemma writtenFields_In l :
  forall e,
    In e (textrep.writtenFields l) ->
    exists f,
      In f l /\ textrep.eomit f = false /\ textrep.etlv f = Ok (wtlv e)
      /\ wid e = textrep.eid f /\ wbytes e = wtlv e.
Proof.
  induction l as [|x l IH]; intros e Hin; [destruct Hin|].
  cbn [textrep.writtenFields] in Hin.
  assert (Htl : In e (textrep.writtenFields l) ->
                exists f,
                  In f (x :: l) /\ textrep.eomit f = false
                  /\ textrep.etlv f = Ok (wtlv e)
                  /\ wid e = textrep.eid f /\ wbytes e = wtlv e).
  { intros H. destruct (IH e H) as [f [H1 H2]]. exists f.
    split; [right; exact H1|exact H2]. }
  destruct (textrep.eomit x) eqn:Eo; [auto|].
  destruct (textrep.etlv x) as [tlv|] eqn:Et; [|auto].
  destruct Hin as [<-|Hin]; [|auto].
  exists x. cbn [wid wbytes wtlv]. auto using in_eq.
Qed.

(** The loop of a nested struct succeeds only on strictly increasing ids
    of the fields that are not omitted. *)
Lemma writeNested_increasing l :
  forall prev buf,
    textrep.writeNested prev l = Ok buf ->
    increasingFrom prev
      (map textrep.eid (filter (fun x => negb (textrep.eomit x)) l)) = true.
Proof.
  induction l as [|x l IH]; intros prev buf H; [reflexivity|].
  cbn [textrep.writeNested] in H. cbn [filter].
  destruct (textrep.eomit x); cbn [negb]; [eapply IH; exact H|].
  destruct (Z.leb_spec (textrep.eid x) prev); [discriminate|].
  destruct (WriteType (to_byte (textrep.eid x))); [|discriminate].
  cbn [bind] in H. destruct (textrep.etlv x); [|discriminate].
  cbn [bind] in H.
  destruct (textrep.writeNested (textrep.eid x) l) as [r|] eqn:Er;
    [|discriminate].
  cbn [map increasingFrom].
  destruct (Z.ltb_spec prev (textrep.eid x)); [|lia]. cbn [andb].
  eapply IH. exact Er.
Qed.

(** The loop of the top-level struct, on a sorted list. *)
Lemma writeTop_ok l :
  forall seen prev buf,
    textrep.sortedByID l ->
    (prev = -1
     \/ (In prev seen /\ Forall (fun f => prev <= textrep.eid f) l)) ->
    textrep.writeTop seen l = Ok buf ->
    buf = payloadOf (textrep.writtenFields l)
    /\ increasingFrom prev (map wid (textrep.writtenFields l)) = true
    /\ Forall (fun e => 0 <= wid e < 128) (textrep.writtenFields l)
    /\ map wid (textrep.writtenFields l)
       = map textrep.eid (filter (fun x => negb (textrep.eomit x)) l).
Proof.
  induction l as [|x l IH]; intros seen prev buf Hs Hp H.
  - injection H as <-. cbn. auto.
  - destruct Hs as [Hx Hl]. cbn [textrep.writeTop] in H.
    cbn [textrep.writtenFields filter].
    destruct (textrep.eomit x); cbn [negb].
    + eapply IH; [exact Hl| |exact H].
      destruct Hp as [Hp|[Hp1 Hp2]]; [left; exact Hp|right].
      split; [exact Hp1|]. inversion Hp2; assumption.
    + destruct (existsb (Z.eqb (textrep.eid x)) seen) eqn:Es; [discriminate|].
      destruct (Z.ltb_spec (textrep.eid x) 0); cbn [orb] in H;
        [discriminate|].
      destruct (Z.leb_spec 128 (textrep.eid x)); [discriminate|].
      rewrite to_byte_small in H by lia.
      rewrite WriteType_ok in H by (apply land_128_small; lia).
      cbn [bind] in H.
      destruct (textrep.etlv x) as [tlv|]; [|discriminate]. cbn [bind] in H.
      destruct (textrep.writeTop (textrep.eid x :: seen) l) as [r|] eqn:Er;
        [|discriminate].
      cbn [bind] in H. injection H as <-.
      destruct (IH (textrep.eid x :: seen) (textrep.eid x) r Hl) as
        [-> [Hinc [Hr Hm]]];
        [right; split; [left; reflexivity|exact Hx]|exact Er|].
      assert (Hlt : prev < textrep.eid x).
      { destruct Hp as [->|[Hp1 Hp2]]; [lia|].
        inversion Hp2 as [|? ? Hle _]; subst.
        assert (textrep.eid x <> prev); [|lia].
        intros E. assert (Ex : existsb (Z.eqb (textrep.eid x)) seen = true).
        { apply existsb_exists. exists prev. split; [exact Hp1|].
          apply Z.eqb_eq. exact E. }
        rewrite Es in Ex. discriminate. }
      rewrite payloadOf_cons. cbn [wid wbytes map increasingFrom app].
      split; [reflexivity|]. split.
      * destruct (Z.ltb_spec prev (textrep.eid x)); [|lia]. exact Hinc.
      * split; [constructor; [cbn [wid]; lia|exact Hr]|].
        rewrite Hm. reflexivity.
Qed.

Lemma encFields_ids f fields :
  map textrep.eid
      (filter (fun x => negb (textrep.eomit x)) (textrep.encFields f fields))
  = map textrep.id (filter (fun x => negb (textrep.omit x)) fields).
Proof.
  unfold textrep.encFields.
  induction fields as [|x fields IH]; [reflexivity|].
  cbn [map filter textrep.eomit]. destruct (textrep.omit x); cbn [negb].
  - exact IH.
  - cbn [map textrep.eid]. rewrite IH. reflexivity.
Qed.

Lemma sorted_ids_NoDup f fields p :
  increasingFrom p
    (map textrep.eid
       (filter (fun x => negb (textrep.eomit x))
          (textrep.sortByID (textrep.encFields f fields)))) = true ->
  NoDup (map textrep.id (filter (fun x => negb (textrep.omit x)) fields)).
Proof.
  intros H. apply increasingFrom_NoDup in H.
  rewrite <- encFields_ids with (f := f).
  eapply Permutation_NoDup; [|exact H].
  apply Permutation_map, Permutation_filter_same, sortByID_perm.
Qed.

Lemma applyFields_no_index decs es :
  forall prev dst,
    increasingFrom prev (map wid es) = true ->
    applyFields decs [] prev es dst = Ok dst.
Proof.
  induction es as [|e es IH]; intros prev dst H; [reflexivity|].
  cbn [map increasingFrom] in H. apply andb_prop in H. destruct H as [H1 H2].
  apply Z.ltb_lt in H1. cbn [applyFields].
  destruct (Z.leb_spec (wid e) prev); [lia|].
  cbn [lookupIndex find]. apply IH. exact H2.
Qed.

(** X26. A document that the text encoder emits is a well-formed struct
    TLV: its payload is a sequence of fields with ids in 0..127 in strictly
    increasing order, each followed by one complete TLV.  The reflective
    decoder therefore accepts it: Unmarshal into an empty struct succeeds,
    every field being skipped. *)
Theorem textrep_document_decodes (f : Z -> Z) (st : list textrep.field)
        (out : list byte)
  (H : textrep.EncodeBytes f st = Ok out) :
  (exists es,
      out = 0x11 :: EncodeLen (len (payloadOf es)) ++ payloadOf es
      /\ Forall wfWireField es
      /\ Forall (fun e => 0 <= wid e < 128) es
      /\ increasingFrom (-1) (map wid es) = true
      /\ map wid es
         = map textrep.eid
             (filter (fun x => negb (textrep.eomit x))
                (textrep.sortByID (textrep.encFields f st))))
  /\ Unmarshal out (TPtr (TStruct [])) (VPtr (Some (VStruct [])))
     = Ok (VStruct []).
Proof.
  unfold textrep.EncodeBytes in H. apply WriteStructTLV_inv in H.
  destruct H as [buf [Hw [-> Hmax]]].
  destruct (writeTop_ok _ [] (-1) buf (sortByID_sorted _)
              (or_introl eq_refl) Hw) as [-> [Hinc [Hr Hm]]].
  set (es := textrep.writtenFields
               (textrep.sortByID (textrep.encFields f st))) in *.
  assert (Hwf : Forall wfWireField es).
  { apply Forall_forall. intros e Hin. split.
    - rewrite Forall_forall in Hr. apply land_128_small, Hr, Hin.
    - intros rest. apply writtenFields_In in Hin.
      destruct Hin as [x [Hin [_ [Ht [_ ->]]]]].
      eapply Permutation_in in Hin; [|apply sortByID_perm].
      unfold textrep.encFields in Hin. apply in_map_iff in Hin.
      destruct Hin as [y [<- _]]. cbn [textrep.etlv] in Ht.
      eapply encodeValueTLV_readTLVBytes, Ht. }
  split.
  - exists es. auto.
  - unfold Unmarshal, Decode.
    pose proof (decodeElem_struct_fields [] [] es [] Hwf Hmax) as D.
    rewrite !app_nil_r in D. rewrite D. cbn [buildIndex].
    rewrite applyFields_no_index by exact Hinc. reflexivity.
Qed.

Lemma textrep_document_decodes_witness :
  Unmarshal [0x11; 0x0C; 0x00; 0x04; 0x2A; 0x00; 0x00; 0x00]
            (TPtr (TStruct [])) (VPtr (Some (VStruct [])))
  = Ok (VStruct []).
Proof.
  exact (proj2 (textrep_document_decodes (fun x => x)
                  [textrep.mkField 7 textrep.valNil true;
                   textrep.mkField 0
                     (textrep.valInt 0 42 0 0 false 32) false]
                  [0x11; 0x0C; 0x00; 0x04; 0x2A; 0x00; 0x00; 0x00]
                  eq_refl)).
Defined.

(** X27. Field ids of struct literals in the text encoder.  When a struct
    is encoded, nested or at the top level, the fields that are not omitted
    have pairwise distinct ids; at the top level these ids are also within
    0..127.  Omitted fields are not checked. *)
Theorem textrep_struct_ids (f : Z -> Z) (fields : list textrep.field) :
  (forall tlv,
      textrep.encodeValueTLV f (textrep.valStruct fields) = Ok tlv ->
      NoDup (map textrep.id
               (filter (fun x => negb (textrep.omit x)) fields)))
  /\ (forall out,
         textrep.EncodeBytes f fields = Ok out ->
         NoDup (map textrep.id
                  (filter (fun x => negb (textrep.omit x)) fields))
         /\ Forall (fun x => textrep.omit x = false ->
                             0 <= textrep.id x < 128) fields).
Proof.
  split.
  - intros tlv H. rewrite encodeValueTLV_struct in H.
    apply WriteStructTLV_inv in H. destruct H as [buf [Hw _]].
    apply writeNested_increasing in Hw.
    eapply sorted_ids_NoDup, Hw.
  - intros out H. unfold textrep.EncodeBytes in H.
    apply WriteStructTLV_inv in H. destruct H as [buf [Hw _]].
    destruct (writeTop_ok _ [] (-1) buf (sortByID_sorted _)
                (or_introl eq_refl) Hw) as [_ [Hinc [Hr Hm]]].
    rewrite Hm in Hinc. split; [eapply sorted_ids_NoDup, Hinc|].
    apply Forall_forall. intros x Hin Ho.
    assert (Hx : In (textrep.id x)
                    (map textrep.eid
                       (filter (fun y => negb (textrep.eomit y))
                          (textrep.sortByID (textrep.encFields f fields))))).
    { eapply Permutation_in;
        [apply Permutation_map, Permutation_filter_same, Permutation_sym,
         sortByID_perm|].
      rewrite encFields_ids. apply in_map. apply filter_In.
      split; [exact Hin|]. rewrite Ho. reflexivity. }
    rewrite <- Hm in Hx. apply in_map_iff in Hx.
    destruct Hx as [e [<- He]]. rewrite Forall_forall in Hr.
    apply Hr, He.
Qed.

(** X28. Ids of nested struct literals are not checked against 0..127 but
    cut to a byte.  A nested struct with the fields [i] and [i + 256] is
    encoded, both fields under the id byte [i]; the struct decoder rejects
    these bytes, the ids on the wire not being strictly increasing.  At the
    top level the same fields are refused as out of range. *)
Theorem textrep_nested_id_wraps (f : Z -> Z) (i : Z)
        (v1 v2 : textrep.value) (t1 t2 rest : list byte)
  (Hi : 0 <= i < 128)
  (H1 : textrep.encodeValueTLV f v1 = Ok t1)
  (H2 : textrep.encodeValueTLV f v2 = Ok t2)
  (Hl : 2 + len t1 + len t2 <= MaxLen) :
  textrep.encodeValueTLV f
    (textrep.valStruct [textrep.mkField i v1 false;
                        textrep.mkField (i + 256) v2 false])
  = Ok (0x11 :: EncodeLen (2 + len t1 + len t2) ++ i :: t1 ++ i :: t2)
  /\ decodeElem (TStruct []) (VStruct [])
       ((0x11 :: EncodeLen (2 + len t1 + len t2) ++ i :: t1 ++ i :: t2)
        ++ rest)
     = Err (RelishError ErrFieldOrder "field ids not strictly increasing")
  /\ textrep.EncodeBytes f [textrep.mkField i v1 false;
                            textrep.mkField (i + 256) v2 false]
     = Err (PlainError "field id out of range").
Proof.
  assert (Hb : to_byte (i + 256) = i).
  { unfold to_byte. replace (i + 256) with (i + 1 * 256) by lia.
    rewrite Z.mod_add by lia. apply Z.mod_small. lia. }
  assert (Hs : textrep.sortByID
                 (textrep.encFields f [textrep.mkField i v1 false;
                                       textrep.mkField (i + 256) v2 false])
               = [textrep.mkEncField i false (Ok t1);
                  textrep.mkEncField (i + 256) false (Ok t2)]).
  { cbn [textrep.encFields map textrep.sortByID textrep.insertByID
         textrep.id textrep.omit textrep.val textrep.eid].
    rewrite H1, H2. destruct (Z.ltb_spec (i + 256) i); [lia|reflexivity]. }
  assert (Hlen : len (i :: t1 ++ i :: t2) = 2 + len t1 + len t2).
  { unfold len. cbn [length]. rewrite length_app. cbn [length]. lia. }
  split; [|split].
  - rewrite encodeValueTLV_struct, Hs.
    cbn [textrep.writeNested textrep.eomit textrep.eid textrep.etlv].
    destruct (Z.leb_spec i (-1)); [lia|].
    destruct (Z.leb_spec (i + 256) i); [lia|].
    rewrite Hb, to_byte_small by lia.
    rewrite WriteType_ok by (apply land_128_small; lia). cbn [bind app].
    unfold WriteStructTLV. cbn [bind]. rewrite WriteType_ok by reflexivity.
    cbn [bind]. rewrite !app_nil_r.
    match goal with
    | |- context [WriteLen ?n] =>
        replace n with (2 + len t1 + len t2) by (symmetry; exact Hlen)
    end.
    pose proof (len_nonneg t1). pose proof (len_nonneg t2).
    rewrite WriteLen_ok by lia. reflexivity.
  - pose (es := [mkWireField i t1 t1; mkWireField i t2 t2]).
    assert (Hp : payloadOf es = i :: t1 ++ i :: t2).
    { cbn [es payloadOf flat_map wid wbytes app]. rewrite app_nil_r.
      reflexivity. }
    rewrite <- Hlen, <- Hp. cbn [app]. rewrite <- app_assoc.
    rewrite decodeElem_struct_fields.
    + cbn [es applyFields wid buildIndex lookupIndex find].
      destruct (Z.leb_spec i (-1)); [lia|].
      destruct (Z.leb_spec i i); [reflexivity|lia].
    + repeat constructor; cbn [wid wbytes wtlv];
        try (apply land_128_small; lia);
        intros r'; eapply encodeValueTLV_readTLVBytes; eassumption.
    + rewrite Hp. unfold len in *. cbn [length] in *.
      rewrite length_app in *. cbn [length] in *. lia.
  - unfold textrep.EncodeBytes. rewrite Hs.
    cbn [textrep.writeTop textrep.eomit textrep.eid textrep.etlv existsb].
    destruct (Z.ltb_spec i 0); [lia|].
    destruct (Z.leb_spec 128 i); [lia|]. cbn [orb].
    rewrite to_byte_small by lia.
    rewrite WriteType_ok by (apply land_128_small; lia). cbn [bind].
    destruct (Z.eqb_spec (i + 256) i); [lia|]. cbn [orb].
    destruct (Z.ltb_spec (i + 256) 0); [lia|].
    destruct (Z.leb_spec 128 (i + 256)); [|lia]. reflexivity.
Qed.

Lemma textrep_nested_id_wraps_witness :
  textrep.encodeValueTLV (fun x => x)
    (textrep.valStruct [textrep.mkField 0 (textrep.valBool true) false;
                        textrep.mkField (0 + 256) textrep.valNull false])
  = Ok (0x11 :: EncodeLen (2 + len [0x01; 0xFF] + len [0x00])
             ++ 0 :: [0x01; 0xFF] ++ 0 :: [0x00]).
Proof.
  refine (proj1 (textrep_nested_id_wraps (fun x => x) 0
                   (textrep.valBool true) textrep.valNull
                   [0x01; 0xFF] [0x00] [] _ eq_refl eq_refl _)).
  - lia.
  - vm_compute. discriminate.
Defined.
